(** * Web sampler: pad store, playback, segmentation, trim bars, WAV encoder

    A shallow embedding of the sampler's audio core:
    - [AudioEngine] (Angular service [audio-engine.ts]): pad store, playback,
      trim and gain, silence based segmentation and buffer splitting;
    - [TrimbarsDrawer] (vanilla JS [TrimbarsDrawer.js]): the geometry of the
      two draggable trim bars;
    - [audioBufferToWav] (Angular service [preset.ts]): the WAV encoder.

    Numbers.  A JS number that the code uses as an index or a count is a [Z].
    A JS number that is a time in seconds, a pixel position or a gain is a
    rational [Q] where the code only compares, clamps and stores it; that
    reading is exact arithmetic.  Where the code multiplies and divides
    times and rounding decides what comes out (which frames a piece holds,
    whether a sound is long enough), the numbers are IEEE 754 doubles,
    [Double.t], and the code is given again in module [IEEE].  An audio
    sample is a [sample], a rational or [NaN], because reading a typed array
    out of range and storing the result yields NaN.  Equality of rationals
    is [Qeq], written [==]. *)

From Stdlib Require Import ZArith QArith Qminmax Qround Qabs Qpower Lia Lqa Bool String.
From Stdlib Require SpecFloat.
From Stdlib Require Import Ascii DecimalString Sorted.
From stdpp Require Import base list.

Local Open Scope Z_scope.

(** ** JS numeric helpers *)

(** [Math.round]: the nearest integer, ties towards plus infinity. *)
Definition Math_round (q : Q) : Z := Qfloor (q + (1 # 2)).

(** [Math.floor]. *)
Definition Math_floor (q : Q) : Z := Qfloor q.

(** Truncation towards zero, the first step of [ToInt16] / [ToUint32]. *)
Definition Qtrunc (q : Q) : Z := Z.quot (Qnum q) (Z.pos (Qden q)).

(** Decimal rendering of an integer inside a template string, as JS prints
    an integer below 10^21 (from there on it switches to exponent notation). *)
Definition string_of_Z (z : Z) : string := NilZero.string_of_int (Z.to_int z).

(** ** IEEE 754 doubles

    A double is the rational it denotes, an infinity or NaN; the two zeros
    are one (the code never divides by a computed zero, its only divisor is
    the sample rate).  An arithmetic operation returns the exact result
    rounded to the nearest double, ties to the even mantissa: 53 bits, least
    exponent -1074, overflow to infinity from 2^1024.  Comparisons are exact
    and false on NaN. *)

Module Double.
Inductive t : Type :=
| Fin (q : Q)
| PosInf
| NegInf
| NaN.

(** [2^k], for any integer [k]. *)
Definition pow2 (k : Z) : Q := (2 ^ k)%Q.

(** [floor(log2 q)] for a positive [q]. *)
Definition ilog2 (q : Q) : Z :=
  let k := Z.log2 (Qnum q) - Z.log2 (Z.pos (Qden q)) in
  if Qle_bool (pow2 k) q then k else k - 1.

(** The nearest integer, ties to the even one. *)
Definition rne (x : Q) : Z :=
  let f := Qfloor x in
  match (x - inject_Z f ?= 1 # 2)%Q with
  | Lt => f
  | Gt => f + 1
  | Eq => if Z.even f then f else f + 1
  end.

(** The exponent of the unit in the last place of the doubles around [q]:
    53 bits of mantissa, and no exponent below that of the subnormals. *)
Definition ulp_exp (q : Q) : Z := Z.max (ilog2 (Qabs q) - 52) (-1074).

(** The multiple of the unit in the last place nearest to [q]. *)
Definition nearest (q : Q) : Q :=
  (inject_Z (rne (q / pow2 (ulp_exp q))) * pow2 (ulp_exp q))%Q.

(** Rounding of an exact result: round to nearest, ties to even, overflow to
    the infinities. *)
Definition round (q : Q) : t :=
  if Qeq_bool q 0 then Fin 0
  else
    let r := nearest q in
    if Qle_bool (pow2 1024) r then PosInf
    else if Qle_bool r (- pow2 1024) then NegInf
    else Fin (Qred r).

(** An integer as a double: itself up to 2^53 in size, rounded beyond. *)
Definition of_Z (n : Z) : t := round (inject_Z n).

(** [x * y]. *)
Definition mul (x y : t) : t :=
  match x, y with
  | NaN, _ | _, NaN => NaN
  | Fin a, Fin b => round (a * b)
  | Fin a, PosInf | PosInf, Fin a =>
      match (a ?= 0)%Q with Eq => NaN | Gt => PosInf | Lt => NegInf end
  | Fin a, NegInf | NegInf, Fin a =>
      match (a ?= 0)%Q with Eq => NaN | Gt => NegInf | Lt => PosInf end
  | PosInf, PosInf | NegInf, NegInf => PosInf
  | PosInf, NegInf | NegInf, PosInf => NegInf
  end.

(** [x / y]; a zero divisor counts as [+0]. *)
Definition div (x y : t) : t :=
  match x, y with
  | NaN, _ | _, NaN => NaN
  | Fin a, Fin b =>
      if Qeq_bool b 0
      then match (a ?= 0)%Q with Eq => NaN | Gt => PosInf | Lt => NegInf end
      else round (a / b)
  | Fin _, (PosInf | NegInf) => Fin 0
  | PosInf, Fin b => if Qle_bool 0 b then PosInf else NegInf
  | NegInf, Fin b => if Qle_bool 0 b then NegInf else PosInf
  | (PosInf | NegInf), (PosInf | NegInf) => NaN
  end.

(** [x - y]. *)
Definition sub (x y : t) : t :=
  match x, y with
  | NaN, _ | _, NaN => NaN
  | Fin a, Fin b => round (a - b)
  | PosInf, PosInf | NegInf, NegInf => NaN
  | PosInf, _ | _, NegInf => PosInf
  | NegInf, _ | _, PosInf => NegInf
  end.

(** [Math.abs]. *)
Definition abs (x : t) : t :=
  match x with
  | Fin q => Fin (Qabs q)
  | PosInf | NegInf => PosInf
  | NaN => NaN
  end.

(** [Math.floor]; the floor of a double is a double. *)
Definition floor (x : t) : t :=
  match x with
  | Fin q => Fin (inject_Z (Qfloor q))
  | _ => x
  end.

(** [Math.round]: the nearest integer, ties towards plus infinity. *)
Definition Math_round (x : t) : t :=
  match x with
  | Fin q => Fin (inject_Z (Qfloor (q + (1 # 2))))
  | _ => x
  end.

(** [x <= y]. *)
Definition leb (x y : t) : bool :=
  match x, y with
  | NaN, _ | _, NaN => false
  | Fin a, Fin b => Qle_bool a b
  | NegInf, _ | _, PosInf => true
  | _, _ => false
  end.

(** [x < y]. *)
Definition ltb (x y : t) : bool :=
  match x, y with
  | NaN, _ | _, NaN => false
  | Fin a, Fin b => negb (Qle_bool b a)
  | PosInf, _ | _, NegInf => false
  | _, _ => true
  end.

(** Whether a value of the model is a double: a finite one is its own
    rounding. *)
Definition is_double (x : t) : bool :=
  match x with
  | Fin q => match round q with Fin q' => Qeq_bool q' q | _ => false end
  | _ => true
  end.

(** The value of a float of the Standard Library's specification of IEEE 754
    arithmetic ([SpecFloat]; binary64 is 53 bits with infinities at 2^1024),
    to compare the operations above with that specification. *)
Definition of_spec_float (x : SpecFloat.spec_float) : t :=
  match x with
  | SpecFloat.S754_zero _ => Fin 0
  | SpecFloat.S754_infinity false => PosInf
  | SpecFloat.S754_infinity true => NegInf
  | SpecFloat.S754_nan => NaN
  | SpecFloat.S754_finite s m e =>
      Fin (Qred ((if s then - inject_Z (Z.pos m) else inject_Z (Z.pos m)) * pow2 e))
  end.

(** Quotient, product and difference of integers in [SpecFloat]'s binary64. *)
Definition binary64_of_Z (n : Z) : SpecFloat.spec_float :=
  SpecFloat.binary_normalize 53 1024 n 0 false.

Definition binary64_div (a b : Z) : SpecFloat.spec_float :=
  SpecFloat.SFdiv 53 1024 (binary64_of_Z a) (binary64_of_Z b).
End Double.

(** ** Audio buffers (the browser's [AudioBuffer]) *)

Inductive sample : Type :=
| Num (q : Q)
| NaN.

Module AudioBuffer.
(** Data model of a decoded buffer: [channels] holds one list of samples
    per channel, [length] is the frame count, [sampleRate] a positive
    integer number of frames per second. *)
Record t : Type := mk {
  sampleRate : Z;
  length : Z;
  channels : list (list sample)
}.

Definition numberOfChannels (b : t) : Z := Z.of_nat (List.length (channels b)).

Definition duration (b : t) : Q := inject_Z (length b) / inject_Z (sampleRate b).

(** [getChannelData(c)]; a missing channel is modelled by the empty array. *)
Definition getChannelData (b : t) (c : Z) : list sample :=
  nth (Z.to_nat c) (channels b) [].

(** Reading a [Float32Array] at an index: out of range is [undefined],
    which becomes NaN when used as a number. *)
Definition at_index (data : list sample) (i : Z) : sample :=
  if (i <? 0) then NaN else nth (Z.to_nat i) data NaN.

(** Every channel has exactly [length] frames and the rate is positive. *)
Definition wf (b : t) : Prop :=
  0 < sampleRate b /\ 0 <= length b /\
  Forall (fun c => Z.of_nat (List.length c) = length b) (channels b).
End AudioBuffer.

(** ** Pads and the engine state *)

Record Pad : Type := mkPad {
  index : Z;
  buffer : option AudioBuffer.t;
  name : string;
  loaded : bool;
  trimStart : Q;
  trimEnd : Q;
  gain : Q
}.

Module AUDIO_CONFIG.
Definition MAX_PADS : Z := 16.
Definition DEFAULT_GAIN : Q := 1.
Definition MAX_GAIN : Q := 2.
Definition MIN_GAIN : Q := 0.
End AUDIO_CONFIG.

Module SILENCE_DETECTION_DEFAULTS.
Definition THRESHOLD : Q := 2 # 100.
Definition MIN_SILENCE_DURATION : Q := 1 # 10.
Definition MIN_SOUND_DURATION : Q := 5 # 100.
End SILENCE_DETECTION_DEFAULTS.

(** The engine: [ctx] and [masterGain] record whether the browser objects
    exist ([null] before [initialize]); [pads] is the array of slots, empty
    before [initialize]. *)
Record AudioEngine : Type := mkEngine {
  ctx : bool;
  masterGain : bool;
  pads : list Pad
}.

(** What the engine does to the outside world. *)
Inductive Effect : Type :=
| Warn (msg : string)
| SourceStart (buf : AudioBuffer.t) (gainValue when offset dur : Q).

Inductive Exn : Type :=
| Error (msg : string)
| TypeError
| DOMException (name : string).

(** Methods of the engine: they read and write the engine, may throw, and
    emit effects in order. *)
Definition M (A : Type) : Type :=
  AudioEngine -> (Exn + A) * AudioEngine * list Effect.

Definition ret {A} (a : A) : M A := fun e => (inr a, e, []).

Definition bind {A B} (m : M A) (k : A -> M B) : M B := fun e =>
  match m e with
  | (inl x, e', out) => (inl x, e', out)
  | (inr a, e', out) =>
      match k a e' with
      | (r, e'', out') => (r, e'', out ++ out')
      end
  end.

Definition throw {A} (x : Exn) : M A := fun e => (inl x, e, []).
Definition console_warn (msg : string) : M unit := fun e => (inr tt, e, [Warn msg]).
Definition emit (ev : Effect) : M unit := fun e => (inr tt, e, [ev]).
Definition this : M AudioEngine := fun e => (inr e, e, []).
Definition set_pads (ps : list Pad) : M unit :=
  fun e => (inr tt, mkEngine (ctx e) (masterGain e) ps, []).

Declare Scope engine_scope.
Delimit Scope engine_scope with engine.
Notation "x <- m ;; k" := (bind m (fun x => k))
  (at level 100, m at next level, right associativity) : engine_scope.
Notation "m ;;; k" := (bind m (fun _ => k))
  (at level 100, right associativity) : engine_scope.
Local Open Scope engine_scope.

(** [this.pads[padIndex]] followed by a property access: the access throws a
    [TypeError] when the slot does not exist. *)
Definition pad_at (padIndex : Z) : M Pad := fun e =>
  match pads e !! Z.to_nat padIndex with
  | Some p => (inr p, e, [])
  | None => (inl TypeError, e, [])
  end.

(** Writing the fields of the pad object held in a slot.  Every method
    reaches this only after [pad_at] found the slot, so the index is in
    range and the update replaces exactly that slot. *)
Definition store_pad (padIndex : Z) (p : Pad) : M unit := fun e =>
  (inr tt, mkEngine (ctx e) (masterGain e) (<[Z.to_nat padIndex := p]> (pads e)), []).

Definition createEmptyPad (index : Z) : Pad :=
  {| index := index;
     buffer := None;
     name := "Pad " ++ string_of_Z (index + 1);
     loaded := false;
     trimStart := 0;
     trimEnd := 1;
     gain := AUDIO_CONFIG.DEFAULT_GAIN |}.

Definition initializePads : M unit :=
  set_pads (map (fun i => createEmptyPad (Z.of_nat i))
                (seq 0 (Z.to_nat AUDIO_CONFIG.MAX_PADS))).

Definition initialize : M unit := fun e =>
  if ctx e then (inr tt, e, [])
  else initializePads (mkEngine true true (pads e)).

Definition isInitialized (e : AudioEngine) : bool := ctx e.

Definition isValidPadIndex (padIndex : Z) : bool :=
  (0 <=? padIndex) && (padIndex <? AUDIO_CONFIG.MAX_PADS).

Definition ensureInitialized : M unit := fun e =>
  if ctx e then (inr tt, e, [])
  else (inl (Error "AudioEngine not initialized"), e, []).

(** A JS value that is a pad, [null] or [undefined]. *)
Inductive PadRef : Type :=
| JsNull
| JsUndefined
| JsPad (p : Pad).

Definition getPad (e : AudioEngine) (padIndex : Z) : PadRef :=
  if negb (isValidPadIndex padIndex) then JsNull
  else match pads e !! Z.to_nat padIndex with
       | Some p => JsPad p
       | None => JsUndefined
       end.

Definition resetPad (padIndex : Z) : M unit :=
  if negb (isValidPadIndex padIndex) then ret tt
  else
    pad <- pad_at padIndex ;;
    match loaded pad, buffer pad with
    | true, Some b =>
        store_pad padIndex
          {| index := index pad; buffer := buffer pad; name := name pad;
             loaded := loaded pad;
             trimStart := 0;
             trimEnd := AudioBuffer.duration b;
             gain := AUDIO_CONFIG.DEFAULT_GAIN |}
    | _, _ => ret tt
    end.

(** [loadBuffer]: load an already decoded buffer into a pad. *)
Definition loadBuffer (padIndex : Z) (buffer : AudioBuffer.t) (name : string) : M Pad :=
  if negb (isValidPadIndex padIndex)
  then throw (Error ("Invalid pad index: " ++ string_of_Z padIndex))
  else
    pad <- pad_at padIndex ;;
    let pad' :=
      {| index := index pad;
         buffer := Some buffer;
         name := name;
         loaded := true;
         trimStart := 0;
         trimEnd := AudioBuffer.duration buffer;
         gain := AUDIO_CONFIG.DEFAULT_GAIN |} in
    store_pad padIndex pad' ;;;
    ret pad'.

(** [playBuffer]: start one independent source over the clamped region. *)
Definition playBuffer (buffer : AudioBuffer.t) (startTime endTime gain : Q) : M unit :=
  e <- this ;;
  if negb (ctx e) || negb (masterGain e) then ret tt
  else
    let clampedStart := Qmax 0 (Qmin startTime (AudioBuffer.duration buffer)) in
    let clampedEnd := Qmax clampedStart (Qmin endTime (AudioBuffer.duration buffer)) in
    emit (SourceStart buffer gain 0 clampedStart (clampedEnd - clampedStart)).

(** [play]: trigger a pad. *)
Definition play (padIndex : Z) : M unit :=
  e <- this ;;
  if negb (ctx e) || negb (masterGain e)
  then console_warn "AudioEngine not initialized"
  else if negb (isValidPadIndex padIndex)
  then console_warn ("Invalid pad index: " ++ string_of_Z padIndex)
  else
    pad <- pad_at padIndex ;;
    match loaded pad, buffer pad with
    | true, Some b => playBuffer b (trimStart pad) (trimEnd pad) (gain pad)
    | _, _ => console_warn ("Pad " ++ string_of_Z padIndex ++ " is not loaded")
    end.

(** [setTrimPoints]: store new trim points for a loaded pad. *)
Definition setTrimPoints (padIndex : Z) (startTime endTime : Q) : M unit :=
  if negb (isValidPadIndex padIndex) then ret tt
  else
    pad <- pad_at padIndex ;;
    match loaded pad, buffer pad with
    | true, Some b =>
        store_pad padIndex
          {| index := index pad; buffer := buffer pad; name := name pad;
             loaded := loaded pad;
             trimStart := Qmax 0 startTime;
             trimEnd := Qmin (AudioBuffer.duration b) endTime;
             gain := gain pad |}
    | _, _ => ret tt
    end.

(** [setGain]: clamp into the configured range. *)
Definition setGain (padIndex : Z) (g : Q) : M unit :=
  if negb (isValidPadIndex padIndex) then ret tt
  else
    pad <- pad_at padIndex ;;
    store_pad padIndex
      {| index := index pad; buffer := buffer pad; name := name pad;
         loaded := loaded pad; trimStart := trimStart pad; trimEnd := trimEnd pad;
         gain := Qmax AUDIO_CONFIG.MIN_GAIN (Qmin AUDIO_CONFIG.MAX_GAIN g) |}.

(** ** Segmentation

    [detectSoundSegments] in exact arithmetic: frame counts and times are
    the rationals the code's expressions denote.  Module [IEEE] below gives
    the same code with every product and quotient rounded to a double. *)

Record SoundSegment : Type := mkSegment {
  seg_start : Q;
  seg_end : Q
}.

(** The loop variables of [detectSoundSegments]. *)
Record ScanState : Type := mkScan {
  isInSound : bool;
  soundStart : Z;
  silenceStart : Z;
  segments : list SoundSegment
}.

(** [Math.abs(x) > threshold]; a comparison with NaN is false. *)
Definition louder (x : sample) (threshold : Q) : bool :=
  match x with
  | Num q => negb (Qle_bool (Qabs q) threshold)
  | NaN => false
  end.

Section DetectSoundSegments.
Variable sampleRate : Z.
Variables silenceThreshold minSilenceSamples minSoundSamples : Q.

(** One iteration of the [for] loop, at index [i] with sample [x]. *)
Definition scanStep (st : ScanState) (i : Z) (x : sample) : ScanState :=
  if louder x silenceThreshold then
    {| isInSound := true;
       soundStart := if isInSound st then soundStart st else i;
       silenceStart := i;
       segments := segments st |}
  else if isInSound st && Qle_bool minSilenceSamples (inject_Z (i - silenceStart st)) then
    let segmentLength := silenceStart st - soundStart st in
    {| isInSound := false;
       soundStart := soundStart st;
       silenceStart := silenceStart st;
       segments :=
         if Qle_bool minSoundSamples (inject_Z segmentLength)
         then segments st ++
              [ {| seg_start := inject_Z (soundStart st) / inject_Z sampleRate;
                   seg_end := inject_Z (silenceStart st) / inject_Z sampleRate |} ]
         else segments st |}
  else st.

(** The loop from index [i] over the remaining samples. *)
Fixpoint scanFrom (i : Z) (data : list sample) (st : ScanState) : ScanState :=
  match data with
  | [] => st
  | x :: rest => scanFrom (i + 1) rest (scanStep st i x)
  end.

(** The code after the loop ("handle last segment"); [len] is [data.length]. *)
Definition scanFinish (len : Z) (st : ScanState) : list SoundSegment :=
  if isInSound st then
    let segmentLength := len - soundStart st in
    if Qle_bool minSoundSamples (inject_Z segmentLength)
    then segments st ++
         [ {| seg_start := inject_Z (soundStart st) / inject_Z sampleRate;
              seg_end := inject_Z len / inject_Z sampleRate |} ]
    else segments st
  else segments st.
End DetectSoundSegments.

Definition scanInit : ScanState :=
  {| isInSound := false; soundStart := 0; silenceStart := 0; segments := [] |}.

Definition detectSoundSegments (buffer : AudioBuffer.t)
    (silenceThreshold minSilenceDuration minSoundDuration : Q) : list SoundSegment :=
  let data := AudioBuffer.getChannelData buffer 0 in
  let sampleRate := AudioBuffer.sampleRate buffer in
  let minSilenceSamples := (minSilenceDuration * inject_Z sampleRate)%Q in
  let minSoundSamples := (minSoundDuration * inject_Z sampleRate)%Q in
  scanFinish sampleRate minSoundSamples (Z.of_nat (List.length data))
    (scanFrom sampleRate silenceThreshold minSilenceSamples minSoundSamples 0 data scanInit).

(** ** Splitting *)

(** The copy loop of [extractBufferSegment] for one channel: frame [i] of
    the new channel is frame [startSample + i] of the source. *)
Definition copyChannel (sourceData : list sample) (startSample length : Z) : list sample :=
  map (fun i => AudioBuffer.at_index sourceData (startSample + Z.of_nat i))
      (seq 0 (Z.to_nat length)).

(** ** Segmentation and splitting in double arithmetic

    The same code as above with every JS number a double: the two duration
    products, the divisions that turn frames into seconds, and the products
    and the subtraction that turn seconds back into frames are rounded.  Loop
    counters and frame numbers are integers below 2^53, which doubles hold
    exactly, so they stay in [Z]. *)

(** A call returns a value, throws, or never returns. *)
Inductive Outcome (A : Type) : Type :=
| Returns (a : A)
| Throws (x : Exn)
| Diverges.
Arguments Returns {A} a.
Arguments Throws {A} x.
Arguments Diverges {A}.

Module IEEE.
Record SoundSegment : Type := mkSegment {
  seg_start : Double.t;
  seg_end : Double.t
}.

Record ScanState : Type := mkScan {
  isInSound : bool;
  soundStart : Z;
  silenceStart : Z;
  segments : list SoundSegment
}.

(** An element of a [Float32Array] read as a number. *)
Definition sample_value (x : sample) : Double.t :=
  match x with
  | Num q => Double.Fin q
  | NaN => Double.NaN
  end.

(** [Math.abs(x) > threshold]. *)
Definition louder (x : sample) (threshold : Double.t) : bool :=
  Double.ltb threshold (Double.abs (sample_value x)).

Section DetectSoundSegments.
Variable sampleRate : Double.t.
Variables silenceThreshold minSilenceSamples minSoundSamples : Double.t.

(** [{ start: first / sampleRate, end: last / sampleRate }]. *)
Definition segment_of (first last : Z) : SoundSegment :=
  {| seg_start := Double.div (Double.of_Z first) sampleRate;
     seg_end := Double.div (Double.of_Z last) sampleRate |}.

(** One iteration of the [for] loop, at index [i] with sample [x]. *)
Definition scanStep (st : ScanState) (i : Z) (x : sample) : ScanState :=
  if louder x silenceThreshold then
    {| isInSound := true;
       soundStart := if isInSound st then soundStart st else i;
       silenceStart := i;
       segments := segments st |}
  else if isInSound st
          && Double.leb minSilenceSamples (Double.of_Z (i - silenceStart st)) then
    let segmentLength := silenceStart st - soundStart st in
    {| isInSound := false;
       soundStart := soundStart st;
       silenceStart := silenceStart st;
       segments :=
         if Double.leb minSoundSamples (Double.of_Z segmentLength)
         then segments st ++ [segment_of (soundStart st) (silenceStart st)]
         else segments st |}
  else st.

(** The loop from index [i] over the remaining samples. *)
Fixpoint scanFrom (i : Z) (data : list sample) (st : ScanState) : ScanState :=
  match data with
  | [] => st
  | x :: rest => scanFrom (i + 1) rest (scanStep st i x)
  end.

(** The code after the loop ("handle last segment"); [len] is [data.length]. *)
Definition scanFinish (len : Z) (st : ScanState) : list SoundSegment :=
  if isInSound st then
    let segmentLength := len - soundStart st in
    if Double.leb minSoundSamples (Double.of_Z segmentLength)
    then segments st ++ [segment_of (soundStart st) len]
    else segments st
  else segments st.
End DetectSoundSegments.

Definition scanInit : ScanState :=
  {| isInSound := false; soundStart := 0; silenceStart := 0; segments := [] |}.

Definition detectSoundSegments (buffer : AudioBuffer.t)
    (silenceThreshold minSilenceDuration minSoundDuration : Double.t)
    : list SoundSegment :=
  let data := AudioBuffer.getChannelData buffer 0 in
  let sampleRate := Double.of_Z (AudioBuffer.sampleRate buffer) in
  let minSilenceSamples := Double.mul minSilenceDuration sampleRate in
  let minSoundSamples := Double.mul minSoundDuration sampleRate in
  scanFinish sampleRate minSoundSamples (Z.of_nat (List.length data))
    (scanFrom sampleRate silenceThreshold minSilenceSamples minSoundSamples 0 data scanInit).

(** WebIDL's conversion of a number to [unsigned long]: NaN and the
    infinities become 0, anything else is truncated and taken modulo 2^32. *)
Definition ToUint32 (x : Double.t) : Z :=
  match x with
  | Double.Fin q => Qtrunc q mod 2 ^ 32
  | _ => 0
  end.

(** The integer an integer-valued double stands for. *)
Definition to_Z (x : Double.t) : Z :=
  match x with
  | Double.Fin q => Qfloor q
  | _ => 0
  end.

Section Platform.
(** [refuses channels frames rate] is the exception with which the browser
    refuses to create a buffer of this shape, when it is beyond its limits
    or its memory. *)
Variable refuses : Z -> Z -> Z -> option Exn.

(** [ctx.createBuffer(numberOfChannels, length, sampleRate)] of the Web Audio
    API, as far as the frame count goes: [length] is an [unsigned long], and
    no channel or no frame is a [NotSupportedError].  The result is the frame
    count of the new, zero filled buffer. *)
Definition createBuffer (numberOfChannels : Z) (length : Double.t) (sampleRate : Z)
    : Exn + Z :=
  let frames := ToUint32 length in
  if (numberOfChannels =? 0) || (frames =? 0)
  then inl (DOMException "NotSupportedError")
  else match refuses numberOfChannels frames sampleRate with
       | Some x => inl x
       | None => inr frames
       end.

(** [Math.floor(time * buffer.sampleRate)]. *)
Definition frame_of (buffer : AudioBuffer.t) (time : Double.t) : Double.t :=
  Double.floor (Double.mul time (Double.of_Z (AudioBuffer.sampleRate buffer))).

(** [extractBufferSegment].  The copy loops count [i] up to [length]: a
    counter sticks at 2^53, so they never end for a larger [length]; they
    write [sourceData[startSample + i]] to [destData[i]], which is dropped
    for [i] beyond the new buffer.  For a source of fewer than 2^53 frames
    the index [startSample + i] is out of range whenever the double sum is
    not exact, so the exact sum reads the same element. *)
Definition extractBufferSegment (buffer : AudioBuffer.t) (segment : SoundSegment)
    : Outcome (option AudioBuffer.t) :=
  let startSample := frame_of buffer (seg_start segment) in
  let endSample := frame_of buffer (seg_end segment) in
  let length := Double.sub endSample startSample in
  if Double.leb length (Double.Fin 0) then Returns None
  else
    match createBuffer (AudioBuffer.numberOfChannels buffer) length
                       (AudioBuffer.sampleRate buffer) with
    | inl x => Throws x
    | inr frames =>
        if Double.ltb (Double.Fin (inject_Z (2 ^ 53))) length then Diverges
        else Returns (Some
          {| AudioBuffer.sampleRate := AudioBuffer.sampleRate buffer;
             AudioBuffer.length := frames;
             AudioBuffer.channels :=
               map (fun sourceData => copyChannel sourceData (to_Z startSample) frames)
                   (AudioBuffer.channels buffer) |})
    end.

(** [segments.map(extract)]: the calls run in order, the first that throws
    or hangs ends the run. *)
Fixpoint extractAll (buffer : AudioBuffer.t) (segments : list SoundSegment)
    : Outcome (list (option AudioBuffer.t)) :=
  match segments with
  | [] => Returns []
  | segment :: rest =>
      match extractBufferSegment buffer segment with
      | Returns b =>
          match extractAll buffer rest with
          | Returns bs => Returns (b :: bs)
          | Throws x => Throws x
          | Diverges => Diverges
          end
      | Throws x => Throws x
      | Diverges => Diverges
      end
  end.

(** [splitBuffer]: [ensureInitialized()], then
    [segments.map(extract).filter(buf => buf !== null)].  It reads the
    engine and writes nothing. *)
Definition splitBuffer (e : AudioEngine) (buffer : AudioBuffer.t)
    (segments : list SoundSegment) : Outcome (list AudioBuffer.t) :=
  match ensureInitialized e with
  | (inl x, _, _) => Throws x
  | (inr _, _, _) =>
      match extractAll buffer segments with
      | Returns bs => Returns (omap id bs)
      | Throws x => Throws x
      | Diverges => Diverges
      end
  end.
End Platform.
End IEEE.

(** ** Trim bars *)

(** [a < b] on JS numbers. *)
Definition Qltb (a b : Q) : bool := negb (Qle_bool b a).

Module TrimbarsDrawer.
Record TrimBar : Type := mkBar {
  x : Q;
  color : string;
  selectedColor : string;
  selected : bool;
  dragged : bool
}.

(** The drawer: the canvas enters only through its width; [clear] and
    [draw] paint the canvas and leave this state alone. *)
Record t : Type := mk {
  canvas_width : Q;
  leftTrimBar : TrimBar;
  rightTrimBar : TrimBar
}.

Record MousePos : Type := mkPos { pos_x : Q; pos_y : Q }.

Definition new (canvas_width leftTrimBarX rightTrimBarX : Q) : t :=
  {| canvas_width := canvas_width;
     leftTrimBar := mkBar leftTrimBarX "#00ff00" "#ff6b6b" false false;
     rightTrimBar := mkBar rightTrimBarX "#00ff00" "#ff6b6b" false false |}.

Definition set_x (b : TrimBar) (v : Q) : TrimBar :=
  mkBar v (color b) (selectedColor b) (selected b) (dragged b).

Definition set_highlight (b : TrimBar) (on : bool) : TrimBar :=
  mkBar (x b) (if on then selectedColor b else "#00ff00") (selectedColor b) on (dragged b).

Definition set_dragged (b : TrimBar) (v : bool) : TrimBar :=
  mkBar (x b) (color b) (selectedColor b) (selected b) v.

Definition release (b : TrimBar) : TrimBar :=
  mkBar (x b) (color b) (selectedColor b) false false.

Section WithDistance.
(** [distance(x1, y1, x2, y2)] comes from [utils.js]; the drawer only
    compares its result with the detection radius. *)
Variable distance : Q -> Q -> Q -> Q -> Q.

Definition highLightTrimBarsWhenClose (mousePos : MousePos) (d : t) : t :=
  let dl := distance (pos_x mousePos) (pos_y mousePos) (x (leftTrimBar d)) 18 in
  let left := set_highlight (leftTrimBar d)
                (Qltb dl 25 && negb (selected (rightTrimBar d))) in
  let dr := distance (pos_x mousePos) (pos_y mousePos) (x (rightTrimBar d)) 18 in
  let right := set_highlight (rightTrimBar d)
                 (Qltb dr 25 && negb (selected left)) in
  mk (canvas_width d) left right.

Definition startDrag (d : t) : t :=
  let left := if selected (leftTrimBar d)
              then set_dragged (leftTrimBar d) true else leftTrimBar d in
  let right := if selected (rightTrimBar d)
               then set_dragged (rightTrimBar d) true else rightTrimBar d in
  mk (canvas_width d) left right.

Definition stopDrag (d : t) : t :=
  let left :=
    if dragged (leftTrimBar d) then
      let l := release (leftTrimBar d) in
      (* ensure left stays left of right *)
      if Qltb (x (rightTrimBar d)) (x l) then set_x l (x (rightTrimBar d)) else l
    else leftTrimBar d in
  let right :=
    if dragged (rightTrimBar d) then
      let r := release (rightTrimBar d) in
      (* ensure right stays right of left *)
      if Qltb (x r) (x left) then set_x r (x left) else r
    else rightTrimBar d in
  mk (canvas_width d) left right.

Definition moveTrimBars (mousePos : MousePos) (d0 : t) : t :=
  let d := highLightTrimBarsWhenClose mousePos d0 in
  (* constrain to canvas bounds *)
  let clampedX := Qmax 0 (Qmin (pos_x mousePos) (canvas_width d)) in
  let left :=
    if dragged (leftTrimBar d) then
      if Qltb clampedX (x (rightTrimBar d)) then set_x (leftTrimBar d) clampedX
      else leftTrimBar d
    else leftTrimBar d in
  let right :=
    if dragged (rightTrimBar d) then
      if Qltb (x left) clampedX then set_x (rightTrimBar d) clampedX
      else rightTrimBar d
    else rightTrimBar d in
  mk (canvas_width d) left right.

(** A drag gesture after the button went down: the pointer moves through
    [path], then the button is released. *)
Definition drag (path : list MousePos) (d : t) : t :=
  stopDrag (fold_left (fun acc p => moveTrimBars p acc) path d).
End WithDistance.
End TrimbarsDrawer.

(** ** WAV encoder *)

(** [n] bytes of [v], least significant first, as [DataView.setUintN] and
    [setIntN] with [littleEndian = true] store them (wrap-around modulo
    [2^(8n)] included). *)
Fixpoint le_bytes (n : nat) (v : Z) : list Z :=
  match n with
  | O => []
  | S n' => Z.land v 255 :: le_bytes n' (Z.shiftr v 8)
  end.

(** The inverse, used to read a header field back. *)
Fixpoint le_value (bs : list Z) : Z :=
  match bs with
  | [] => 0
  | b :: rest => b + 256 * le_value rest
  end.

(** Storing consecutive bytes into the view from [offset] on. *)
Fixpoint set_bytes (offset : nat) (bs : list Z) (view : list Z) : list Z :=
  match bs with
  | [] => view
  | b :: rest => set_bytes (S offset) rest (<[offset := b]> view)
  end.

Definition charCodes (str : string) : list Z :=
  map (fun a => Z.of_N (N_of_ascii a)) (list_ascii_of_string str).

Definition writeString (offset : nat) (str : string) (view : list Z) : list Z :=
  set_bytes offset (map (fun c => Z.land c 255) (charCodes str)) view.

Definition setUint32 (offset : nat) (v : Z) (view : list Z) : list Z :=
  set_bytes offset (le_bytes 4 v) view.

Definition setUint16 (offset : nat) (v : Z) (view : list Z) : list Z :=
  set_bytes offset (le_bytes 2 v) view.

(** [view.setInt16(offset, intSample, true)]: the number is truncated
    towards zero and wrapped to 16 bits; NaN is stored as 0. *)
Definition intSample (s : sample) : Z :=
  match s with
  | NaN => 0
  | Num q =>
      let sample := Qmax (-1) (Qmin 1 q) in
      Qtrunc (if Qltb sample 0 then sample * 32768 else sample * 32767)%Q
  end.

Definition setInt16 (offset : nat) (s : sample) (view : list Z) : list Z :=
  set_bytes offset (le_bytes 2 (intSample s)) view.

(** The interleaving loops: frame [i], channel [ch] goes to byte offset
    [44 + 2 * (i * numChannels + ch)]. *)
Definition writeFrame (channels : list (list sample)) (view : list Z) (i : nat) : list Z :=
  fold_left
    (fun v ch =>
       setInt16 (44 + 2 * (i * List.length channels + ch))
                (AudioBuffer.at_index (nth ch channels []) (Z.of_nat i)) v)
    (seq 0 (List.length channels)) view.

Definition audioBufferToWav (buffer : AudioBuffer.t) : list Z :=
  let numChannels := AudioBuffer.numberOfChannels buffer in
  let sampleRate := AudioBuffer.sampleRate buffer in
  let format := 1 in
  let bitDepth := 16 in
  let length := AudioBuffer.length buffer * numChannels * (bitDepth / 8) in
  let view := repeat 0 (Z.to_nat (44 + length)) in
  let view := writeString 0 "RIFF" view in
  let view := setUint32 4 (36 + length) view in
  let view := writeString 8 "WAVE" view in
  let view := writeString 12 "fmt " view in
  let view := setUint32 16 16 view in
  let view := setUint16 20 format view in
  let view := setUint16 22 numChannels view in
  let view := setUint32 24 sampleRate view in
  let view := setUint32 28 (sampleRate * numChannels * (bitDepth / 8)) view in
  let view := setUint16 32 (numChannels * (bitDepth / 8)) view in
  let view := setUint16 34 bitDepth view in
  let view := writeString 36 "data" view in
  let view := setUint32 40 length view in
  let channels := map (AudioBuffer.getChannelData buffer)
                      (map Z.of_nat (seq 0 (Z.to_nat numChannels))) in
  fold_left (writeFrame channels) (seq 0 (Z.to_nat (AudioBuffer.length buffer))) view.

(** A header field of [n] bytes at [offset], read back little-endian. *)
Definition header_field (offset n : nat) (wav : list Z) : Z :=
  le_value (take n (drop offset wav)).

(** ** Invariants and specification predicates *)

(** The engine before [initialize]. *)
Definition fresh : AudioEngine := mkEngine false false [].

(** The pad store exists: sixteen slots. *)
Definition has_pad_store (e : AudioEngine) : Prop :=
  List.length (pads e) = Z.to_nat AUDIO_CONFIG.MAX_PADS.

(** The state [initialize] establishes and every method keeps. *)
Definition ready (e : AudioEngine) : Prop :=
  ctx e = true /\ masterGain e = true /\ has_pad_store e.

(** The trim invariant of a loaded pad. *)
Definition trim_invariant (p : Pad) : Prop :=
  match buffer p with
  | Some b => (0 <= trimStart p /\ trimStart p <= trimEnd p /\
               trimEnd p <= AudioBuffer.duration b)%Q
  | None => True
  end.

(** A loaded pad in slot 0 holding two frames at one frame per second. *)
Definition two_second_buffer : AudioBuffer.t :=
  AudioBuffer.mk 1 2 [[Num 0; Num 0]].

Definition engine_with (padIndex : Z) (b : AudioBuffer.t) (name : string) : AudioEngine :=
  match initialize fresh with
  | (_, e, _) => match loadBuffer padIndex b name e with (_, e', _) => e' end
  end.

(** ** Segmentation: specification predicates *)

(** Time of frame [i] in seconds. *)
Definition frame_time (sampleRate i : Z) : Q := inject_Z i / inject_Z sampleRate.

(** *** The synthetic buffer of the scenario, at [10 * k] frames per second *)

Section Scenario.
Variable k : Z.

(** Frames [5k .. 12k] and [20k .. 28k] are the ones at times in
    [0.5 s, 1.2 s] and [2.0 s, 2.8 s]. *)
Definition scenario_loud (i : Z) : bool :=
  ((5 * k <=? i) && (i <=? 12 * k)) || ((20 * k <=? i) && (i <=? 28 * k)).

Definition scenario_segment (first last : Z) : SoundSegment :=
  {| seg_start := inject_Z first / inject_Z (10 * k);
     seg_end := inject_Z last / inject_Z (10 * k) |}.

(** The two default durations in frames. *)
Definition scenario_minSilenceSamples : Q :=
  SILENCE_DETECTION_DEFAULTS.MIN_SILENCE_DURATION * inject_Z (10 * k).

Definition scenario_minSoundSamples : Q :=
  SILENCE_DETECTION_DEFAULTS.MIN_SOUND_DURATION * inject_Z (10 * k).

(** The loop variables on entry to iteration [i]. *)
Definition scenario_state (i : Z) : ScanState :=
  if i <=? 5 * k then scanInit
  else if i <=? 12 * k + 1 then mkScan true (5 * k) (i - 1) []
  else if i <=? 13 * k then mkScan true (5 * k) (12 * k) []
  else if i <=? 20 * k then
    mkScan false (5 * k) (12 * k) [scenario_segment (5 * k) (12 * k)]
  else if i <=? 28 * k + 1 then
    mkScan true (20 * k) (i - 1) [scenario_segment (5 * k) (12 * k)]
  else if i <=? 29 * k then
    mkScan true (20 * k) (28 * k) [scenario_segment (5 * k) (12 * k)]
  else
    mkScan false (20 * k) (28 * k)
      [scenario_segment (5 * k) (12 * k); scenario_segment (20 * k) (28 * k)].
End Scenario.

(** A concrete synthetic buffer: 10 frames per second, 3.5 s, amplitude 0.5
    where loud. *)
Definition synthetic_buffer : AudioBuffer.t :=
  AudioBuffer.mk 10 35
    [map (fun i => if scenario_loud 1 (Z.of_nat i) then Num (1 # 2) else Num 0)
         (seq 0 35)].

(** A distance used to run the trim bars on examples (the city-block
    distance; any function can take its place in the statements below). *)
Definition manhattan (x1 y1 x2 y2 : Q) : Q := Qabs (x1 - x2) + Qabs (y1 - y2).

(** ** Clearing pads and command sequences *)

(** The outcome of the array assignment in [clearPad].  Assigning past the
    end of a JS array leaves holes before the new element; [pads] is a list
    without holes, so that outcome is [Sparse]: a state outside
    [AudioEngine]. *)
Inductive SlotWrite : Type :=
| Written (e : AudioEngine)
| Sparse.

(** [clearPad]: [this.pads[padIndex] = this.createEmptyPad(padIndex)]. *)
Definition clearPad (padIndex : Z) (e : AudioEngine) : SlotWrite :=
  if negb (isValidPadIndex padIndex) then Written e
  else
    let n := Z.to_nat padIndex in
    if (n <? List.length (pads e))%nat then
      Written (mkEngine (ctx e) (masterGain e)
                 (<[n := createEmptyPad padIndex]> (pads e)))
    else if (n =? List.length (pads e))%nat then
      Written (mkEngine (ctx e) (masterGain e) (pads e ++ [createEmptyPad padIndex]))
    else Sparse.

(** [clearAll]: [this.pads.forEach((_, index) => this.clearPad(index))]. *)
Definition clearAll (e : AudioEngine) : SlotWrite :=
  fold_left
    (fun acc index =>
       match acc with
       | Written e' => clearPad (Z.of_nat index) e'
       | Sparse => Sparse
       end)
    (seq 0 (List.length (pads e))) (Written e).

(** [getAllPads]: a shallow copy of the array. *)
Definition getAllPads (e : AudioEngine) : list Pad := pads e.

(** A call of one of the engine's synchronous pad methods. *)
Inductive Command : Type :=
| CmdLoadBuffer (padIndex : Z) (buffer : AudioBuffer.t) (name : string)
| CmdSetTrimPoints (padIndex : Z) (startTime endTime : Q)
| CmdSetGain (padIndex : Z) (g : Q)
| CmdResetPad (padIndex : Z)
| CmdClearPad (padIndex : Z)
| CmdClearAll
| CmdPlay (padIndex : Z).

(** The engine after a call, whether it returned or threw; [None] when the
    call left the pad array with holes. *)
Definition after (c : Command) (e : AudioEngine) : option AudioEngine :=
  match c with
  | CmdLoadBuffer i b n => Some (snd (fst (loadBuffer i b n e)))
  | CmdSetTrimPoints i s t => Some (snd (fst (setTrimPoints i s t e)))
  | CmdSetGain i g => Some (snd (fst (setGain i g e)))
  | CmdResetPad i => Some (snd (fst (resetPad i e)))
  | CmdClearPad i => match clearPad i e with Written e' => Some e' | Sparse => None end
  | CmdClearAll => match clearAll e with Written e' => Some e' | Sparse => None end
  | CmdPlay i => Some (snd (fst (play i e)))
  end.

Fixpoint after_all (cs : list Command) (e : AudioEngine) : option AudioEngine :=
  match cs with
  | [] => Some e
  | c :: rest =>
      match after c e with
      | Some e' => after_all rest e'
      | None => None
      end
  end.

(** What holds of every pad in every state the methods can reach. *)
Definition pad_ok (slot : nat) (p : Pad) : Prop :=
  index p = Z.of_nat slot /\
  (AUDIO_CONFIG.MIN_GAIN <= gain p /\ gain p <= AUDIO_CONFIG.MAX_GAIN)%Q /\
  (0 <= trimStart p)%Q /\
  (loaded p = true <-> buffer p <> None) /\
  (forall b, buffer p = Some b -> (trimEnd p <= AudioBuffer.duration b)%Q).

Definition engine_ok (e : AudioEngine) : Prop :=
  ready e /\ forall slot p, pads e !! slot = Some p -> pad_ok slot p.

(** The engine right after [initialize]. *)
Definition initialized : AudioEngine := snd (fst (initialize fresh)).

(** ** Segmentation: frame alignment *)

(** [s] runs from frame [a] to frame [b] of a recording of [len] frames. *)
Definition aligned (sampleRate len : Z) (s : SoundSegment) : Prop :=
  exists a b : Z,
    0 <= a /\ a <= b /\ b <= len /\
    seg_start s = (inject_Z a / inject_Z sampleRate)%Q /\
    seg_end s = (inject_Z b / inject_Z sampleRate)%Q.

(** On entry to iteration [i]: a running sound started at a frame of the
    recording, and the segments so far lie on frames before [i]. *)
Definition scan_aligned (sampleRate i : Z) (st : ScanState) : Prop :=
  0 <= i /\
  (isInSound st = true -> 0 <= soundStart st /\ soundStart st <= silenceStart st < i) /\
  Forall (aligned sampleRate i) (segments st).

(** The frames [first .. first + count - 1] of a channel. *)
Definition slice (first count : Z) (data : list sample) : list sample :=
  take (Z.to_nat count) (drop (Z.to_nat first) data).

(** ** WAV encoder: the file as a whole *)

(** The 44 header bytes for [numChannels] channels at [sampleRate] with
    [dataLength] bytes of samples. *)
Definition wav_header (numChannels sampleRate dataLength : Z) : list Z :=
  charCodes "RIFF" ++ le_bytes 4 (36 + dataLength) ++ charCodes "WAVE" ++
  charCodes "fmt " ++ le_bytes 4 16 ++ le_bytes 2 1 ++ le_bytes 2 numChannels ++
  le_bytes 4 sampleRate ++ le_bytes 4 (sampleRate * numChannels * 2) ++
  le_bytes 2 (numChannels * 2) ++ le_bytes 2 16 ++
  charCodes "data" ++ le_bytes 4 dataLength.

(** The bytes of frame [i]: its sample of every channel in turn, two bytes
    each. *)
Definition frame_bytes (buffer : AudioBuffer.t) (i : nat) : list Z :=
  flat_map
    (fun ch =>
       le_bytes 2 (intSample (AudioBuffer.at_index
                                (AudioBuffer.getChannelData buffer (Z.of_nat ch))
                                (Z.of_nat i))))
    (seq 0 (List.length (AudioBuffer.channels buffer))).

(** [DataView.getInt16(offset, true)]: two bytes read as a signed number. *)
Definition getInt16 (offset : nat) (view : list Z) : Z :=
  let u := le_value (take 2 (drop offset view)) in
  if u <? 32768 then u else u - 65536.

(** ** Trim bars and the pad they show *)

(** [a || b] on numbers: [b] when [a] is 0 (or NaN, which [Q] does not have). *)
Definition js_or (a b : Q) : Q := if Qeq_bool a 0 then b else a.

(** Both bars lie on the canvas, in order. *)
Definition in_canvas (d : TrimbarsDrawer.t) : Prop :=
  (0 <= TrimbarsDrawer.x (TrimbarsDrawer.leftTrimBar d) /\
   TrimbarsDrawer.x (TrimbarsDrawer.leftTrimBar d)
     <= TrimbarsDrawer.x (TrimbarsDrawer.rightTrimBar d) /\
   TrimbarsDrawer.x (TrimbarsDrawer.rightTrimBar d) <= TrimbarsDrawer.canvas_width d)%Q.

(** [SamplerGUI.updateTrimBarsFromPad]: put the bars where the selected pad's
    trim points are.  [pad] is what [this.engine.getPad(this.selectedPadIndex)]
    returned, [width] is [this.waveformCanvas.width]. *)
Definition updateTrimBarsFromPad (selectedPadIndex : Z) (pad : PadRef) (width : Q)
    (d : TrimbarsDrawer.t) : TrimbarsDrawer.t :=
  if selectedPadIndex <? 0 then d
  else
    match pad with
    | JsPad p =>
        match loaded p, buffer p with
        | true, Some b =>
            (* make sure trim values are valid *)
            let duration := AudioBuffer.duration b in
            let trimStart := Qmax 0 (Qmin (js_or (trimStart p) 0) duration) in
            let trimEnd := Qmax trimStart (Qmin (js_or (trimEnd p) duration) duration) in
            (* convert time to pixel positions *)
            let leftPixel := ((trimStart / duration) * width)%Q in
            let rightPixel := ((trimEnd / duration) * width)%Q in
            TrimbarsDrawer.mk (TrimbarsDrawer.canvas_width d)
              (TrimbarsDrawer.set_x (TrimbarsDrawer.leftTrimBar d) leftPixel)
              (TrimbarsDrawer.set_x (TrimbarsDrawer.rightTrimBar d) rightPixel)
        | _, _ => d
        end
    | _ => d
    end.

(** ** The pad grid component ([PadsGrid]) *)

Module GRID_CONFIG.
Definition TOTAL_PADS : Z := 16.
Definition GRID_SIZE : Z := 4.
End GRID_CONFIG.

(** [getPadIndexForPosition]: grid positions count from the top-left, pads
    from the bottom-left.  [Math.floor(position / 4)] is [/] and [%] is
    [Z.rem] on integers. *)
Definition getPadIndexForPosition (position : Z) : Z :=
  let row := position / GRID_CONFIG.GRID_SIZE in
  let col := Z.rem position GRID_CONFIG.GRID_SIZE in
  let invertedRow := GRID_CONFIG.GRID_SIZE - 1 - row in
  invertedRow * GRID_CONFIG.GRID_SIZE + col.

Definition getPositionForPadIndex (padIndex : Z) : Z :=
  let row := padIndex / GRID_CONFIG.GRID_SIZE in
  let col := Z.rem padIndex GRID_CONFIG.GRID_SIZE in
  let invertedRow := GRID_CONFIG.GRID_SIZE - 1 - row in
  invertedRow * GRID_CONFIG.GRID_SIZE + col.

Definition getGridPositions : list Z :=
  map Z.of_nat (seq 0 (Z.to_nat GRID_CONFIG.TOTAL_PADS)).

(** [KEYBOARD_MAP], in the order of the object literal (the order
    [Object.entries] follows). *)
Definition KEYBOARD_MAP : list (string * Z) :=
  [ ("a", 0); ("s", 1); ("d", 2); ("f", 3);
    ("q", 4); ("w", 5); ("e", 6); ("r", 7);
    ("z", 8); ("x", 9); ("c", 10); ("v", 11);
    ("t", 12); ("y", 13); ("u", 14); ("i", 15) ]%string.

(** [KEYBOARD_MAP[key]] for an own key of the map. *)
Fixpoint keyboard_lookup (key : string) (entries : list (string * Z)) : option Z :=
  match entries with
  | [] => None
  | (k, index) :: rest => if String.eqb k key then Some index else keyboard_lookup key rest
  end.

(** [toUpperCase] and [toLowerCase] of one character, on ASCII (code units
    below 128). *)
Definition upper_ascii (c : ascii) : ascii :=
  let n := nat_of_ascii c in
  if ((97 <=? n) && (n <=? 122))%nat then ascii_of_nat (n - 32) else c.

Definition lower_ascii (c : ascii) : ascii :=
  let n := nat_of_ascii c in
  if ((65 <=? n) && (n <=? 90))%nat then ascii_of_nat (n + 32) else c.

Fixpoint toUpperCase (s : string) : string :=
  match s with
  | EmptyString => EmptyString
  | String c rest => String (upper_ascii c) (toUpperCase rest)
  end.

Fixpoint toLowerCase (s : string) : string :=
  match s with
  | EmptyString => EmptyString
  | String c rest => String (lower_ascii c) (toLowerCase rest)
  end.

(** [getKeyForPad]: the first entry whose index is [padIndex], upper-cased;
    [None] is [null]. *)
Fixpoint getKeyForPad_in (entries : list (string * Z)) (padIndex : Z) : option string :=
  match entries with
  | [] => None
  | (key, index) :: rest =>
      if index =? padIndex then Some (toUpperCase key) else getKeyForPad_in rest padIndex
  end.

Definition getKeyForPad (padIndex : Z) : option string :=
  getKeyForPad_in KEYBOARD_MAP padIndex.

Definition getKeyForPosition (position : Z) : option string :=
  getKeyForPad (getPadIndexForPosition position).

(** [getFirstEmptyPadIndex] over the component's [pads] signal. *)
Fixpoint firstEmptyFrom (i : Z) (allPads : list Pad) : option Z :=
  match allPads with
  | [] => None
  | p :: rest => if negb (loaded p) then Some i else firstEmptyFrom (i + 1) rest
  end.

Definition getFirstEmptyPadIndex (allPads : list Pad) : Z :=
  match firstEmptyFrom 0 allPads with
  | Some i => i
  | None => 0 (* default to first pad if all are full *)
  end.

(** [updatePadsFromEngine]: the new value of the [pads] signal, the pads
    [getPad] returns for 0..15 ([null] and [undefined] are skipped). *)
Definition updatePadsFromEngine (e : AudioEngine) : list Pad :=
  flat_map (fun i => match getPad e (Z.of_nat i) with
                     | JsPad p => [p]
                     | _ => []
                     end)
           (seq 0 16).

(** ** Strings: URLs and file names

    A JS string is modelled by a [string] of code units below 256. *)

(** [s.startsWith(p)]. *)
Definition startsWith (s p : string) : bool := String.prefix p s.

(** [s.replace(/^\.\//, '')]: drop one leading "./". *)
Definition dropDotSlash (s : string) : string :=
  match s with
  | String "." (String "/" rest) => rest
  | _ => s
  end.

Section BuildSampleUrl.
(** [environment.BACKEND_URL], from the application's configuration. *)
Variable BACKEND_URL : string.

Definition baseUrl : string := BACKEND_URL ++ "/presets".

(** [PadsGrid.buildSampleUrl]. *)
Definition buildSampleUrl (sampleUrl : string) : string :=
  if startsWith sampleUrl "http://" || startsWith sampleUrl "https://" then sampleUrl
  else if startsWith sampleUrl "/api/" then BACKEND_URL ++ sampleUrl
  else if startsWith sampleUrl "/presets/" then BACKEND_URL ++ sampleUrl
  else
    let cleanUrl := dropDotSlash sampleUrl in
    baseUrl ++ "/" ++ cleanUrl.
End BuildSampleUrl.

(** Character classes of the regular expressions, on code units below 256:
    [\s] is tab, line feed, vertical tab, form feed, carriage return, space
    and the no-break space. *)
Definition isSpace (c : ascii) : bool :=
  let n := nat_of_ascii c in
  ((9 <=? n) && (n <=? 13) || (n =? 32) || (n =? 160))%nat.

Definition isDash (c : ascii) : bool := (nat_of_ascii c =? 45)%nat.

Definition isLowerOrDigit (c : ascii) : bool :=
  let n := nat_of_ascii c in
  ((97 <=? n) && (n <=? 122) || (48 <=? n) && (n <=? 57))%nat.

(** [replace(/P+/g, rep)]: every maximal run of characters of class [P]
    becomes one [rep]; [inrun] says that the previous character was in [P]. *)
Fixpoint squeeze (P : ascii -> bool) (rep : ascii) (inrun : bool) (l : list ascii)
    : list ascii :=
  match l with
  | [] => []
  | c :: rest =>
      if P c then
        if inrun then squeeze P rep true rest else rep :: squeeze P rep true rest
      else c :: squeeze P rep false rest
  end.

Fixpoint dropWhileSpace (l : list ascii) : list ascii :=
  match l with
  | [] => []
  | c :: rest => if isSpace c then dropWhileSpace rest else l
  end.

(** [trim()] on a list of characters. *)
Definition trim_chars (l : list ascii) : list ascii :=
  rev (dropWhileSpace (rev (dropWhileSpace l))).

(** [PresetService.sanitizeFileName], step by step, on characters. *)
Definition sanitize_chars (l : list ascii) : list ascii :=
  let lowered := map lower_ascii l in                                  (* toLowerCase() *)
  let kept := List.filter (fun c => isLowerOrDigit c || isSpace c || isDash c)
                          lowered in                                   (* /[^a-z0-9\s-]/g *)
  let dashed := squeeze isSpace "-" false kept in                      (* /\s+/g *)
  let single := squeeze isDash "-" false dashed in                     (* /-+/g *)
  trim_chars single.                                                   (* trim() *)

Definition sanitizeFileName (name : string) : string :=
  string_of_list_ascii (sanitize_chars (list_ascii_of_string name)).

(** [url.split('/').pop()]: what follows the last "/" (the whole string when
    there is none). *)
Fixpoint lastSegment_from (acc : list ascii) (l : list ascii) : list ascii :=
  match l with
  | [] => rev acc
  | c :: rest => if Ascii.eqb c "/" then lastSegment_from [] rest
                 else lastSegment_from (c :: acc) rest
  end.

Definition lastSegment (l : list ascii) : list ascii := lastSegment_from [] l.

(** [s.replace(/\.[^/.]+$/, '')]: cut at the last "." when a non-empty tail
    without "/" follows it; [stripExtension_from] scans from the end, [tail]
    being the characters passed so far. *)
Fixpoint stripExtension_from (tail : nat) (reversed : list ascii) : option (list ascii) :=
  match reversed with
  | [] => None
  | c :: before =>
      if Ascii.eqb c "." then (if (0 <? tail)%nat then Some (rev before) else None)
      else if Ascii.eqb c "/" then None
      else stripExtension_from (S tail) before
  end.

Definition stripExtension (l : list ascii) : list ascii :=
  match stripExtension_from 0 (rev l) with
  | Some base => base
  | None => l
  end.

(** [AudioEngine.extractFileNameFromUrl]. *)
Definition extractFileNameFromUrl (url : string) : string :=
  match stripExtension (lastSegment (list_ascii_of_string url)) with
  | [] => "sound"
  | name => string_of_list_ascii name
  end.

(** The upload filter of the backend ([memoryUpload.fileFilter]): the
    callback gets [true] or an error. *)
Definition allowedMimes : list string :=
  [ "audio/mpeg"; "audio/wav"; "audio/mp3"; "audio/ogg"; "audio/webm";
    "audio/flac"; "audio/aac"; "audio/x-wav"; "audio/x-m4a" ]%string.

Definition fileFilter (mimetype : string) : Exn + bool :=
  if existsb (String.eqb mimetype) allowedMimes || startsWith mimetype "audio/"
  then inr true
  else inl (Error ("Invalid file type: " ++ mimetype ++ ". Only audio files are allowed.")).

(** The characters a sanitized name is made of: [a-z], [0-9] and "-". *)
Definition isNameChar (c : ascii) : bool := isLowerOrDigit c || isDash c.

(** No two "-" in a row. *)
Fixpoint no_double_dash (l : list ascii) : Prop :=
  match l with
  | [] => True
  | c1 :: rest =>
      match rest with
      | [] => True
      | c2 :: _ => (isDash c1 = false \/ isDash c2 = false) /\ no_double_dash rest
      end
  end.

(** ** Segmentation in double arithmetic: specification predicates *)

(** [(first, last)] pairs of frames in order from [lo], each pair with
    [first <= last], the next pair starting after [last], all below [hi]. *)
Fixpoint frame_chain (lo : Z) (pairs : list (Z * Z)) (hi : Z) : Prop :=
  match pairs with
  | [] => lo <= hi
  | (first, last) :: rest => lo <= first /\ first <= last /\ frame_chain (last + 1) rest hi
  end.

Module IEEESpec.
(** [a] lies wholly before [b], compared as doubles. *)
Definition before (a b : IEEE.SoundSegment) : Prop :=
  Double.ltb (IEEE.seg_start a) (IEEE.seg_start b) = true /\
  Double.ltb (IEEE.seg_end a) (IEEE.seg_start b) = true.

(** The first frame a later segment can start at, on entry to iteration [i]. *)
Definition scan_frontier (st : IEEE.ScanState) (i : Z) : Z :=
  if IEEE.isInSound st then IEEE.soundStart st else i.

(** Loop invariant of [detectSoundSegments] on entry to iteration [i]: the
    segments found so far are the quotients of a chain of frame pairs, each
    of which passed the length test. *)
Definition scan_invariant (sampleRate minSoundSamples : Double.t) (i : Z)
    (st : IEEE.ScanState) : Prop :=
  (IEEE.isInSound st = true -> IEEE.soundStart st <= IEEE.silenceStart st < i) /\
  (IEEE.isInSound st = true -> 0 <= IEEE.soundStart st) /\
  exists pairs,
    IEEE.segments st = map (fun p => IEEE.segment_of sampleRate (fst p) (snd p)) pairs /\
    frame_chain 0 pairs (scan_frontier st i) /\
    Forall (fun p => Double.leb minSoundSamples (Double.of_Z (snd p - fst p)) = true) pairs.
End IEEESpec.

(** A recording of ten frames at 10 Hz, loud on frames 2 to 7. *)
Definition short_burst : AudioBuffer.t :=
  AudioBuffer.mk 10 10
    [map (fun i => if (2 <=? Z.of_nat i) && (Z.of_nat i <=? 7) then Num (1 # 2) else Num 0)
         (seq 0 10)].

(** A mono recording of [n] frames at 44.1 kHz, every sample 0.5. *)
Definition loud_buffer (n : nat) : AudioBuffer.t :=
  AudioBuffer.mk 44100 (Z.of_nat n) [repeat (Num (1 # 2)) n].

(** ** Splitting in double arithmetic: specification predicates *)

Module SplitSpec.




End SplitSpec.

(** A browser that refuses no buffer. *)
Definition generous : Z -> Z -> Z -> option Exn := fun _ _ _ => None.


(** A mono recording of twenty frames at 44.1 kHz, frame [i] holding [i / 32]. *)
Definition ramp : AudioBuffer.t :=
  AudioBuffer.mk 44100 20 [map (fun i => Num (Z.of_nat i # 32)) (seq 0 20)].


(** A mono recording of thirty frames at 44.1 kHz, loud on frames 15 to 24. *)
Definition late_burst : AudioBuffer.t :=
  AudioBuffer.mk 44100 30
    [map (fun i => if (15 <=? Z.of_nat i) && (Z.of_nat i <=? 24) then Num (1 # 2) else Num 0)
         (seq 0 30)].

(** * Properties *)

(** ** Pad store *)

Lemma isValidPadIndex_true (i : Z) : isValidPadIndex i = true <-> 0 <= i < 16.
Proof. unfold isValidPadIndex, AUDIO_CONFIG.MAX_PADS. lia. Qed.

Lemma isValidPadIndex_false (i : Z) : isValidPadIndex i = false <-> ~ (0 <= i < 16).
Proof. unfold isValidPadIndex, AUDIO_CONFIG.MAX_PADS. lia. Qed.

Lemma initialize_fresh_ready :
  exists e, initialize fresh = (inr tt, e, []) /\ ready e.
Proof. eexists. split; [reflexivity | repeat split]. Qed.

Lemma slot_exists (e : AudioEngine) (i : Z) :
  has_pad_store e -> 0 <= i < 16 -> exists p, pads e !! Z.to_nat i = Some p.
Proof.
  unfold has_pad_store, AUDIO_CONFIG.MAX_PADS. intros Hlen Hi.
  destruct (pads e !! Z.to_nat i) as [p|] eqn:E; [eauto|].
  apply lookup_ge_None_1 in E. lia.
Qed.

Lemma store_pad_ready (i : Z) (p : Pad) (e : AudioEngine) :
  ready e -> ready (snd (fst (store_pad i p e))).
Proof.
  unfold ready, has_pad_store. cbn. rewrite length_insert. tauto.
Qed.

(** C10: [getPad] never throws (it is a function into [PadRef]) and
    returns [null] exactly for an index outside [0, 16).  For an index in
    [0, 16) it returns the pad held in the slot once [initialize] has
    created the sixteen pads; before that the pad array is empty and it
    returns [undefined]. *)
Theorem getPad_total (e : AudioEngine) (padIndex : Z) :
  (~ (0 <= padIndex < 16) -> getPad e padIndex = JsNull) /\
  (getPad e padIndex <> JsNull <-> 0 <= padIndex < 16) /\
  (0 <= padIndex < 16 -> has_pad_store e ->
     exists p, pads e !! Z.to_nat padIndex = Some p /\ getPad e padIndex = JsPad p) /\
  (0 <= padIndex < 16 -> pads e = [] -> getPad e padIndex = JsUndefined).
Proof.
  unfold getPad.
  destruct (isValidPadIndex padIndex) eqn:V; cbn.
  - apply isValidPadIndex_true in V.
    split; [tauto|]. split; [|split].
    + split; [intros _; exact V|]. intros _. destruct (pads e !! _); discriminate.
    + intros _ Hstore. destruct (slot_exists e padIndex Hstore V) as [p Hp].
      rewrite Hp. eauto.
    + intros _ ->. reflexivity.
  - apply isValidPadIndex_false in V.
    split; [reflexivity|]. split; [tauto|]. split; tauto.
Qed.

Lemma getPad_total_witness :
  exists e, initialize fresh = (inr tt, e, []) /\
    getPad e 3 = JsPad (createEmptyPad 3) /\ getPad e 16 = JsNull /\ getPad e (-1) = JsNull.
Proof.
  eexists. split; [reflexivity|].
  destruct (getPad_total (snd (fst (initialize fresh))) 3) as (_ & _ & H3 & _).
  destruct (H3 ltac:(lia) eq_refl) as (p & Hp & Hget).
  pose proof (proj1 (getPad_total (snd (fst (initialize fresh))) 16) ltac:(lia)) as H16.
  pose proof (proj1 (getPad_total (snd (fst (initialize fresh))) (-1)) ltac:(lia)) as Hneg.
  split; [|split; [exact H16 | exact Hneg]].
  refine (eq_trans Hget _). f_equal. vm_compute in Hp. injection Hp as <-. reflexivity.
Defined.

(** C10, as the specification states it, fails before [initialize]: index 0
    lies in [0, 16), and [getPad] returns [undefined], not a pad record. *)
Lemma getPad_total_counterexample :
  0 <= 0 < 16 /\ getPad fresh 0 = JsUndefined /\ ~ (exists p, getPad fresh 0 = JsPad p).
Proof.
  split; [lia|]. split; [reflexivity|]. intros [p Hp]. discriminate Hp.
Qed.

Lemma getPad_fresh (padIndex : Z) :
  0 <= padIndex < 16 -> getPad fresh padIndex = JsUndefined.
Proof.
  intros H. unfold getPad. apply isValidPadIndex_true in H. rewrite H. reflexivity.
Qed.

(** C5: [loadBuffer] on an index outside [0, 16) throws the invalid-index
    error; the engine, and with it every pad slot, is left as it was and
    nothing else happens. *)
Theorem loadBuffer_invalid_index (e : AudioEngine) (padIndex : Z)
    (buffer : AudioBuffer.t) (name : string) :
  ~ (0 <= padIndex < 16) ->
  loadBuffer padIndex buffer name e =
    (inl (Error ("Invalid pad index: " ++ string_of_Z padIndex)), e, []) /\
  pads (snd (fst (loadBuffer padIndex buffer name e))) = pads e.
Proof.
  intros H. apply isValidPadIndex_false in H.
  unfold loadBuffer. rewrite H. cbn. split; reflexivity.
Qed.

Lemma loadBuffer_invalid_index_witness :
  loadBuffer 16 two_second_buffer "kick" (engine_with 0 two_second_buffer "snare") =
    (inl (Error "Invalid pad index: 16"), engine_with 0 two_second_buffer "snare", []).
Proof.
  apply (loadBuffer_invalid_index (engine_with 0 two_second_buffer "snare") 16
           two_second_buffer "kick"). lia.
Defined.

(** What a successful [loadBuffer] does. *)
Lemma loadBuffer_ok (e : AudioEngine) (padIndex : Z) (b : AudioBuffer.t) (nm : string) :
  ready e -> 0 <= padIndex < 16 ->
  exists pad e',
    loadBuffer padIndex b nm e = (inr pad, e', []) /\
    ready e' /\
    pads e' !! Z.to_nat padIndex = Some pad /\
    (forall j, j <> Z.to_nat padIndex -> pads e' !! j = pads e !! j) /\
    buffer pad = Some b /\ loaded pad = true /\ name pad = nm /\
    trimStart pad = 0%Q /\ trimEnd pad = AudioBuffer.duration b /\
    gain pad = AUDIO_CONFIG.DEFAULT_GAIN.
Proof.
  intros Hr Hi. pose proof Hr as (Hc & Hm & Hs).
  destruct (slot_exists e padIndex Hs Hi) as [p Hp].
  apply isValidPadIndex_true in Hi.
  unfold loadBuffer. rewrite Hi. cbn [negb].
  unfold bind, pad_at. rewrite Hp. cbn.
  eexists _, _. split; [reflexivity|].
  split; [apply (store_pad_ready padIndex _ e Hr)|].
  cbn. split.
  - apply list_lookup_insert_eq. apply lookup_lt_Some in Hp. exact Hp.
  - split; [|repeat split].
    intros j Hj. apply list_lookup_insert_ne. congruence.
Qed.

(** ** Trim points *)

(** What [setTrimPoints] stores on a loaded pad. *)
Lemma setTrimPoints_loaded (e : AudioEngine) (padIndex : Z) (pad : Pad)
    (b : AudioBuffer.t) (startTime endTime : Q) :
  0 <= padIndex < 16 ->
  pads e !! Z.to_nat padIndex = Some pad ->
  loaded pad = true -> buffer pad = Some b ->
  exists e' pad',
    setTrimPoints padIndex startTime endTime e = (inr tt, e', []) /\
    pads e' !! Z.to_nat padIndex = Some pad' /\
    (forall j, j <> Z.to_nat padIndex -> pads e' !! j = pads e !! j) /\
    trimStart pad' = Qmax 0 startTime /\
    trimEnd pad' = Qmin (AudioBuffer.duration b) endTime /\
    buffer pad' = Some b /\ loaded pad' = true /\
    gain pad' = gain pad /\ name pad' = name pad.
Proof.
  intros Hi Hp Hl Hb. apply isValidPadIndex_true in Hi.
  unfold setTrimPoints. rewrite Hi. cbn [negb].
  unfold bind, pad_at. rewrite Hp, Hl, Hb. cbn.
  eexists _, _. split; [reflexivity|]. split.
  - apply list_lookup_insert_eq. apply lookup_lt_Some in Hp. exact Hp.
  - split; [|repeat split; assumption].
    intros j Hj. apply list_lookup_insert_ne. congruence.
Qed.

(** The two bounds [setTrimPoints] does enforce, whatever its arguments. *)
Lemma setTrimPoints_outer_bounds (e : AudioEngine) (padIndex : Z) (pad : Pad)
    (b : AudioBuffer.t) (startTime endTime : Q) :
  0 <= padIndex < 16 ->
  pads e !! Z.to_nat padIndex = Some pad ->
  loaded pad = true -> buffer pad = Some b ->
  exists pad',
    pads (snd (fst (setTrimPoints padIndex startTime endTime e))) !! Z.to_nat padIndex
      = Some pad' /\
    (0 <= trimStart pad')%Q /\ (trimEnd pad' <= AudioBuffer.duration b)%Q.
Proof.
  intros Hi Hp Hl Hb.
  destruct (setTrimPoints_loaded e padIndex pad b startTime endTime Hi Hp Hl Hb)
    as (e' & pad' & Hrun & Hslot & _ & Hs & He & _).
  exists pad'. rewrite Hrun. cbn. split; [exact Hslot|].
  rewrite Hs, He. split; [apply Q.le_max_l | apply Q.le_min_l].
Qed.

(** With arguments that already satisfy [0 <= start <= end <= duration] the
    stored pair is the given one and the invariant holds. *)
Lemma setTrimPoints_ordered_input (e : AudioEngine) (padIndex : Z) (pad : Pad)
    (b : AudioBuffer.t) (startTime endTime : Q) :
  0 <= padIndex < 16 ->
  pads e !! Z.to_nat padIndex = Some pad ->
  loaded pad = true -> buffer pad = Some b ->
  (0 <= startTime)%Q -> (startTime <= endTime)%Q ->
  (endTime <= AudioBuffer.duration b)%Q ->
  exists pad',
    pads (snd (fst (setTrimPoints padIndex startTime endTime e))) !! Z.to_nat padIndex
      = Some pad' /\
    trim_invariant pad'.
Proof.
  intros Hi Hp Hl Hb H0 H1 H2.
  destruct (setTrimPoints_loaded e padIndex pad b startTime endTime Hi Hp Hl Hb)
    as (e' & pad' & Hrun & Hslot & _ & Hs & He & Hb' & _).
  exists pad'. rewrite Hrun. cbn. split; [exact Hslot|].
  unfold trim_invariant. rewrite Hb', Hs, He.
  rewrite (Q.max_r _ _ H0), (Q.min_r _ _ H2). auto.
Qed.

(** C9: on a loaded pad 3 of duration 2 s, [setTrimPoints(3, -1, 100)] stores
    [trimStart = 0] and [trimEnd = 2]; the other slots are untouched. *)
Theorem setTrimPoints_scenario (e : AudioEngine) (pad : Pad) (b : AudioBuffer.t) :
  pads e !! 3%nat = Some pad ->
  loaded pad = true -> buffer pad = Some b ->
  (AudioBuffer.duration b == 2)%Q ->
  exists e' pad',
    setTrimPoints 3 (-1) 100 e = (inr tt, e', []) /\
    pads e' !! 3%nat = Some pad' /\
    (trimStart pad' == 0)%Q /\ (trimEnd pad' == 2)%Q /\
    (forall j, j <> 3%nat -> pads e' !! j = pads e !! j).
Proof.
  intros Hp Hl Hb Hd.
  destruct (setTrimPoints_loaded e 3 pad b (-1) 100 ltac:(lia) Hp Hl Hb)
    as (e' & pad' & Hrun & Hslot & Hother & Hs & He & _).
  exists e', pad'. repeat split; try assumption.
  - rewrite Hs. reflexivity.
  - rewrite He, Hd. reflexivity.
Qed.

Lemma setTrimPoints_scenario_witness :
  exists e' pad',
    setTrimPoints 3 (-1) 100 (engine_with 3 two_second_buffer "snare") = (inr tt, e', []) /\
    pads e' !! 3%nat = Some pad' /\
    (trimStart pad' == 0)%Q /\ (trimEnd pad' == 2)%Q /\
    (forall j, j <> 3%nat ->
       pads e' !! j = pads (engine_with 3 two_second_buffer "snare") !! j).
Proof.
  apply (setTrimPoints_scenario (engine_with 3 two_second_buffer "snare")
           (mkPad 3 (Some two_second_buffer) "snare" true 0
                  (AudioBuffer.duration two_second_buffer) 1)
           two_second_buffer); reflexivity.
Defined.

(** C1 at a failing input: pad 0 holds a buffer of 2 s; [setTrimPoints(0, 5, 1)]
    stores [trimStart = 5] and [trimEnd = 1], so afterwards the start lies
    after the end and after the end of the buffer. *)
Theorem setTrimPoints_start_after_end :
  exists e' pad',
    setTrimPoints 0 5 1 (engine_with 0 two_second_buffer "snare") = (inr tt, e', []) /\
    pads e' !! 0%nat = Some pad' /\
    loaded pad' = true /\ buffer pad' = Some two_second_buffer /\
    (AudioBuffer.duration two_second_buffer == 2)%Q /\
    (trimStart pad' == 5)%Q /\ (trimEnd pad' == 1)%Q /\
    ~ trim_invariant pad'.
Proof.
  eexists _, _. split; [reflexivity|]. split; [reflexivity|].
  repeat split. intros (_ & H & _). revert H. cbn. apply Qlt_not_le. reflexivity.
Qed.

(** ** Playback *)



Lemma play_not_loaded (e : AudioEngine) (padIndex : Z) (pad : Pad) :
  ctx e = true -> masterGain e = true -> 0 <= padIndex < 16 ->
  pads e !! Z.to_nat padIndex = Some pad ->
  loaded pad = false \/ buffer pad = None ->
  play padIndex e =
    (inr tt, e, [Warn ("Pad " ++ string_of_Z padIndex ++ " is not loaded")]).
Proof.
  intros Hc Hm Hi Hp Hu. apply isValidPadIndex_true in Hi.
  unfold play, bind, this. rewrite Hc, Hm, Hi. cbn [negb orb].
  unfold pad_at. rewrite Hp.
  destruct Hu as [-> | ->]; [reflexivity|].
  destruct (loaded pad); reflexivity.
Qed.






(** ** Segmentation: the scenario *)

Lemma Qle_bool_scaled (n d : positive) (sr m : Z) :
  Qle_bool ((Z.pos n # d) * inject_Z sr) (inject_Z m) = (Z.pos n * sr <=? m * Z.pos d).
Proof.
  apply eq_true_iff_eq. rewrite Qle_bool_iff, Z.leb_le.
  unfold Qle. cbn [Qnum Qden Qmult inject_Z]. 
  rewrite ?Pos.mul_1_r, ?Z.mul_1_r. reflexivity.
Qed.

Lemma frame_time_le_l (n d : positive) (sr i : Z) :
  0 < sr -> ((Z.pos n # d) <= frame_time sr i)%Q <-> Z.pos n * sr <= i * Z.pos d.
Proof.
  intros Hsr. unfold frame_time. destruct sr as [|p|p]; try lia.
  unfold Qle, Qdiv, Qmult, Qinv. cbn.
  rewrite ?Pos.mul_1_r, ?Z.mul_1_r. rewrite ?Pos2Z.inj_mul. lia.
Qed.

Lemma frame_time_le_r (n d : positive) (sr i : Z) :
  0 < sr -> (frame_time sr i <= (Z.pos n # d))%Q <-> i * Z.pos d <= Z.pos n * sr.
Proof.
  intros Hsr. unfold frame_time. destruct sr as [|p|p]; try lia.
  unfold Qle, Qdiv, Qmult, Qinv. cbn.
  rewrite ?Pos.mul_1_r, ?Z.mul_1_r. rewrite ?Pos2Z.inj_mul. lia.
Qed.

Section ScenarioFacts.
Variable k : Z.
Hypothesis k_pos : 0 < k.
Variable silenceThreshold : Q.

Lemma scenario_step (i : Z) (x : sample) :
  0 <= i ->
  louder x silenceThreshold = scenario_loud k i ->
  scanStep (10 * k) silenceThreshold (scenario_minSilenceSamples k)
           (scenario_minSoundSamples k) (scenario_state k i) i x
  = scenario_state k (i + 1).
Proof.
  intros Hi Hx. unfold scanStep. rewrite Hx.
  unfold scenario_minSilenceSamples, scenario_minSoundSamples,
    SILENCE_DETECTION_DEFAULTS.MIN_SILENCE_DURATION,
    SILENCE_DETECTION_DEFAULTS.MIN_SOUND_DURATION.
  rewrite !Qle_bool_scaled.
  unfold scenario_loud, scenario_state, scanInit.
  repeat match goal with
         | |- context [Z.leb ?a ?b] => destruct (Z.leb_spec a b)
         end; cbn in *; try lia; try reflexivity.
  all: repeat match goal with
         | |- context [Z.leb ?a ?b] => destruct (Z.leb_spec a b)
         end; cbn in *; try lia; try reflexivity; try (f_equal; lia).
  all: first [ replace (i - 1) with (12 * k) by lia; reflexivity
             | replace (i - 1) with (28 * k) by lia; reflexivity ].
Qed.

Lemma scenario_scan (rest : list sample) : forall i : Z,
  0 <= i ->
  (forall j : nat, (j < List.length rest)%nat ->
     louder (nth j rest NaN) silenceThreshold = scenario_loud k (i + Z.of_nat j)) ->
  scanFrom (10 * k) silenceThreshold (scenario_minSilenceSamples k)
           (scenario_minSoundSamples k) i rest (scenario_state k i)
  = scenario_state k (i + Z.of_nat (List.length rest)).
Proof.
  induction rest as [|x rest IH]; intros i Hi Hloud.
  - cbn. rewrite Z.add_0_r. reflexivity.
  - cbn [scanFrom]. rewrite scenario_step.
    + rewrite IH.
      * f_equal. cbn [List.length]. lia.
      * lia.
      * intros j Hj. specialize (Hloud (S j)). cbn [nth List.length] in Hloud.
        rewrite Hloud by lia. f_equal. lia.
    + exact Hi.
    + specialize (Hloud 0%nat). cbn [nth List.length] in Hloud.
      rewrite Hloud by lia. f_equal. lia.
Qed.

Lemma scenario_finish (len : Z) :
  29 * k < len ->
  scanFinish (10 * k) (scenario_minSoundSamples k) len (scenario_state k len)
  = [scenario_segment k (5 * k) (12 * k); scenario_segment k (20 * k) (28 * k)].
Proof.
  intros Hlen. unfold scenario_state.
  repeat match goal with
         | |- context [Z.leb ?a ?b] => destruct (Z.leb_spec a b); try lia
         end.
  reflexivity.
Qed.

Lemma scenario_segment_times (first last : Z) (n1 n2 d1 d2 : positive) :
  first * Z.pos d1 = Z.pos n1 * (10 * k) ->
  last * Z.pos d2 = Z.pos n2 * (10 * k) ->
  (seg_start (scenario_segment k first last) == Z.pos n1 # d1 /\
   seg_end (scenario_segment k first last) == Z.pos n2 # d2)%Q.
Proof.
  intros H1 H2. cbn [seg_start seg_end scenario_segment].
  destruct (10 * k) as [|p|p] eqn:E; try lia.
  unfold Qeq, Qdiv, Qmult, Qinv. cbn.
  rewrite ?Pos.mul_1_r, ?Z.mul_1_r, ?Pos2Z.inj_mul. lia.
Qed.
End ScenarioFacts.

(** C2: a buffer at [10 * k] frames per second whose first channel is louder
    than the threshold 0.02 exactly at the frames whose time lies in
    [0.5 s, 1.2 s] or [2.0 s, 2.8 s], and that has a frame at 2.9 s (0.1 s of
    silence after the last loud frame), is segmented with the default
    durations 0.1 s and 0.05 s into exactly two segments, from 0.5 s to 1.2 s
    and from 2.0 s to 2.8 s: each ends at its last loud frame. *)
Theorem detectSoundSegments_scenario (buffer : AudioBuffer.t) (k : Z) :
  0 < k ->
  AudioBuffer.sampleRate buffer = 10 * k ->
  let data := AudioBuffer.getChannelData buffer 0 in
  29 * k < Z.of_nat (List.length data) ->
  (forall i, 0 <= i < Z.of_nat (List.length data) ->
     louder (AudioBuffer.at_index data i) SILENCE_DETECTION_DEFAULTS.THRESHOLD = true <->
     ((1 # 2) <= frame_time (10 * k) i /\ frame_time (10 * k) i <= (12 # 10))%Q \/
     (2 <= frame_time (10 * k) i /\ frame_time (10 * k) i <= (28 # 10))%Q) ->
  exists s1 s2,
    detectSoundSegments buffer
      SILENCE_DETECTION_DEFAULTS.THRESHOLD
      SILENCE_DETECTION_DEFAULTS.MIN_SILENCE_DURATION
      SILENCE_DETECTION_DEFAULTS.MIN_SOUND_DURATION = [s1; s2] /\
    (seg_start s1 == 1 # 2 /\ seg_end s1 == 12 # 10)%Q /\
    (seg_start s2 == 2 /\ seg_end s2 == 28 # 10)%Q.
Proof.
  intros Hk Hsr data Hlen Hloud.
  exists (scenario_segment k (5 * k) (12 * k)), (scenario_segment k (20 * k) (28 * k)).
  split.
  - unfold detectSoundSegments. fold data. rewrite Hsr.
    assert (scanInit = scenario_state k 0) as ->.
    { unfold scenario_state. destruct (Z.leb_spec 0 (5 * k)); [reflexivity | lia]. }
    rewrite (scenario_scan k Hk); [apply scenario_finish; lia | lia |].
    intros j Hj. specialize (Hloud (Z.of_nat j) ltac:(lia)).
    unfold AudioBuffer.at_index in Hloud.
    destruct (Z.ltb_spec (Z.of_nat j) 0) as [?|_]; [lia|].
    rewrite Nat2Z.id in Hloud.
    rewrite !frame_time_le_l, !frame_time_le_r in Hloud by lia.
    apply eq_true_iff_eq. rewrite Hloud. unfold scenario_loud. lia.
  - split; apply scenario_segment_times; lia.
Qed.


Lemma detectSoundSegments_scenario_witness :
  exists s1 s2,
    detectSoundSegments synthetic_buffer (2 # 100) (1 # 10) (5 # 100) = [s1; s2] /\
    (seg_start s1 == 1 # 2 /\ seg_end s1 == 12 # 10)%Q /\
    (seg_start s2 == 2 /\ seg_end s2 == 28 # 10)%Q.
Proof.
  apply (detectSoundSegments_scenario synthetic_buffer 1).
  - lia.
  - reflexivity.
  - vm_compute. reflexivity.
  - intros i Hi.
    replace (Z.of_nat (List.length (AudioBuffer.getChannelData synthetic_buffer 0)))
      with 35 in Hi by (vm_compute; reflexivity).
    assert (i = 0 \/ i = 1 \/ i = 2 \/ i = 3 \/ i = 4 \/ i = 5 \/ i = 6 \/ i = 7 \/
            i = 8 \/ i = 9 \/ i = 10 \/ i = 11 \/ i = 12 \/ i = 13 \/ i = 14 \/
            i = 15 \/ i = 16 \/ i = 17 \/ i = 18 \/ i = 19 \/ i = 20 \/ i = 21 \/
            i = 22 \/ i = 23 \/ i = 24 \/ i = 25 \/ i = 26 \/ i = 27 \/ i = 28 \/
            i = 29 \/ i = 30 \/ i = 31 \/ i = 32 \/ i = 33 \/ i = 34) as Hcases
      by lia.
    rewrite !frame_time_le_l, !frame_time_le_r by lia.
    assert (louder (AudioBuffer.at_index (AudioBuffer.getChannelData synthetic_buffer 0) i)
                   SILENCE_DETECTION_DEFAULTS.THRESHOLD = scenario_loud 1 i) as ->.
    { repeat (destruct Hcases as [-> | Hcases]; [reflexivity |]).
      subst i. reflexivity. }
    unfold scenario_loud. lia.
Defined.

(** ** Frame times *)

Lemma inject_Z_pos (z : Z) : 0 < z -> (0 < inject_Z z)%Q.
Proof. intros H. unfold Qlt. cbn. lia. Qed.

Lemma frame_time_lt (sr a b : Z) :
  0 < sr -> a < b -> (frame_time sr a < frame_time sr b)%Q.
Proof.
  intros Hsr Hab. unfold frame_time, Qdiv.
  apply Qmult_lt_compat_r.
  - apply Qinv_lt_0_compat, inject_Z_pos, Hsr.
  - rewrite <- Zlt_Qlt. exact Hab.
Qed.

Lemma frame_time_le (sr a b : Z) :
  0 < sr -> a <= b -> (frame_time sr a <= frame_time sr b)%Q.
Proof.
  intros Hsr Hab. destruct (Z.eq_dec a b) as [-> | Hne].
  - apply Qle_refl.
  - apply Qlt_le_weak, frame_time_lt; lia.
Qed.


(** ** Splitting *)

Lemma length_copyChannel (sourceData : list sample) (startSample length : Z) :
  0 <= length -> Z.of_nat (List.length (copyChannel sourceData startSample length)) = length.
Proof.
  intros H. unfold copyChannel. rewrite length_map, length_seq. lia.
Qed.

(** ** Trim bars *)

Lemma Qltb_true (a b : Q) : Qltb a b = true <-> (a < b)%Q.
Proof.
  unfold Qltb. rewrite negb_true_iff, <- not_true_iff_false, Qle_bool_iff.
  split; [apply Qnot_le_lt | apply Qlt_not_le].
Qed.

Lemma Qltb_false (a b : Q) : Qltb a b = false <-> (b <= a)%Q.
Proof. unfold Qltb. rewrite negb_false_iff. apply Qle_bool_iff. Qed.

Module TrimbarsFacts.
Import TrimbarsDrawer.

Section WithDistance.
Variable distance : Q -> Q -> Q -> Q -> Q.

(** Hit-testing changes colours and selection, never positions or drags. *)
Lemma highlight_frame (p : MousePos) (d : t) :
  x (leftTrimBar (highLightTrimBarsWhenClose distance p d)) = x (leftTrimBar d) /\
  x (rightTrimBar (highLightTrimBarsWhenClose distance p d)) = x (rightTrimBar d) /\
  dragged (leftTrimBar (highLightTrimBarsWhenClose distance p d)) = dragged (leftTrimBar d) /\
  dragged (rightTrimBar (highLightTrimBarsWhenClose distance p d)) = dragged (rightTrimBar d) /\
  canvas_width (highLightTrimBarsWhenClose distance p d) = canvas_width d.
Proof. repeat split. Qed.

(** After hit-testing at most one bar is selected. *)
Lemma highlight_exclusive (p : MousePos) (d : t) :
  selected (leftTrimBar (highLightTrimBarsWhenClose distance p d)) && selected (rightTrimBar (highLightTrimBarsWhenClose distance p d))
  = false.
Proof.
  cbn. destruct (Qltb _ 25 && negb (selected (rightTrimBar d))); cbn.
  - apply andb_false_r.
  - reflexivity.
Qed.

Lemma move_dragged (p : MousePos) (d : t) :
  dragged (leftTrimBar (moveTrimBars distance p d)) = dragged (leftTrimBar d) /\
  dragged (rightTrimBar (moveTrimBars distance p d)) = dragged (rightTrimBar d).
Proof.
  unfold moveTrimBars. cbn.
  destruct (dragged (leftTrimBar d)) eqn:El, (dragged (rightTrimBar d)) eqn:Er; cbn;
    repeat (match goal with |- context [if ?c then _ else _] => destruct c end; cbn);
    rewrite ?El, ?Er; split; reflexivity.
Qed.

Lemma move_idle_left (p : MousePos) (d : t) :
  dragged (leftTrimBar d) = false ->
  x (leftTrimBar (moveTrimBars distance p d)) = x (leftTrimBar d).
Proof. intros H. unfold moveTrimBars. cbn. rewrite H. reflexivity. Qed.

Lemma move_idle_right (p : MousePos) (d : t) :
  dragged (rightTrimBar d) = false ->
  x (rightTrimBar (moveTrimBars distance p d)) = x (rightTrimBar d).
Proof. intros H. unfold moveTrimBars. cbn. rewrite H. reflexivity. Qed.

(** A move of the left bar that would reach or pass the right bar is
    rejected. *)
Lemma move_left_rejected (p : MousePos) (d : t) :
  (x (rightTrimBar d) <= Qmax 0 (Qmin (pos_x p) (canvas_width d)))%Q ->
  x (leftTrimBar (moveTrimBars distance p d)) = x (leftTrimBar d).
Proof.
  intros H. apply Qltb_false in H. unfold moveTrimBars. cbn. rewrite H.
  destruct (dragged (leftTrimBar d)); reflexivity.
Qed.

Lemma move_left_accepted (p : MousePos) (d : t) :
  dragged (leftTrimBar d) = true ->
  (Qmax 0 (Qmin (pos_x p) (canvas_width d)) < x (rightTrimBar d))%Q ->
  x (leftTrimBar (moveTrimBars distance p d)) = Qmax 0 (Qmin (pos_x p) (canvas_width d)).
Proof.
  intros Hd H. apply Qltb_true in H. unfold moveTrimBars. cbn. rewrite Hd, H.
  reflexivity.
Qed.

(** A move of the right bar that would reach or pass the left bar is
    rejected. *)
Lemma move_right_rejected (p : MousePos) (d : t) :
  dragged (leftTrimBar d) = false ->
  (Qmax 0 (Qmin (pos_x p) (canvas_width d)) <= x (leftTrimBar d))%Q ->
  x (rightTrimBar (moveTrimBars distance p d)) = x (rightTrimBar d).
Proof.
  intros Hl H. apply Qltb_false in H. unfold moveTrimBars. cbn. rewrite Hl. cbn.
  rewrite H. destruct (dragged (rightTrimBar d)); reflexivity.
Qed.

Lemma move_right_accepted (p : MousePos) (d : t) :
  dragged (leftTrimBar d) = false -> dragged (rightTrimBar d) = true ->
  (x (leftTrimBar d) < Qmax 0 (Qmin (pos_x p) (canvas_width d)))%Q ->
  x (rightTrimBar (moveTrimBars distance p d)) = Qmax 0 (Qmin (pos_x p) (canvas_width d)).
Proof.
  intros Hl Hr H. apply Qltb_true in H. unfold moveTrimBars. cbn.
  rewrite Hl, Hr. cbn. rewrite H. reflexivity.
Qed.

(** Whatever the flags, a move keeps the bars in order. *)
Lemma move_keeps_order (p : MousePos) (d : t) :
  (x (leftTrimBar d) <= x (rightTrimBar d))%Q ->
  (x (leftTrimBar (moveTrimBars distance p d)) <= x (rightTrimBar (moveTrimBars distance p d)))%Q.
Proof.
  intros Hord. unfold moveTrimBars. cbn.
  set (c := Qmax 0 (Qmin (pos_x p) (canvas_width d))).
  destruct (dragged (leftTrimBar d)), (dragged (rightTrimBar d)); cbn.
  - destruct (Qltb c (x (rightTrimBar d))) eqn:E1; cbn.
    + assert (Qltb c c = false) as -> by (apply Qltb_false, Qle_refl).
      cbn. apply Qltb_true in E1. apply Qlt_le_weak, E1.
    + destruct (Qltb (x (leftTrimBar d)) c) eqn:E2; cbn.
      * apply Qltb_true in E2. apply Qlt_le_weak, E2.
      * exact Hord.
  - destruct (Qltb c (x (rightTrimBar d))) eqn:E1; cbn.
    + apply Qltb_true in E1. apply Qlt_le_weak, E1.
    + exact Hord.
  - destruct (Qltb (x (leftTrimBar d)) c) eqn:E2; cbn.
    + apply Qltb_true in E2. apply Qlt_le_weak, E2.
    + exact Hord.
  - exact Hord.
Qed.

(** The same facts along a whole pointer path. *)
Lemma moves_frame (path : list MousePos) : forall d : t,
  (x (leftTrimBar d) <= x (rightTrimBar d))%Q ->
  let d' := fold_left (fun acc p => moveTrimBars distance p acc) path d in
  (x (leftTrimBar d') <= x (rightTrimBar d'))%Q /\
  dragged (leftTrimBar d') = dragged (leftTrimBar d) /\
  dragged (rightTrimBar d') = dragged (rightTrimBar d) /\
  (dragged (leftTrimBar d) = false -> x (leftTrimBar d') = x (leftTrimBar d)) /\
  (dragged (rightTrimBar d) = false -> x (rightTrimBar d') = x (rightTrimBar d)).
Proof.
  induction path as [|p path IH]; intros d Hord; cbn [fold_left].
  - cbn. tauto.
  - destruct (move_dragged p d) as [Hdl Hdr].
    specialize (IH (moveTrimBars distance p d) (move_keeps_order p d Hord)).
    cbv zeta in IH. destruct IH as (H1 & H2 & H3 & H4 & H5).
    cbv zeta. rewrite H2, H3, Hdl, Hdr. split; [exact H1|].
    split; [reflexivity|]. split; [reflexivity|]. split.
    + intros Hl. rewrite H4 by congruence. apply move_idle_left, Hl.
    + intros Hr. rewrite H5 by congruence. apply move_idle_right, Hr.
Qed.

(** Releasing the button: flags cleared, order kept, and a bar that was
    not dragged stays where it is. *)
Lemma stopDrag_frame (d : t) :
  (x (leftTrimBar d) <= x (rightTrimBar d))%Q ->
  (x (leftTrimBar (stopDrag d)) <= x (rightTrimBar (stopDrag d)))%Q /\
  x (leftTrimBar (stopDrag d)) = x (leftTrimBar d) /\
  x (rightTrimBar (stopDrag d)) = x (rightTrimBar d) /\
  dragged (leftTrimBar (stopDrag d)) = false /\
  dragged (rightTrimBar (stopDrag d)) = false.
Proof.
  intros Hord. pose proof (proj2 (Qltb_false _ _) Hord) as Hnot.
  unfold stopDrag.
  destruct (dragged (leftTrimBar d)) eqn:El, (dragged (rightTrimBar d)) eqn:Er;
    cbn; rewrite ?Hnot; cbn; rewrite ?Hnot; cbn; rewrite ?El, ?Er; auto.
Qed.

(** Even from bars that are out of order, releasing a dragged bar snaps
    it onto the other one. *)
Lemma stopDrag_safety_net (d : t) :
  dragged (leftTrimBar d) = true \/ dragged (rightTrimBar d) = true ->
  (x (leftTrimBar (stopDrag d)) <= x (rightTrimBar (stopDrag d)))%Q.
Proof.
  intros H. unfold stopDrag.
  destruct (dragged (leftTrimBar d)) eqn:El; cbn.
  - destruct (Qltb (x (rightTrimBar d)) (x (leftTrimBar d))) eqn:E; cbn.
    + destruct (dragged (rightTrimBar d)); cbn.
      * assert (Qltb (x (rightTrimBar d)) (x (rightTrimBar d)) = false) as ->
          by (apply Qltb_false, Qle_refl).
        cbn. apply Qle_refl.
      * apply Qle_refl.
    + apply Qltb_false in E.
      destruct (dragged (rightTrimBar d)); cbn; [|exact E].
      rewrite (proj2 (Qltb_false _ _) E). exact E.
  - destruct H as [H | H]; [discriminate|]. rewrite H. cbn.
    destruct (Qltb (x (rightTrimBar d)) (x (leftTrimBar d))) eqn:E; cbn.
    + apply Qle_refl.
    + apply Qltb_false in E. exact E.
Qed.
End WithDistance.
End TrimbarsFacts.

(** C4: from bars in order ([left <= right]), after any pointer path
    followed by [stopDrag] the bars are still in order, no bar is dragged any
    more, and a bar that was not being dragged is exactly where it was.
    During the drag, a move whose clamped pointer position reaches or passes
    the other bar leaves the dragged bar where it is (it is not moved onto
    the other bar); a move that stays clear of the other bar puts the dragged
    bar at the clamped pointer position. *)
Theorem trim_bars_no_cross (distance : Q -> Q -> Q -> Q -> Q)
    (d : TrimbarsDrawer.t) (path : list TrimbarsDrawer.MousePos) :
  (TrimbarsDrawer.x (TrimbarsDrawer.leftTrimBar d)
   <= TrimbarsDrawer.x (TrimbarsDrawer.rightTrimBar d))%Q ->
  let left := TrimbarsDrawer.leftTrimBar in
  let right := TrimbarsDrawer.rightTrimBar in
  let x := TrimbarsDrawer.x in
  let dragged := TrimbarsDrawer.dragged in
  let d' := TrimbarsDrawer.drag distance path d in
  (x (left d') <= x (right d'))%Q /\
  (dragged (left d) = false -> x (left d') = x (left d)) /\
  (dragged (right d) = false -> x (right d') = x (right d)) /\
  dragged (left d') = false /\ dragged (right d') = false /\
  (forall p : TrimbarsDrawer.MousePos,
     let clampedX :=
       Qmax 0 (Qmin (TrimbarsDrawer.pos_x p) (TrimbarsDrawer.canvas_width d)) in
     let moved := TrimbarsDrawer.moveTrimBars distance p d in
     (dragged (left d) = true -> dragged (right d) = false ->
        x (right moved) = x (right d) /\
        ((x (right d) <= clampedX)%Q -> x (left moved) = x (left d)) /\
        ((clampedX < x (right d))%Q -> x (left moved) = clampedX)) /\
     (dragged (right d) = true -> dragged (left d) = false ->
        x (left moved) = x (left d) /\
        ((clampedX <= x (left d))%Q -> x (right moved) = x (right d)) /\
        ((x (left d) < clampedX)%Q -> x (right moved) = clampedX))).
Proof.
  intros Hord left right x dragged d'.
  destruct (TrimbarsFacts.moves_frame distance path d Hord) as (H1 & H2 & H3 & H4 & H5).
  destruct (TrimbarsFacts.stopDrag_frame _ H1) as (S1 & S2 & S3 & S4 & S5).
  subst d' left right x dragged. unfold TrimbarsDrawer.drag.
  split; [exact S1|].
  split; [intros Hl; rewrite S2; apply H4, Hl|].
  split; [intros Hr; rewrite S3; apply H5, Hr|].
  split; [exact S4|]. split; [exact S5|].
  intros p. split.
  - intros Hl Hr. split; [apply TrimbarsFacts.move_idle_right, Hr|]. split.
    + apply TrimbarsFacts.move_left_rejected.
    + apply TrimbarsFacts.move_left_accepted, Hl.
  - intros Hr Hl. split; [apply TrimbarsFacts.move_idle_left, Hl|]. split.
    + apply TrimbarsFacts.move_right_rejected, Hl.
    + apply TrimbarsFacts.move_right_accepted; assumption.
Qed.

Lemma trim_bars_no_cross_witness :
  let d := TrimbarsDrawer.startDrag
             (TrimbarsDrawer.highLightTrimBarsWhenClose manhattan
                (TrimbarsDrawer.mkPos 105 20) (TrimbarsDrawer.new 1000 100 800)) in
  let d' := TrimbarsDrawer.drag manhattan
              [TrimbarsDrawer.mkPos 500 20; TrimbarsDrawer.mkPos 900 20;
               TrimbarsDrawer.mkPos 850 300] d in
  (TrimbarsDrawer.x (TrimbarsDrawer.leftTrimBar d')
   <= TrimbarsDrawer.x (TrimbarsDrawer.rightTrimBar d'))%Q /\
  TrimbarsDrawer.x (TrimbarsDrawer.rightTrimBar d') = 800%Q /\
  TrimbarsDrawer.x (TrimbarsDrawer.leftTrimBar d') = 500%Q.
Proof.
  intros d d'.
  destruct (trim_bars_no_cross manhattan d
              [TrimbarsDrawer.mkPos 500 20; TrimbarsDrawer.mkPos 900 20;
               TrimbarsDrawer.mkPos 850 300]) as (H1 & _ & H3 & _).
  - vm_compute. discriminate.
  - split; [exact H1|]. split; [apply H3; reflexivity | reflexivity].
Defined.

(** ** WAV encoder *)

Lemma length_set_bytes (bs : list Z) : forall (offset : nat) (view : list Z),
  List.length (set_bytes offset bs view) = List.length view.
Proof.
  induction bs as [|b bs IH]; intros offset view; cbn [set_bytes].
  - reflexivity.
  - rewrite IH. apply length_insert.
Qed.

(** A store at or after byte [n] leaves the first [n] bytes alone. *)
Lemma take_set_bytes (n : nat) (bs : list Z) : forall (offset : nat) (view : list Z),
  (n <= offset)%nat -> take n (set_bytes offset bs view) = take n view.
Proof.
  induction bs as [|b bs IH]; intros offset view Hle; cbn [set_bytes].
  - reflexivity.
  - rewrite IH by lia. apply take_insert_ge. exact Hle.
Qed.

Lemma writeFrame_header (channels : list (list sample)) (view : list Z) (i : nat) :
  take 44 (writeFrame channels view i) = take 44 view /\
  List.length (writeFrame channels view i) = List.length view.
Proof.
  unfold writeFrame. generalize (seq 0 (List.length channels)). intros chs.
  revert view. induction chs as [|ch chs IH]; intros view; cbn [fold_left].
  - split; reflexivity.
  - destruct (IH (setInt16 (44 + 2 * (i * List.length channels + ch))
                    (AudioBuffer.at_index (nth ch channels []) (Z.of_nat i)) view))
      as [-> ->].
    unfold setInt16. rewrite take_set_bytes by lia. rewrite length_set_bytes.
    split; reflexivity.
Qed.

Lemma frames_header (channels : list (list sample)) (frames : list nat) :
  forall view : list Z,
    take 44 (fold_left (writeFrame channels) frames view) = take 44 view /\
    List.length (fold_left (writeFrame channels) frames view) = List.length view.
Proof.
  induction frames as [|i frames IH]; intros view; cbn [fold_left].
  - split; reflexivity.
  - destruct (IH (writeFrame channels view i)) as [-> ->].
    apply writeFrame_header.
Qed.

(** C8: a mono buffer of 1000 frames at 44100 Hz is encoded into 2044 bytes
    that begin with the 44-byte header
    ["RIFF", 2036, "WAVE", "fmt ", 16, 1, 1, 44100, 88200, 2, 16, "data", 2000],
    all numbers little-endian: ChunkSize = 36 + 2000, Subchunk2Size = 2000,
    ByteRate = 88200, BlockAlign = 2. *)
Theorem audioBufferToWav_header (buffer : AudioBuffer.t) (channel : list sample) :
  AudioBuffer.length buffer = 1000 ->
  AudioBuffer.sampleRate buffer = 44100 ->
  AudioBuffer.channels buffer = [channel] ->
  let wav := audioBufferToWav buffer in
  List.length wav = 2044%nat /\
  take 44 wav =
    [ 82; 73; 70; 70;   244; 7; 0; 0;   87; 65; 86; 69;
      102; 109; 116; 32;   16; 0; 0; 0;   1; 0;   1; 0;
      68; 172; 0; 0;   136; 88; 1; 0;   2; 0;   16; 0;
      100; 97; 116; 97;   208; 7; 0; 0 ] /\
  take 4 wav = charCodes "RIFF" /\
  header_field 4 4 wav = 36 + 2000 /\
  take 4 (drop 8 wav) = charCodes "WAVE" /\
  take 4 (drop 12 wav) = charCodes "fmt " /\
  header_field 28 4 wav = 88200 /\
  header_field 32 2 wav = 2 /\
  take 4 (drop 36 wav) = charCodes "data" /\
  header_field 40 4 wav = 2000.
Proof.
  intros Hlen Hsr Hch wav.
  assert (List.length wav = 2044%nat /\
          take 44 wav =
            [ 82; 73; 70; 70;   244; 7; 0; 0;   87; 65; 86; 69;
              102; 109; 116; 32;   16; 0; 0; 0;   1; 0;   1; 0;
              68; 172; 0; 0;   136; 88; 1; 0;   2; 0;   16; 0;
              100; 97; 116; 97;   208; 7; 0; 0 ]) as [Hsize Hhead].
  { subst wav. unfold audioBufferToWav, AudioBuffer.numberOfChannels.
    rewrite Hlen, Hsr, Hch. cbv zeta.
    match goal with
    | |- context [fold_left (writeFrame ?cs) ?fr ?v] =>
        destruct (frames_header cs fr v) as [-> ->]
    end.
    split; vm_compute; reflexivity. }
  split; [exact Hsize|]. split; [exact Hhead|].
  assert (forall n off, (off + n <= 44)%nat ->
            take n (drop off wav) = take n (drop off (take 44 wav))) as Hsub.
  { intros n off Hle. rewrite !take_drop_commute, take_take.
    rewrite Nat.min_l by lia. reflexivity. }
  unfold header_field.
  replace (take 4 wav) with (take 4 (take 44 wav)) by (rewrite take_take; reflexivity).
  rewrite !Hsub by lia. rewrite Hhead. repeat split.
Qed.

Lemma audioBufferToWav_header_witness :
  header_field 4 4 (audioBufferToWav (AudioBuffer.mk 44100 1000 [repeat (Num (1 # 3)) 1000]))
    = 2036 /\
  header_field 40 4 (audioBufferToWav (AudioBuffer.mk 44100 1000 [repeat (Num (1 # 3)) 1000]))
    = 2000 /\
  header_field 28 4 (audioBufferToWav (AudioBuffer.mk 44100 1000 [repeat (Num (1 # 3)) 1000]))
    = 88200 /\
  header_field 32 2 (audioBufferToWav (AudioBuffer.mk 44100 1000 [repeat (Num (1 # 3)) 1000]))
    = 2.
Proof.
  destruct (audioBufferToWav_header
              (AudioBuffer.mk 44100 1000 [repeat (Num (1 # 3)) 1000])
              (repeat (Num (1 # 3)) 1000) eq_refl eq_refl eq_refl)
    as (_ & _ & _ & H4 & _ & _ & H28 & H32 & _ & H40).
  repeat split; assumption.
Defined.

(** * Further properties of the engine *)

(** ** Gain, reset and clearing *)

Lemma setGain_run (e : AudioEngine) (padIndex : Z) (pad : Pad) (g : Q) :
  0 <= padIndex < 16 ->
  pads e !! Z.to_nat padIndex = Some pad ->
  setGain padIndex g e =
    (inr tt,
     mkEngine (ctx e) (masterGain e)
       (<[Z.to_nat padIndex :=
            mkPad (index pad) (buffer pad) (name pad) (loaded pad) (trimStart pad)
                  (trimEnd pad)
                  (Qmax AUDIO_CONFIG.MIN_GAIN (Qmin AUDIO_CONFIG.MAX_GAIN g))]> (pads e)),
     []).
Proof.
  intros Hi Hp. apply isValidPadIndex_true in Hi.
  unfold setGain. rewrite Hi. cbn [negb]. unfold bind, pad_at. rewrite Hp. reflexivity.
Qed.

(** X1: [setGain] on any existing slot, loaded or not, stores the gain
    clamped into [0, 2] (the value itself when it already lies there),
    keeps every other field of the pad and every other slot, and does
    nothing on an index outside [0, 16). *)
Theorem setGain_clamps (e : AudioEngine) (padIndex : Z) (g : Q) :
  has_pad_store e ->
  (0 <= padIndex < 16 ->
   exists e' pad pad',
     setGain padIndex g e = (inr tt, e', []) /\
     pads e !! Z.to_nat padIndex = Some pad /\
     pads e' !! Z.to_nat padIndex = Some pad' /\
     (0 <= gain pad' /\ gain pad' <= 2)%Q /\
     ((0 <= g /\ g <= 2)%Q -> (gain pad' == g)%Q) /\
     ((g <= 0)%Q -> (gain pad' == 0)%Q) /\
     ((2 <= g)%Q -> (gain pad' == 2)%Q) /\
     (index pad', buffer pad', name pad', loaded pad', trimStart pad', trimEnd pad')
       = (index pad, buffer pad, name pad, loaded pad, trimStart pad, trimEnd pad) /\
     (forall j, j <> Z.to_nat padIndex -> pads e' !! j = pads e !! j)) /\
  (~ (0 <= padIndex < 16) -> setGain padIndex g e = (inr tt, e, [])).
Proof.
  intros Hstore. split.
  - intros Hi. destruct (slot_exists e padIndex Hstore Hi) as [pad Hp].
    rewrite (setGain_run e padIndex pad g Hi Hp).
    eexists _, pad, _. split; [reflexivity|]. split; [exact Hp|]. cbn [pads].
    split; [apply list_lookup_insert_eq; apply lookup_lt_Some in Hp; exact Hp|].
    cbn [gain index buffer name loaded trimStart trimEnd].
    unfold AUDIO_CONFIG.MIN_GAIN, AUDIO_CONFIG.MAX_GAIN.
    split; [split; [apply Q.le_max_l | apply Q.max_lub; [discriminate | apply Q.le_min_l]]|].
    split.
    { intros [H0 H2]. rewrite (Q.min_r _ _ H2). apply Q.max_r, H0. }
    split.
    { intros H0. apply Q.max_l. eapply Qle_trans; [apply Q.le_min_r | exact H0]. }
    split.
    { intros H2. rewrite (Q.min_l _ _ H2). apply Q.max_r. discriminate. }
    split; [reflexivity|].
    intros j Hj. apply list_lookup_insert_ne. congruence.
  - intros Hi. apply isValidPadIndex_false in Hi. unfold setGain. rewrite Hi. reflexivity.
Qed.

Lemma setGain_clamps_witness :
  exists e' pad',
    setGain 2 5 initialized = (inr tt, e', []) /\
    pads e' !! 2%nat = Some pad' /\ (gain pad' == 2)%Q.
Proof.
  destruct (proj1 (setGain_clamps initialized 2 5 eq_refl) ltac:(lia))
    as (e' & pad & pad' & Hrun & _ & Hslot & _ & _ & _ & Hhi & _).
  exists e', pad'. split; [exact Hrun|]. split; [exact Hslot|].
  apply Hhi. discriminate.
Defined.

(** X2: [resetPad] on a loaded pad stores [trimStart = 0],
    [trimEnd = duration] and [gain = 1], whatever was stored before, so the
    trim invariant holds afterwards for a buffer of non-negative duration;
    buffer, name and the other slots are kept.  On an unloaded pad and on an
    index outside [0, 16) it does nothing. *)
Theorem resetPad_restores (e : AudioEngine) (padIndex : Z) :
  (forall pad b,
     0 <= padIndex < 16 ->
     pads e !! Z.to_nat padIndex = Some pad ->
     loaded pad = true -> buffer pad = Some b ->
     exists e' pad',
       resetPad padIndex e = (inr tt, e', []) /\
       pads e' !! Z.to_nat padIndex = Some pad' /\
       trimStart pad' = 0%Q /\ trimEnd pad' = AudioBuffer.duration b /\
       gain pad' = 1%Q /\
       (buffer pad', name pad', loaded pad', index pad')
         = (Some b, name pad, true, index pad) /\
       ((0 <= AudioBuffer.duration b)%Q -> trim_invariant pad') /\
       (forall j, j <> Z.to_nat padIndex -> pads e' !! j = pads e !! j)) /\
  (forall pad,
     0 <= padIndex < 16 ->
     pads e !! Z.to_nat padIndex = Some pad ->
     loaded pad = false \/ buffer pad = None ->
     resetPad padIndex e = (inr tt, e, [])) /\
  (~ (0 <= padIndex < 16) -> resetPad padIndex e = (inr tt, e, [])).
Proof.
  split; [|split].
  - intros pad b Hi Hp Hl Hb. apply isValidPadIndex_true in Hi.
    unfold resetPad. rewrite Hi. cbn [negb]. unfold bind, pad_at.
    rewrite Hp, Hl, Hb. cbn.
    eexists _, _. split; [reflexivity|].
    split; [apply list_lookup_insert_eq; apply lookup_lt_Some in Hp; exact Hp|].
    cbn. repeat split; try apply Qle_refl; try assumption.
    intros j Hj. apply list_lookup_insert_ne. congruence.
  - intros pad Hi Hp Hu. apply isValidPadIndex_true in Hi.
    unfold resetPad. rewrite Hi. cbn [negb]. unfold bind, pad_at. rewrite Hp.
    destruct Hu as [-> | ->]; [reflexivity|]. destruct (loaded pad); reflexivity.
  - intros Hi. apply isValidPadIndex_false in Hi. unfold resetPad. rewrite Hi. reflexivity.
Qed.

Lemma resetPad_restores_witness :
  exists e' pad',
    resetPad 0 (snd (fst (setTrimPoints 0 5 1 (engine_with 0 two_second_buffer "snare"))))
      = (inr tt, e', []) /\
    pads e' !! 0%nat = Some pad' /\ trim_invariant pad'.
Proof.
  destruct (proj1 (resetPad_restores
                     (snd (fst (setTrimPoints 0 5 1 (engine_with 0 two_second_buffer "snare"))))
                     0)
              (mkPad 0 (Some two_second_buffer) "snare" true 5 1 1) two_second_buffer
              ltac:(lia) eq_refl eq_refl eq_refl)
    as (e' & pad' & Hrun & Hslot & _ & _ & _ & _ & Hinv & _).
  exists e', pad'. split; [exact Hrun|]. split; [exact Hslot|]. apply Hinv. discriminate.
Defined.

Lemma clearPad_in_range (e : AudioEngine) (padIndex : Z) :
  0 <= padIndex < 16 -> (Z.to_nat padIndex < List.length (pads e))%nat ->
  clearPad padIndex e =
    Written (mkEngine (ctx e) (masterGain e)
               (<[Z.to_nat padIndex := createEmptyPad padIndex]> (pads e))).
Proof.
  intros Hi Hlt. apply isValidPadIndex_true in Hi. unfold clearPad. rewrite Hi. cbn [negb].
  destruct (Nat.ltb_spec (Z.to_nat padIndex) (List.length (pads e))); [reflexivity | lia].
Qed.

(** X3: [clearPad] on a slot of the pad store puts the empty pad of that
    index there (unloaded, no buffer, default name, trim 0..1, gain 1) and
    leaves the other slots alone, so a following [play] of that index only
    warns that the pad is not loaded; on an index outside [0, 16) it does
    nothing. *)
Theorem clearPad_empties (e : AudioEngine) (padIndex : Z) :
  has_pad_store e ->
  (0 <= padIndex < 16 ->
   exists e',
     clearPad padIndex e = Written e' /\
     getPad e' padIndex = JsPad (createEmptyPad padIndex) /\
     (forall j, j <> Z.to_nat padIndex -> pads e' !! j = pads e !! j) /\
     has_pad_store e' /\ ctx e' = ctx e /\ masterGain e' = masterGain e /\
     (ctx e = true -> masterGain e = true ->
      play padIndex e' =
        (inr tt, e', [Warn ("Pad " ++ string_of_Z padIndex ++ " is not loaded")]))) /\
  (~ (0 <= padIndex < 16) -> clearPad padIndex e = Written e).
Proof.
  intros Hstore. split.
  - intros Hi.
    assert (Z.to_nat padIndex < List.length (pads e))%nat as Hlt
      by (unfold has_pad_store, AUDIO_CONFIG.MAX_PADS in Hstore; lia).
    rewrite (clearPad_in_range e padIndex Hi Hlt). eexists. split; [reflexivity|].
    assert (<[Z.to_nat padIndex := createEmptyPad padIndex]> (pads e) !! Z.to_nat padIndex
            = Some (createEmptyPad padIndex)) as Hslot
      by (apply list_lookup_insert_eq; exact Hlt).
    split.
    { unfold getPad. rewrite (proj2 (isValidPadIndex_true padIndex) Hi). cbn.
      rewrite Hslot. reflexivity. }
    split; [intros j Hj; cbn; apply list_lookup_insert_ne; congruence|].
    split; [unfold has_pad_store in *; cbn; rewrite length_insert; exact Hstore|].
    split; [reflexivity|]. split; [reflexivity|].
    intros Hc Hm.
    apply (play_not_loaded
             (mkEngine (ctx e) (masterGain e)
                (<[Z.to_nat padIndex := createEmptyPad padIndex]> (pads e)))
             padIndex (createEmptyPad padIndex) Hc Hm Hi Hslot).
    left. reflexivity.
  - intros Hi. apply isValidPadIndex_false in Hi. unfold clearPad. rewrite Hi. reflexivity.
Qed.

Lemma clearPad_empties_witness :
  exists e',
    clearPad 5 (engine_with 5 two_second_buffer "kick") = Written e' /\
    getPad e' 5 = JsPad (createEmptyPad 5) /\
    play 5 e' = (inr tt, e', [Warn "Pad 5 is not loaded"]).
Proof.
  destruct (proj1 (clearPad_empties (engine_with 5 two_second_buffer "kick") 5 eq_refl)
              ltac:(lia))
    as (e' & Hrun & Hget & _ & _ & _ & _ & Hplay).
  exists e'. split; [exact Hrun|]. split; [exact Hget|]. apply Hplay; reflexivity.
Defined.

Lemma clear_loop (c m : bool) (rest : list Pad) : forall done : list Pad,
  (List.length done + List.length rest <= 16)%nat ->
  fold_left
    (fun acc index =>
       match acc with
       | Written e' => clearPad (Z.of_nat index) e'
       | Sparse => Sparse
       end)
    (seq (List.length done) (List.length rest)) (Written (mkEngine c m (done ++ rest)))
  = Written (mkEngine c m
               (done ++ map (fun i => createEmptyPad (Z.of_nat i))
                            (seq (List.length done) (List.length rest)))).
Proof.
  induction rest as [|x rest IH]; intros done Hlen; cbn [List.length seq fold_left map].
  - reflexivity.
  - cbn [List.length] in Hlen.
    rewrite clearPad_in_range; cbn [pads ctx masterGain];
      [| lia | rewrite length_app; cbn [List.length]; lia].
    rewrite Nat2Z.id.
    replace (<[List.length done := createEmptyPad (Z.of_nat (List.length done))]>
               (done ++ x :: rest))
      with ((done ++ [createEmptyPad (Z.of_nat (List.length done))]) ++ rest).
    + specialize (IH (done ++ [createEmptyPad (Z.of_nat (List.length done))])).
      rewrite length_app in IH. cbn [List.length] in IH.
      replace (List.length done + 1)%nat with (S (List.length done)) in IH by lia.
      rewrite IH by lia. rewrite <- app_assoc. reflexivity.
    + rewrite <- app_assoc. cbn [app]. symmetry.
      rewrite insert_app_r_alt by lia. rewrite Nat.sub_diag. reflexivity.
Qed.

Lemma clearAll_run (e : AudioEngine) :
  has_pad_store e ->
  clearAll e = Written (mkEngine (ctx e) (masterGain e) (pads initialized)).
Proof.
  intros Hstore. unfold clearAll. destruct e as [c m ps]. cbn [pads ctx masterGain] in *.
  unfold has_pad_store in Hstore. cbn [pads] in Hstore.
  pose proof (clear_loop c m ps []) as H. cbn [List.length app] in H.
  rewrite H by (unfold AUDIO_CONFIG.MAX_PADS in Hstore; lia).
  rewrite Hstore. reflexivity.
Qed.

(** X4: [clearAll] on an engine whose pad store exists puts every slot back
    to its empty pad: the pad array is again the one [initialize] creates,
    and the audio context is kept. *)
Theorem clearAll_empties (e : AudioEngine) :
  has_pad_store e ->
  clearAll e = Written (mkEngine (ctx e) (masterGain e) (pads initialized)) /\
  forall padIndex, 0 <= padIndex < 16 ->
    pads initialized !! Z.to_nat padIndex = Some (createEmptyPad padIndex).
Proof.
  intros Hstore. split.
  - apply clearAll_run, Hstore.
  - intros i Hi.
    assert (i = 0 \/ i = 1 \/ i = 2 \/ i = 3 \/ i = 4 \/ i = 5 \/ i = 6 \/ i = 7 \/
            i = 8 \/ i = 9 \/ i = 10 \/ i = 11 \/ i = 12 \/ i = 13 \/ i = 14 \/ i = 15)
      as Hcases by lia.
    repeat (destruct Hcases as [-> | Hcases]; [reflexivity|]). subst i. reflexivity.
Qed.

Lemma clearAll_empties_witness :
  clearAll (engine_with 5 two_second_buffer "kick") = Written initialized.
Proof.
  exact (proj1 (clearAll_empties (engine_with 5 two_second_buffer "kick") eq_refl)).
Defined.

(** ** Before [initialize] *)

(** X5: while the pad array is still empty (before [initialize]),
    [loadBuffer], [setTrimPoints], [setGain] and [resetPad] with an index in
    [0, 16) do not report "not initialized": each throws a [TypeError] on
    the missing slot and leaves the engine as it was; [getPad] yields
    [undefined]. *)
Theorem mutators_before_initialize (e : AudioEngine) (padIndex : Z)
    (b : AudioBuffer.t) (nm : string) (s t g : Q) :
  pads e = [] -> 0 <= padIndex < 16 ->
  loadBuffer padIndex b nm e = (inl TypeError, e, []) /\
  setTrimPoints padIndex s t e = (inl TypeError, e, []) /\
  setGain padIndex g e = (inl TypeError, e, []) /\
  resetPad padIndex e = (inl TypeError, e, []) /\
  getPad e padIndex = JsUndefined.
Proof.
  intros Hempty Hi. apply isValidPadIndex_true in Hi.
  repeat split.
  - unfold loadBuffer. rewrite Hi. cbn [negb]. unfold bind, pad_at. rewrite Hempty.
    reflexivity.
  - unfold setTrimPoints. rewrite Hi. cbn [negb]. unfold bind, pad_at. rewrite Hempty.
    reflexivity.
  - unfold setGain. rewrite Hi. cbn [negb]. unfold bind, pad_at. rewrite Hempty.
    reflexivity.
  - unfold resetPad. rewrite Hi. cbn [negb]. unfold bind, pad_at. rewrite Hempty.
    reflexivity.
  - unfold getPad. rewrite Hi, Hempty. reflexivity.
Qed.

Lemma mutators_before_initialize_witness :
  loadBuffer 3 two_second_buffer "kick" fresh = (inl TypeError, fresh, []) /\
  setTrimPoints 3 0 1 fresh = (inl TypeError, fresh, []).
Proof.
  destruct (mutators_before_initialize fresh 3 two_second_buffer "kick" 0 1 1 eq_refl
              ltac:(lia)) as (H1 & H2 & _).
  split; assumption.
Defined.

(** ** Silent no-ops of [setTrimPoints] *)

(** X6: [setTrimPoints] returns without any change, warning or error when
    the index is outside [0, 16) or the pad in the slot is not loaded. *)
Theorem setTrimPoints_noop (e : AudioEngine) (padIndex : Z) (startTime endTime : Q) :
  (~ (0 <= padIndex < 16) ->
   setTrimPoints padIndex startTime endTime e = (inr tt, e, [])) /\
  (forall pad,
     0 <= padIndex < 16 ->
     pads e !! Z.to_nat padIndex = Some pad ->
     loaded pad = false \/ buffer pad = None ->
     setTrimPoints padIndex startTime endTime e = (inr tt, e, [])).
Proof.
  split.
  - intros Hi. apply isValidPadIndex_false in Hi. unfold setTrimPoints. rewrite Hi.
    reflexivity.
  - intros pad Hi Hp Hu. apply isValidPadIndex_true in Hi.
    unfold setTrimPoints. rewrite Hi. cbn [negb]. unfold bind, pad_at. rewrite Hp.
    destruct Hu as [-> | ->]; [reflexivity|]. destruct (loaded pad); reflexivity.
Qed.

Lemma setTrimPoints_noop_witness :
  setTrimPoints 16 0 1 initialized = (inr tt, initialized, []) /\
  setTrimPoints 4 0 (1 # 2) initialized = (inr tt, initialized, []).
Proof.
  split.
  - apply (proj1 (setTrimPoints_noop initialized 16 0 1)). lia.
  - apply (proj2 (setTrimPoints_noop initialized 4 0 (1 # 2)) (createEmptyPad 4));
      [lia | reflexivity | left; reflexivity].
Defined.

(** ** Load and look up *)

(** X7: on an initialized engine, [loadBuffer] with an index in [0, 16)
    returns the pad that [getPad] returns afterwards for that index: loaded,
    holding the given buffer and name, with trim points [0, duration] and
    gain 1 (so the trim invariant holds for a buffer of non-negative
    duration); [getPad] of every other index is as before and the engine
    stays initialized. *)
Theorem loadBuffer_getPad (e : AudioEngine) (padIndex : Z) (b : AudioBuffer.t)
    (nm : string) :
  ready e -> 0 <= padIndex < 16 ->
  exists pad e',
    loadBuffer padIndex b nm e = (inr pad, e', []) /\
    getPad e' padIndex = JsPad pad /\
    (forall j, j <> padIndex -> getPad e' j = getPad e j) /\
    ready e' /\
    buffer pad = Some b /\ loaded pad = true /\ name pad = nm /\
    trimStart pad = 0%Q /\ trimEnd pad = AudioBuffer.duration b /\ gain pad = 1%Q /\
    ((0 <= AudioBuffer.duration b)%Q -> trim_invariant pad).
Proof.
  intros Hr Hi.
  destruct (loadBuffer_ok e padIndex b nm Hr Hi)
    as (pad & e' & Hrun & Hr' & Hslot & Hother & Hb & Hl & Hn & Hs & He & Hg).
  exists pad, e'. split; [exact Hrun|]. split.
  { unfold getPad. rewrite (proj2 (isValidPadIndex_true padIndex) Hi). cbn.
    rewrite Hslot. reflexivity. }
  split.
  { intros j Hj. unfold getPad. destruct (isValidPadIndex j) eqn:V; [|reflexivity].
    cbn. apply isValidPadIndex_true in V. rewrite Hother by lia. reflexivity. }
  repeat (split; [assumption|]).
  intros Hd. unfold trim_invariant. rewrite Hb, Hs, He.
  split; [apply Qle_refl|]. split; [exact Hd | apply Qle_refl].
Qed.

Lemma loadBuffer_getPad_witness :
  exists pad e',
    loadBuffer 7 two_second_buffer "hat" initialized = (inr pad, e', []) /\
    getPad e' 7 = JsPad pad /\ trim_invariant pad.
Proof.
  destruct (loadBuffer_getPad initialized 7 two_second_buffer "hat")
    as (pad & e' & Hrun & Hget & _ & _ & _ & _ & _ & _ & _ & _ & Hinv).
  - repeat split.
  - lia.
  - exists pad, e'. split; [exact Hrun|]. split; [exact Hget|]. apply Hinv. discriminate.
Defined.

(** ** What every reachable state satisfies *)

Lemma pad_ok_empty (slot : nat) : pad_ok slot (createEmptyPad (Z.of_nat slot)).
Proof.
  unfold pad_ok. cbn.
  split; [reflexivity|]. split; [split; discriminate|]. split; [apply Qle_refl|].
  split; [|discriminate].
  split; [discriminate|]. intros H. exfalso. apply H. reflexivity.
Qed.

Lemma engine_ok_initialized : engine_ok initialized.
Proof.
  split; [repeat split|]. intros slot p Hp.
  assert (slot < 16)%nat as Hlt by (apply lookup_lt_Some in Hp; exact Hp).
  assert (p = createEmptyPad (Z.of_nat slot)) as ->.
  { do 16 (destruct slot as [|slot];
             [vm_compute in Hp; injection Hp as <-; reflexivity|]).
    lia. }
  apply pad_ok_empty.
Qed.

Lemma engine_ok_store (e : AudioEngine) (n : nat) (p' : Pad) :
  engine_ok e -> pad_ok n p' ->
  engine_ok (mkEngine (ctx e) (masterGain e) (<[n := p']> (pads e))).
Proof.
  intros [(Hc & Hm & Hs) Hpads] Hp'. split.
  - unfold ready, has_pad_store in *. cbn. rewrite length_insert. tauto.
  - cbn [pads]. intros slot p Hslot.
    destruct (decide (n = slot)) as [-> | Hne].
    + assert (slot < List.length (pads e))%nat as Hlt
        by (apply lookup_lt_Some in Hslot; rewrite length_insert in Hslot; exact Hslot).
      rewrite list_lookup_insert_eq in Hslot by exact Hlt. congruence.
    + rewrite list_lookup_insert_ne in Hslot by exact Hne. apply Hpads, Hslot.
Qed.

Lemma play_keeps_engine (e : AudioEngine) (padIndex : Z) :
  snd (fst (play padIndex e)) = e.
Proof.
  unfold play, bind, this. cbn.
  destruct (negb (ctx e) || negb (masterGain e)) eqn:E; [reflexivity|].
  destruct (negb (isValidPadIndex padIndex)); [reflexivity|].
  unfold pad_at. destruct (pads e !! Z.to_nat padIndex) as [pad|]; [|reflexivity].
  destruct (loaded pad), (buffer pad); try reflexivity.
  unfold playBuffer, bind, this. cbn. rewrite E. reflexivity.
Qed.

Lemma after_keeps_ok (c : Command) (e : AudioEngine) :
  engine_ok e -> exists e', after c e = Some e' /\ engine_ok e'.
Proof.
  intros Hok. pose proof Hok as [(Hc & Hm & Hs) Hpads].
  destruct c as [i b n | i s t | i g | i | i | | i]; cbn [after].
  - (* loadBuffer *)
    eexists. split; [reflexivity|]. unfold loadBuffer.
    destruct (isValidPadIndex i) eqn:V; [|exact Hok]. cbn [negb].
    unfold bind, pad_at. destruct (pads e !! Z.to_nat i) as [pad|] eqn:Hp; [|exact Hok].
    cbn. apply engine_ok_store; [exact Hok|].
    destruct (Hpads _ _ Hp) as (Hidx & _). unfold pad_ok. cbn.
    repeat split; try discriminate; try apply Qle_refl; try assumption.
    intros b' [= <-]. apply Qle_refl.
  - (* setTrimPoints *)
    eexists. split; [reflexivity|]. unfold setTrimPoints.
    destruct (isValidPadIndex i) eqn:V; [|exact Hok]. cbn [negb].
    unfold bind, pad_at. destruct (pads e !! Z.to_nat i) as [pad|] eqn:Hp; [|exact Hok].
    destruct (Hpads _ _ Hp) as (Hidx & Hg & _ & Hl & _).
    destruct (loaded pad) eqn:El, (buffer pad) as [b|] eqn:Eb; try exact Hok.
    cbn. apply engine_ok_store; [exact Hok|]. unfold pad_ok. cbn.
    split; [exact Hidx|]. split; [exact Hg|]. split; [apply Q.le_max_l|].
    split; [split; [discriminate | reflexivity]|].
    intros b' [= <-]. apply Q.le_min_l.
  - (* setGain *)
    eexists. split; [reflexivity|]. unfold setGain.
    destruct (isValidPadIndex i) eqn:V; [|exact Hok]. cbn [negb].
    unfold bind, pad_at. destruct (pads e !! Z.to_nat i) as [pad|] eqn:Hp; [|exact Hok].
    destruct (Hpads _ _ Hp) as (Hidx & _ & Hs0 & Hl & He).
    cbn. apply engine_ok_store; [exact Hok|]. unfold pad_ok. cbn.
    split; [exact Hidx|]. split; [|tauto].
    split; [apply Q.le_max_l | apply Q.max_lub; [discriminate | apply Q.le_min_l]].
  - (* resetPad *)
    eexists. split; [reflexivity|]. unfold resetPad.
    destruct (isValidPadIndex i) eqn:V; [|exact Hok]. cbn [negb].
    unfold bind, pad_at. destruct (pads e !! Z.to_nat i) as [pad|] eqn:Hp; [|exact Hok].
    destruct (Hpads _ _ Hp) as (Hidx & _).
    destruct (loaded pad) eqn:El, (buffer pad) as [b|] eqn:Eb; try exact Hok.
    cbn. apply engine_ok_store; [exact Hok|]. unfold pad_ok. cbn.
    split; [exact Hidx|]. split; [split; discriminate|]. split; [apply Qle_refl|].
    split; [split; [discriminate | reflexivity]|].
    intros b' [= <-]. apply Qle_refl.
  - (* clearPad *)
    destruct (isValidPadIndex i) eqn:V.
    + apply isValidPadIndex_true in V.
      rewrite clearPad_in_range
        by (try exact V; unfold has_pad_store, AUDIO_CONFIG.MAX_PADS in Hs; lia).
      eexists. split; [reflexivity|]. apply engine_ok_store; [exact Hok|].
      replace i with (Z.of_nat (Z.to_nat i)) at 2 by lia. apply pad_ok_empty.
    + unfold clearPad. rewrite V. eexists. split; [reflexivity | exact Hok].
  - (* clearAll *)
    rewrite (clearAll_run e Hs). eexists. split; [reflexivity|].
    rewrite Hc, Hm. exact engine_ok_initialized.
  - (* play *)
    eexists. split; [reflexivity|]. rewrite play_keeps_engine. exact Hok.
Qed.

(** X8: from an initialized engine, any sequence of calls of [loadBuffer],
    [setTrimPoints], [setGain], [resetPad], [clearPad], [clearAll] and [play],
    with any arguments, leads to an engine that is still initialized with 16
    slots, in which the pad of slot [i] has [index = i], a gain in [0, 2],
    [trimStart >= 0], is loaded exactly when it has a buffer, and has
    [trimEnd <= duration] when it has one.  (The remaining part of the trim
    invariant, [trimStart <= trimEnd], is not kept.) *)
Theorem reachable_engine_ok (cs : list Command) (e : AudioEngine) :
  engine_ok e ->
  exists e', after_all cs e = Some e' /\ engine_ok e'.
Proof.
  revert e. induction cs as [|c cs IH]; intros e Hok; cbn [after_all].
  - eauto.
  - destruct (after_keeps_ok c e Hok) as (e1 & -> & Hok1). apply IH, Hok1.
Qed.

Lemma reachable_engine_ok_witness :
  exists e',
    after_all [CmdLoadBuffer 0 two_second_buffer "snare"; CmdSetTrimPoints 0 5 1;
               CmdSetGain 0 7; CmdPlay 0; CmdClearPad 3; CmdResetPad 0; CmdClearAll]
              initialized = Some e' /\
    engine_ok e'.
Proof.
  apply (reachable_engine_ok
           [CmdLoadBuffer 0 two_second_buffer "snare"; CmdSetTrimPoints 0 5 1;
            CmdSetGain 0 7; CmdPlay 0; CmdClearPad 3; CmdResetPad 0; CmdClearAll]
           initialized).
  exact engine_ok_initialized.
Defined.

(** * Further properties of the segmentation *)

Lemma scan_silence_idle (sampleRate : Z) (thr minSilence minSound : Q)
    (data : list sample) : forall (i : Z) (st : ScanState),
  Forall (fun x => louder x thr = false) data ->
  isInSound st = false ->
  scanFrom sampleRate thr minSilence minSound i data st = st.
Proof.
  induction data as [|x data IH]; intros i st Hall Hidle; cbn [scanFrom].
  - reflexivity.
  - apply Forall_cons in Hall as [Hx Hall].
    assert (scanStep sampleRate thr minSilence minSound st i x = st) as ->.
    { unfold scanStep. rewrite Hx, Hidle. reflexivity. }
    apply IH; assumption.
Qed.

(** X9: when no sample of the first channel is louder than the threshold
    (an all-silent or empty recording), [detectSoundSegments] returns no
    segment, whatever the durations. *)
Theorem detectSoundSegments_silence (buffer : AudioBuffer.t)
    (silenceThreshold minSilenceDuration minSoundDuration : Q) :
  Forall (fun x => louder x silenceThreshold = false)
         (AudioBuffer.getChannelData buffer 0) ->
  detectSoundSegments buffer silenceThreshold minSilenceDuration minSoundDuration = [].
Proof.
  intros Hall. unfold detectSoundSegments.
  rewrite scan_silence_idle by (exact Hall || reflexivity). reflexivity.
Qed.

Lemma detectSoundSegments_silence_witness :
  detectSoundSegments (AudioBuffer.mk 10 4 [[Num (1 # 100); Num (-2 # 100); NaN; Num 0]])
    (2 # 100) (1 # 10) (5 # 100) = [].
Proof.
  apply detectSoundSegments_silence.
  repeat (constructor; [reflexivity|]). constructor.
Defined.

(** ** Segments lie on frames of the recording *)

Lemma aligned_mono (sr i j : Z) (s : SoundSegment) :
  i <= j -> aligned sr i s -> aligned sr j s.
Proof.
  intros Hij (a & b & Ha & Hab & Hb & Hs & He).
  exists a, b. repeat split; try assumption. lia.
Qed.

Lemma scan_aligned_step (sr : Z) (thr minSilence minSound : Q)
    (st : ScanState) (i : Z) (x : sample) :
  scan_aligned sr i st ->
  scan_aligned sr (i + 1) (scanStep sr thr minSilence minSound st i x).
Proof.
  intros (Hi & Hin & Hsegs).
  assert (Forall (aligned sr (i + 1)) (segments st)) as Hsegs'
    by (eapply Forall_impl; [exact Hsegs | intros s; apply aligned_mono; lia]).
  unfold scanStep. destruct (louder x thr).
  - split; [lia|]. split; [|exact Hsegs'].
    intros _. cbn. destruct (isInSound st); [specialize (Hin eq_refl)|]; lia.
  - destruct (isInSound st) eqn:Ein; cbn [andb].
    + specialize (Hin eq_refl).
      destruct (Qle_bool minSilence (inject_Z (i - silenceStart st))).
      * split; [lia|]. split; [discriminate|]. cbn [segments].
        destruct (Qle_bool minSound (inject_Z (silenceStart st - soundStart st)));
          [|exact Hsegs'].
        apply Forall_app. split; [exact Hsegs'|]. constructor; [|constructor].
        exists (soundStart st), (silenceStart st). cbn. repeat split; lia.
      * split; [lia|]. split; [intros _; lia | exact Hsegs'].
    + split; [lia|]. split; [rewrite Ein; discriminate | exact Hsegs'].
Qed.

Lemma scan_aligned_from (sr : Z) (thr minSilence minSound : Q)
    (data : list sample) : forall (i : Z) (st : ScanState),
  scan_aligned sr i st ->
  scan_aligned sr (i + Z.of_nat (List.length data))
    (scanFrom sr thr minSilence minSound i data st).
Proof.
  induction data as [|x data IH]; intros i st Hinv; cbn [scanFrom List.length].
  - rewrite Z.add_0_r. exact Hinv.
  - replace (i + Z.of_nat (S (List.length data)))
      with (i + 1 + Z.of_nat (List.length data)) by lia.
    apply IH, scan_aligned_step, Hinv.
Qed.

Lemma detect_aligned (buffer : AudioBuffer.t) (thr minSilence minSound : Q) :
  Forall (aligned (AudioBuffer.sampleRate buffer)
            (Z.of_nat (List.length (AudioBuffer.getChannelData buffer 0))))
         (detectSoundSegments buffer thr minSilence minSound).
Proof.
  unfold detectSoundSegments.
  set (data := AudioBuffer.getChannelData buffer 0).
  set (sr := AudioBuffer.sampleRate buffer).
  pose proof (scan_aligned_from sr thr (minSilence * inject_Z sr) (minSound * inject_Z sr)
                data 0 scanInit) as H.
  destruct H as (_ & Hin & Hsegs).
  { split; [lia|]. split; [discriminate | constructor]. }
  rewrite Z.add_0_l in *. unfold scanFinish.
  destruct (isInSound _) eqn:Ein; [|exact Hsegs].
  destruct (Qle_bool _ _); [|exact Hsegs].
  apply Forall_app. split; [exact Hsegs|]. constructor; [|constructor].
  specialize (Hin eq_refl).
  eexists _, _. split; [|split; [|split; [|split; reflexivity]]]; lia.
Qed.

Lemma frame_time_nonneg (sr a : Z) : 0 < sr -> 0 <= a -> (0 <= frame_time sr a)%Q.
Proof.
  intros Hsr Ha. unfold frame_time. apply Qle_shift_div_l; [apply inject_Z_pos, Hsr|].
  rewrite Qmult_0_l. change 0%Q with (inject_Z 0). rewrite <- Zle_Qle. exact Ha.
Qed.

(** X11: every segment [detectSoundSegments] returns starts and ends on a
    frame of the recording: there are frames [0 <= a <= b <= data.length]
    with [start = a / sampleRate] and [end = b / sampleRate]; so, for a
    positive sample rate, [0 <= start <= end <= data.length / sampleRate]. *)
Theorem detectSoundSegments_within (buffer : AudioBuffer.t)
    (silenceThreshold minSilenceDuration minSoundDuration : Q) :
  0 < AudioBuffer.sampleRate buffer ->
  let sr := AudioBuffer.sampleRate buffer in
  let len := Z.of_nat (List.length (AudioBuffer.getChannelData buffer 0)) in
  Forall (fun s =>
            (exists a b : Z,
               0 <= a /\ a <= b /\ b <= len /\
               seg_start s = frame_time sr a /\ seg_end s = frame_time sr b) /\
            (0 <= seg_start s /\ seg_start s <= seg_end s /\
             seg_end s <= frame_time sr len)%Q)
         (detectSoundSegments buffer silenceThreshold minSilenceDuration minSoundDuration).
Proof.
  intros Hsr sr len.
  eapply Forall_impl; [apply detect_aligned|].
  intros s (a & b & Ha & Hab & Hb & Hs & He). split.
  - exists a, b. repeat split; assumption.
  - rewrite Hs, He. fold (frame_time sr a). fold (frame_time sr b).
    split; [apply frame_time_nonneg; assumption|].
    split; apply frame_time_le; assumption.
Qed.

Lemma detectSoundSegments_within_witness :
  Forall (fun s => (0 <= seg_start s /\ seg_start s <= seg_end s /\
                    seg_end s <= frame_time 10 35)%Q)
         (detectSoundSegments synthetic_buffer (2 # 100) (1 # 10) (5 # 100)).
Proof.
  eapply Forall_impl;
    [apply (detectSoundSegments_within synthetic_buffer (2 # 100) (1 # 10) (5 # 100));
     reflexivity|].
  intros s [_ H]. exact H.
Defined.

(** ** Copying a range of frames *)

Lemma copyChannel_slice (sourceData : list sample) (startSample length : Z) :
  0 <= startSample -> 0 <= length ->
  startSample + length <= Z.of_nat (List.length sourceData) ->
  copyChannel sourceData startSample length = slice startSample length sourceData.
Proof.
  intros Hs Hl Hin. unfold copyChannel, slice.
  apply list_eq. intros i.
  change (map ?f ?l) with (f <$> l). rewrite list_lookup_fmap.
  destruct (decide (i < Z.to_nat length)%nat) as [Hi | Hi].
  - rewrite lookup_seq_lt by exact Hi. rewrite lookup_take_lt by exact Hi.
    rewrite lookup_drop. cbn.
    unfold AudioBuffer.at_index.
    destruct (Z.ltb_spec (startSample + Z.of_nat i) 0); [lia|].
    replace (Z.to_nat (startSample + Z.of_nat i))
      with (Z.to_nat startSample + i)%nat by lia.
    destruct (nth_lookup_or_length sourceData (Z.to_nat startSample + i) NaN)
      as [-> | Hge]; [reflexivity | lia].
  - rewrite lookup_seq_ge by lia. rewrite lookup_take_ge by lia. reflexivity.
Qed.

(** * Further properties of the WAV encoder *)

Lemma length_le_bytes (n : nat) : forall v : Z, List.length (le_bytes n v) = n.
Proof. induction n as [|n IH]; intros v; cbn; [reflexivity | rewrite IH; reflexivity]. Qed.

Lemma le_value_le_bytes (n : nat) : forall v : Z,
  le_value (le_bytes n v) = v mod 2 ^ (8 * Z.of_nat n).
Proof.
  induction n as [|n IH]; intros v; cbn [le_bytes le_value].
  - cbn. rewrite Z.mod_1_r. reflexivity.
  - rewrite IH. rewrite Z.shiftr_div_pow2 by lia.
    change 255 with (Z.ones 8). rewrite Z.land_ones by lia.
    replace (8 * Z.of_nat (S n)) with (8 + 8 * Z.of_nat n) by lia.
    rewrite Z.pow_add_r by lia. change (2 ^ 8) with 256.
    rewrite (Z.rem_mul_r v 256 (2 ^ (8 * Z.of_nat n))) by lia. reflexivity.
Qed.

Lemma le_bytes_range (n : nat) : forall v : Z,
  Forall (fun b => 0 <= b < 256) (le_bytes n v).
Proof.
  induction n as [|n IH]; intros v; cbn [le_bytes]; constructor; [|apply IH].
  change 255 with (Z.ones 8). rewrite Z.land_ones by lia.
  apply Z.mod_pos_bound. lia.
Qed.

(** Storing bytes right after a prefix replaces what was there. *)
Lemma set_bytes_app (bs : list Z) : forall pre old rest : list Z,
  List.length old = List.length bs ->
  set_bytes (List.length pre) bs (pre ++ old ++ rest) = pre ++ bs ++ rest.
Proof.
  induction bs as [|b bs IH]; intros pre old rest Hlen; cbn [set_bytes].
  - destruct old; [reflexivity | discriminate].
  - destruct old as [|o old]; [discriminate|]. cbn [app].
    rewrite insert_app_r_alt by lia. rewrite Nat.sub_diag. cbn [insert list_insert].
    replace (S (List.length pre)) with (List.length (pre ++ [b]))
      by (rewrite length_app; cbn; lia).
    replace (pre ++ b :: old ++ rest) with ((pre ++ [b]) ++ old ++ rest)
      by (rewrite <- app_assoc; reflexivity).
    rewrite IH by (cbn in Hlen; lia). rewrite <- app_assoc. reflexivity.
Qed.

Lemma set_bytes_at (offset : nat) (bs pre old rest : list Z) :
  offset = List.length pre -> List.length old = List.length bs ->
  set_bytes offset bs (pre ++ old ++ rest) = pre ++ bs ++ rest.
Proof. intros ->. apply set_bytes_app. Qed.

Lemma header_written (numChannels sampleRate dataLength : Z) (rest : list Z) :
  let view := repeat 0 44 ++ rest in
  let view := writeString 0 "RIFF" view in
  let view := setUint32 4 (36 + dataLength) view in
  let view := writeString 8 "WAVE" view in
  let view := writeString 12 "fmt " view in
  let view := setUint32 16 16 view in
  let view := setUint16 20 1 view in
  let view := setUint16 22 numChannels view in
  let view := setUint32 24 sampleRate view in
  let view := setUint32 28 (sampleRate * numChannels * (16 / 8)) view in
  let view := setUint16 32 (numChannels * (16 / 8)) view in
  let view := setUint16 34 16 view in
  let view := writeString 36 "data" view in
  let view := setUint32 40 dataLength view in
  view = wav_header numChannels sampleRate dataLength ++ rest.
Proof.
  cbv zeta. unfold writeString, setUint32, setUint16, wav_header.
  change (16 / 8) with 2.
  cbn [le_bytes charCodes list_ascii_of_string map repeat set_bytes app insert
       list_insert].
  reflexivity.
Qed.

Lemma channel_bytes_loop (channels : list (list sample)) (i : nat)
    (chs : list nat) : forall pre done old rest : list Z,
  Forall (fun ch => True) chs ->
  forall a : nat,
    chs = seq a (List.length chs) ->
    List.length pre = (44 + 2 * (i * List.length channels))%nat ->
    List.length done = (2 * a)%nat ->
    List.length old = (2 * List.length chs)%nat ->
    fold_left
      (fun v ch =>
         setInt16 (44 + 2 * (i * List.length channels + ch))
                  (AudioBuffer.at_index (nth ch channels []) (Z.of_nat i)) v)
      chs (pre ++ done ++ old ++ rest)
    = pre ++ done
      ++ flat_map (fun ch => le_bytes 2 (intSample (AudioBuffer.at_index
                                                      (nth ch channels []) (Z.of_nat i))))
                  chs
      ++ rest.
Proof.
  induction chs as [|ch chs IH]; intros pre done old rest _ a Hseq Hpre Hdone Hold.
  - destruct old; [reflexivity | discriminate].
  - cbn [List.length seq] in Hseq. injection Hseq as -> Hseq.
    destruct old as [|o1 [|o2 old]];
      [exfalso; cbn in Hold; lia | exfalso; cbn in Hold; lia |].
    cbn [fold_left flat_map]. unfold setInt16 at 2.
    replace (pre ++ done ++ (o1 :: o2 :: old) ++ rest)
      with ((pre ++ done) ++ [o1; o2] ++ (old ++ rest))
      by (rewrite <- !app_assoc; reflexivity).
    rewrite set_bytes_at
      by (rewrite ?length_app, ?length_le_bytes; cbn [List.length]; lia).
    replace ((pre ++ done) ++ le_bytes 2 (intSample (AudioBuffer.at_index
                                                       (nth a channels []) (Z.of_nat i)))
               ++ old ++ rest)
      with (pre ++ (done ++ le_bytes 2 (intSample (AudioBuffer.at_index
                                                     (nth a channels []) (Z.of_nat i))))
              ++ old ++ rest)
      by (rewrite <- !app_assoc; reflexivity).
    rewrite (IH _ _ _ _ (Forall_true _ _ (fun _ => I)) (S a) Hseq Hpre);
      [rewrite <- !app_assoc; reflexivity
      | rewrite length_app, length_le_bytes; lia
      | cbn [List.length] in Hold; lia].
Qed.

Lemma writeFrame_bytes (channels : list (list sample)) (i : nat)
    (pre old rest : list Z) :
  List.length pre = (44 + 2 * (i * List.length channels))%nat ->
  List.length old = (2 * List.length channels)%nat ->
  writeFrame channels (pre ++ old ++ rest) i
  = pre ++ flat_map (fun ch => le_bytes 2 (intSample (AudioBuffer.at_index
                                                        (nth ch channels []) (Z.of_nat i))))
                    (seq 0 (List.length channels))
    ++ rest.
Proof.
  intros Hpre Hold. unfold writeFrame.
  pose proof (channel_bytes_loop channels i (seq 0 (List.length channels)) pre [] old rest
                (Forall_true _ _ (fun _ => I)) 0%nat) as H.
  rewrite length_seq in H. cbn [app] in H. apply H; try reflexivity; assumption.
Qed.

Lemma frames_bytes_loop (channels : list (list sample)) (frames : list nat) :
  forall (pre old rest : list Z) (a : nat),
    frames = seq a (List.length frames) ->
    List.length pre = (44 + 2 * (a * List.length channels))%nat ->
    List.length old = (2 * (List.length frames * List.length channels))%nat ->
    fold_left (writeFrame channels) frames (pre ++ old ++ rest)
    = pre
      ++ flat_map
           (fun i =>
              flat_map (fun ch => le_bytes 2 (intSample (AudioBuffer.at_index
                                                           (nth ch channels []) (Z.of_nat i))))
                       (seq 0 (List.length channels)))
           frames
      ++ rest.
Proof.
  induction frames as [|i frames IH]; intros pre old rest a Hseq Hpre Hold.
  - destruct old; [reflexivity | discriminate].
  - cbn [List.length seq] in Hseq. injection Hseq as -> Hseq.
    cbn [fold_left flat_map].
    rewrite <- (take_drop (2 * List.length channels) old), <- app_assoc.
    rewrite writeFrame_bytes;
      [| exact Hpre | rewrite length_take; cbn [List.length] in Hold; lia].
    rewrite app_assoc.
    rewrite (IH _ _ _ (S a) Hseq);
      [rewrite <- !app_assoc; reflexivity | |].
    + rewrite length_app, flat_map_constant_length with (c := 2%nat)
        by (intros; apply length_le_bytes).
      rewrite length_seq. lia.
    + rewrite length_drop. cbn [List.length] in Hold. lia.
Qed.

Lemma flat_map_ext_In {A B} (f g : A -> list B) (l : list A) :
  (forall a, In a l -> f a = g a) -> flat_map f l = flat_map g l.
Proof.
  induction l as [|a l IH]; intros H; cbn; [reflexivity|].
  rewrite (H a) by (left; reflexivity). rewrite IH; [reflexivity|].
  intros b Hb. apply H. right. exact Hb.
Qed.

Lemma audioBufferToWav_concat (buffer : AudioBuffer.t) :
  0 <= AudioBuffer.length buffer ->
  audioBufferToWav buffer
  = wav_header (AudioBuffer.numberOfChannels buffer) (AudioBuffer.sampleRate buffer)
      (AudioBuffer.length buffer * AudioBuffer.numberOfChannels buffer * 2)
    ++ flat_map (frame_bytes buffer) (seq 0 (Z.to_nat (AudioBuffer.length buffer))).
Proof.
  intros Hlen.
  set (numChannels := AudioBuffer.numberOfChannels buffer).
  set (dataLength := AudioBuffer.length buffer * numChannels * 2).
  set (wav := audioBufferToWav buffer).
  subst wav. unfold audioBufferToWav. fold numChannels. cbv zeta.
  change (16 / 8) with 2. fold dataLength.
  replace (repeat 0 (Z.to_nat (44 + dataLength)))
    with (repeat 0 44 ++ repeat 0 (Z.to_nat dataLength) ++ [])
    by (rewrite app_nil_r, <- repeat_app; f_equal;
        unfold dataLength, numChannels, AudioBuffer.numberOfChannels; lia).
  pose proof (header_written numChannels (AudioBuffer.sampleRate buffer) dataLength
                (repeat 0 (Z.to_nat dataLength) ++ [])) as Hhead.
  cbv zeta in Hhead. change (16 / 8) with 2 in Hhead. rewrite Hhead. clear Hhead.
  set (channels := map (AudioBuffer.getChannelData buffer)
                       (map Z.of_nat (seq 0 (Z.to_nat numChannels)))).
  assert (List.length channels = List.length (AudioBuffer.channels buffer)) as Hnc.
  { unfold channels, numChannels, AudioBuffer.numberOfChannels.
    rewrite !length_map, length_seq. lia. }
  rewrite (frames_bytes_loop channels _ _ _ _ 0%nat).
  - rewrite app_nil_r. f_equal. apply flat_map_ext. intros i.
    unfold frame_bytes. rewrite Hnc. apply flat_map_ext_In. intros ch Hch.
    apply in_seq in Hch. do 3 f_equal. unfold channels.
    rewrite (nth_indep _ [] (AudioBuffer.getChannelData buffer (Z.of_nat 0)))
      by (rewrite !length_map, length_seq;
          unfold numChannels, AudioBuffer.numberOfChannels; lia).
    rewrite (map_nth (AudioBuffer.getChannelData buffer)).
    rewrite (map_nth Z.of_nat). rewrite seq_nth
      by (unfold numChannels, AudioBuffer.numberOfChannels; lia).
    reflexivity.
  - rewrite length_seq. reflexivity.
  - reflexivity.
  - rewrite repeat_length, length_seq, Hnc.
    unfold dataLength, numChannels, AudioBuffer.numberOfChannels. nia.
Qed.

(** X14: the encoder's output is exactly the 44-byte header followed by the
    frames in order, each frame being its channels' samples in order, two
    bytes per sample: interleaved 16-bit PCM.  The size fields of the header
    are stored modulo 2^32 (they wrap for larger data), the block-align and
    channel fields modulo 2^16. *)
Theorem audioBufferToWav_bytes (buffer : AudioBuffer.t) :
  0 <= AudioBuffer.length buffer ->
  let numChannels := AudioBuffer.numberOfChannels buffer in
  let dataLength := AudioBuffer.length buffer * numChannels * 2 in
  let wav := audioBufferToWav buffer in
  wav = wav_header numChannels (AudioBuffer.sampleRate buffer) dataLength
        ++ flat_map (frame_bytes buffer) (seq 0 (Z.to_nat (AudioBuffer.length buffer))) /\
  Z.of_nat (List.length wav) = 44 + dataLength /\
  Forall (fun byte => 0 <= byte < 256) wav /\
  header_field 4 4 wav = (36 + dataLength) mod 2 ^ 32 /\
  header_field 40 4 wav = dataLength mod 2 ^ 32 /\
  header_field 22 2 wav = numChannels mod 2 ^ 16 /\
  header_field 24 4 wav = AudioBuffer.sampleRate buffer mod 2 ^ 32 /\
  header_field 28 4 wav = (AudioBuffer.sampleRate buffer * numChannels * 2) mod 2 ^ 32 /\
  header_field 32 2 wav = (numChannels * 2) mod 2 ^ 16.
Proof.
  intros Hlen numChannels dataLength wav.
  pose proof (audioBufferToWav_concat buffer Hlen) as Hwav.
  fold numChannels in Hwav. fold dataLength in Hwav. fold wav in Hwav.
  split; [exact Hwav|].
  assert (List.length (wav_header numChannels (AudioBuffer.sampleRate buffer) dataLength)
          = 44%nat) as Hhl by reflexivity.
  split.
  { rewrite Hwav, length_app, Hhl.
    rewrite flat_map_constant_length with (c := (2 * List.length (AudioBuffer.channels buffer))%nat).
    - rewrite length_seq. unfold dataLength, numChannels, AudioBuffer.numberOfChannels. nia.
    - intros i _. unfold frame_bytes.
      rewrite flat_map_constant_length with (c := 2%nat)
        by (intros; apply length_le_bytes).
      rewrite length_seq. lia. }
  split.
  { rewrite Hwav. apply Forall_app. split.
    - unfold wav_header. rewrite !Forall_app.
      repeat split; try apply le_bytes_range;
        repeat (constructor; [cbn; lia|]); constructor.
    - apply Forall_flat_map, Forall_forall. intros i _. unfold frame_bytes.
      apply Forall_flat_map, Forall_forall. intros ch _. apply le_bytes_range. }
  assert (forall off n, (off + n <= 44)%nat ->
            header_field off n wav
            = le_value (take n (drop off (wav_header numChannels
                                            (AudioBuffer.sampleRate buffer) dataLength))))
    as Hfield.
  { intros off n Hle. unfold header_field. rewrite Hwav, !take_drop_commute.
    rewrite take_app_le by (rewrite Hhl; exact Hle). reflexivity. }
  rewrite !Hfield by lia.
  split; [exact (le_value_le_bytes 4 (36 + dataLength))|].
  split; [exact (le_value_le_bytes 4 dataLength)|].
  split; [exact (le_value_le_bytes 2 numChannels)|].
  split; [exact (le_value_le_bytes 4 (AudioBuffer.sampleRate buffer))|].
  split; [exact (le_value_le_bytes 4 (AudioBuffer.sampleRate buffer * numChannels * 2))|].
  exact (le_value_le_bytes 2 (numChannels * 2)).
Qed.

Lemma audioBufferToWav_bytes_witness :
  audioBufferToWav (AudioBuffer.mk 8000 2 [[Num 1; Num (-1)]; [Num (1 # 2); NaN]])
  = wav_header 2 8000 8 ++ [255; 127; 255; 63; 0; 128; 0; 0].
Proof.
  exact (proj1 (audioBufferToWav_bytes
                  (AudioBuffer.mk 8000 2 [[Num 1; Num (-1)]; [Num (1 # 2); NaN]])
                  ltac:(cbn; lia))).
Defined.

(** ** Samples *)

Lemma Qtrunc_nonneg (q : Q) :
  (0 <= q)%Q -> (inject_Z (Qtrunc q) <= q /\ q < inject_Z (Qtrunc q + 1))%Q /\ 0 <= Qtrunc q.
Proof.
  destruct q as [n d]. unfold Qle, Qlt, Qtrunc. cbn. intros Hn.
  pose proof (Z.quot_rem' n (Z.pos d)) as Hqr.
  pose proof (Z.rem_bound_pos n (Z.pos d) ltac:(lia) ltac:(lia)) as Hr.
  pose proof (Z.quot_pos n (Z.pos d) ltac:(lia) ltac:(lia)) as Hq.
  nia.
Qed.

Lemma Qtrunc_nonpos (q : Q) :
  (q <= 0)%Q -> (inject_Z (Qtrunc q - 1) < q /\ q <= inject_Z (Qtrunc q))%Q /\ Qtrunc q <= 0.
Proof.
  destruct q as [n d]. unfold Qle, Qlt, Qtrunc. cbn. intros Hn.
  pose proof (Z.quot_rem' n (Z.pos d)) as Hqr.
  pose proof (Z.rem_bound_pos (- n) (Z.pos d) ltac:(lia) ltac:(lia)) as Hr.
  rewrite Z.rem_opp_l in Hr by lia.
  assert (Z.quot n (Z.pos d) <= 0) as Hq.
  { rewrite <- (Z.opp_involutive n), Z.quot_opp_l by lia.
    pose proof (Z.quot_pos (- n) (Z.pos d) ltac:(lia) ltac:(lia)). lia. }
  nia.
Qed.

(** The clamp [Math.max(-1, Math.min(1, q))], by cases. *)
Lemma clamp_cases (q : Q) :
  (Qmax (-1) (Qmin 1 q) = q /\ -1 < q /\ q < 1)%Q \/
  (Qmax (-1) (Qmin 1 q) = 1%Q /\ 1 <= q)%Q \/
  (Qmax (-1) (Qmin 1 q) = (-1)%Q /\ q <= -1)%Q.
Proof.
  unfold Qmax, Qmin, GenericMinMax.gmax, GenericMinMax.gmin.
  destruct (1 ?= q)%Q eqn:E1.
  - right. left. split; [reflexivity|]. apply Qeq_alt in E1. rewrite <- E1. apply Qle_refl.
  - right. left. split; [reflexivity|]. apply Qlt_alt in E1. apply Qlt_le_weak, E1.
  - apply Qgt_alt in E1. destruct (-1 ?= q)%Q eqn:E2.
    + right. right. split; [reflexivity|]. apply Qeq_alt in E2. rewrite <- E2. apply Qle_refl.
    + left. apply Qlt_alt in E2. repeat split; assumption.
    + right. right. split; [reflexivity|]. apply Qgt_alt in E2. apply Qlt_le_weak, E2.
Qed.

Lemma intSample_range (s : sample) : -32768 <= intSample s <= 32767.
Proof.
  destruct s as [q|]; cbn [intSample]; [|lia].
  destruct (clamp_cases q) as [(Hs & Hlo & Hhi) | [(Hs & Hge) | (Hs & Hle)]]; rewrite Hs.
  - destruct (Qltb q 0) eqn:Esign.
    + apply Qltb_true in Esign.
      destruct (Qtrunc_nonpos (q * 32768)) as [[Ht1 Ht2] Ht3]; [lra|].
      assert (-32769 < Qtrunc (q * 32768)); [|lia].
      rewrite Zlt_Qlt. eapply Qlt_le_trans; [|exact Ht2].
      change (inject_Z (-32769)) with (-32769)%Q. lra.
    + apply Qltb_false in Esign.
      destruct (Qtrunc_nonneg (q * 32767)) as [[Ht1 Ht2] Ht3]; [lra|].
      assert (Qtrunc (q * 32767) < 32767); [|lia].
      rewrite Zlt_Qlt. eapply Qle_lt_trans; [exact Ht1|].
      change (inject_Z 32767) with 32767%Q. lra.
  - vm_compute. split; discriminate.
  - vm_compute. split; discriminate.
Qed.

(** X15: the 16-bit value stored for a sample.  It always lies in
    [-32768, 32767]; NaN is stored as 0, a sample >= 1 as 32767 and a sample
    <= -1 as -32768; a sample in [0, 1) is stored as [q * 32767] rounded
    towards zero and a sample in (-1, 0) as [q * 32768] rounded towards zero
    (so the positive and negative halves use different scales). *)
Theorem intSample_spec (s : sample) :
  -32768 <= intSample s <= 32767 /\
  (s = NaN -> intSample s = 0) /\
  (forall q, s = Num q ->
     ((1 <= q)%Q -> intSample s = 32767) /\
     ((q <= -1)%Q -> intSample s = -32768) /\
     ((0 <= q /\ q < 1)%Q ->
        0 <= intSample s /\
        (inject_Z (intSample s) <= q * 32767 /\
         q * 32767 < inject_Z (intSample s + 1))%Q) /\
     ((-1 < q /\ q < 0)%Q ->
        intSample s <= 0 /\
        (inject_Z (intSample s - 1) < q * 32768 /\
         q * 32768 <= inject_Z (intSample s))%Q)).
Proof.
  destruct s as [q|]; cbn [intSample].
  2:{ split; [lia|]. split; [reflexivity|]. intros q [=]. }
  assert (forall r : Q, (0 <= r /\ r < 1)%Q ->
            Qmax (-1) (Qmin 1 r) = r -> Qltb r 0 = false) as Hpos.
  { intros r [H0 _] _. apply Qltb_false, H0. }
  destruct (clamp_cases q) as [(Hs & Hlo & Hhi) | [(Hs & Hge) | (Hs & Hle)]]; rewrite Hs.
  - (* inside (-1, 1) *)
    destruct (Qltb q 0) eqn:Esign.
    + apply Qltb_true in Esign.
      destruct (Qtrunc_nonpos (q * 32768)) as [[Ht1 Ht2] Ht3]; [lra|].
      assert (-32769 < Qtrunc (q * 32768)) as Hlow.
      { rewrite Zlt_Qlt. eapply Qlt_le_trans; [|exact Ht2]. change (inject_Z (-32769)) with (-32769)%Q. lra. }
      split; [lia|]. split; [discriminate|]. intros q' [= <-].
      split; [intros H; lra|]. split; [intros H; lra|]. split; [intros [H _]; lra|].
      intros _. split; [exact Ht3 | split; assumption].
    + apply Qltb_false in Esign.
      destruct (Qtrunc_nonneg (q * 32767)) as [[Ht1 Ht2] Ht3]; [lra|].
      assert (Qtrunc (q * 32767) < 32767) as Hup.
      { rewrite Zlt_Qlt. eapply Qle_lt_trans; [exact Ht1|]. change (inject_Z 32767) with 32767%Q. lra. }
      split; [lia|]. split; [discriminate|]. intros q' [= <-].
      split; [intros H; lra|]. split; [intros H; lra|].
      split; [intros _; split; [exact Ht3 | split; assumption]|].
      intros [_ H]. lra.
  - (* saturated at 1 *)
    change (intSample (Num 1)) with 32767.
    assert ((if Qltb 1 0 then 1 * 32768 else 1 * 32767)%Q = (1 * 32767)%Q) as -> by reflexivity.
    change (Qtrunc (1 * 32767)) with 32767.
    split; [lia|]. split; [discriminate|]. intros q' [= <-].
    split; [reflexivity|]. split; [intros H; lra|]. split; [intros [_ H]; lra|].
    intros [_ H]; lra.
  - (* saturated at -1 *)
    assert ((if Qltb (-1) 0 then -1 * 32768 else -1 * 32767)%Q = (-1 * 32768)%Q) as ->
      by reflexivity.
    change (Qtrunc (-1 * 32768)) with (-32768).
    split; [lia|]. split; [discriminate|]. intros q' [= <-].
    split; [intros H; lra|]. split; [reflexivity|]. split; [intros [H _]; lra|].
    intros [H _]; lra.
Qed.

Lemma intSample_spec_witness :
  intSample (Num 3) = 32767 /\ intSample (Num (-2)) = -32768 /\
  0 <= intSample (Num (1 # 3)).
Proof.
  pose proof (proj2 (proj2 (intSample_spec (Num 3))) 3%Q eq_refl) as (H3 & _).
  pose proof (proj2 (proj2 (intSample_spec (Num (-2)))) (-2)%Q eq_refl) as (_ & H2 & _).
  pose proof (proj2 (proj2 (intSample_spec (Num (1 # 3)))) (1 # 3)%Q eq_refl)
    as (_ & _ & H13 & _).
  split; [apply H3; discriminate|]. split; [apply H2; discriminate|].
  apply H13. split; [discriminate | reflexivity].
Defined.

(** ** Where a sample is stored *)

Lemma flat_map_block {A} (f : nat -> list A) (c : nat) (i : nat) :
  forall a n : nat,
    (forall j, List.length (f j) = c) -> (i < n)%nat ->
    take c (drop (c * i) (flat_map f (seq a n))) = f (a + i)%nat.
Proof.
  induction i as [|i IH]; intros a n Hlen Hi.
  - destruct n as [|n]; [lia|]. cbn [seq flat_map]. rewrite Nat.mul_0_r, Nat.add_0_r.
    cbn [drop]. apply take_app_length'. symmetry. apply Hlen.
  - destruct n as [|n]; [lia|]. cbn [seq flat_map].
    replace (c * S i)%nat with (List.length (f a) + c * i)%nat by (rewrite Hlen; lia).
    rewrite drop_app_add'  by reflexivity.
    rewrite IH by (assumption || lia). f_equal. lia.
Qed.

Lemma getInt16_le_bytes (v : Z) :
  -32768 <= v <= 32767 -> getInt16 0 (le_bytes 2 v) = v.
Proof.
  intros Hv. unfold getInt16. set (u := le_value _).
  assert (u = v mod 65536) as -> by exact (le_value_le_bytes 2 v).
  destruct (Z_lt_le_dec v 0) as [Hneg | Hpos].
  - replace (v mod 65536) with (v + 65536)
      by (apply Z.mod_unique with (q := -1); lia).
    destruct (Z.ltb_spec (v + 65536) 32768); lia.
  - rewrite Z.mod_small by lia. destruct (Z.ltb_spec v 32768); lia.
Qed.

(** X16: in the encoded file, the sample of frame [i] and channel [ch] is
    the little-endian signed 16-bit number at byte offset
    [44 + 2 * (i * numberOfChannels + ch)], and it reads back as the sample's
    16-bit value without wrap-around. *)
Theorem audioBufferToWav_sample (buffer : AudioBuffer.t) (i ch : Z) :
  0 <= i < AudioBuffer.length buffer ->
  0 <= ch < AudioBuffer.numberOfChannels buffer ->
  getInt16 (Z.to_nat (44 + 2 * (i * AudioBuffer.numberOfChannels buffer + ch)))
           (audioBufferToWav buffer)
  = intSample (AudioBuffer.at_index (AudioBuffer.getChannelData buffer ch) i).
Proof.
  intros Hi Hch.
  rewrite (audioBufferToWav_concat buffer) by lia.
  set (nc := List.length (AudioBuffer.channels buffer)).
  assert (AudioBuffer.numberOfChannels buffer = Z.of_nat nc) as Hnc by reflexivity.
  rewrite Hnc in *.
  set (s := intSample (AudioBuffer.at_index (AudioBuffer.getChannelData buffer ch) i)).
  assert (take 2 (drop (Z.to_nat (44 + 2 * (i * Z.of_nat nc + ch)))
                    (wav_header (Z.of_nat nc) (AudioBuffer.sampleRate buffer)
                       (AudioBuffer.length buffer * Z.of_nat nc * 2)
                     ++ flat_map (frame_bytes buffer)
                          (seq 0 (Z.to_nat (AudioBuffer.length buffer)))))
          = le_bytes 2 s) as Hbytes.
  { replace (Z.to_nat (44 + 2 * (i * Z.of_nat nc + ch)))
      with (List.length (wav_header (Z.of_nat nc) (AudioBuffer.sampleRate buffer)
                           (AudioBuffer.length buffer * Z.of_nat nc * 2))
            + ((2 * nc) * Z.to_nat i + 2 * Z.to_nat ch))%nat
      by (change (List.length (wav_header _ _ _)) with 44%nat; nia).
    rewrite drop_app_add' by reflexivity.
    rewrite <- drop_drop.
    assert (take 2 (drop (2 * Z.to_nat ch)
                      (drop (2 * nc * Z.to_nat i)
                         (flat_map (frame_bytes buffer)
                            (seq 0 (Z.to_nat (AudioBuffer.length buffer))))))
            = take 2 (drop (2 * Z.to_nat ch)
                        (take (2 * nc)
                           (drop (2 * nc * Z.to_nat i)
                              (flat_map (frame_bytes buffer)
                                 (seq 0 (Z.to_nat (AudioBuffer.length buffer)))))))) as ->.
    { generalize (drop (2 * nc * Z.to_nat i)
                    (flat_map (frame_bytes buffer)
                       (seq 0 (Z.to_nat (AudioBuffer.length buffer))))).
      intros Y. rewrite !take_drop_commute, take_take. f_equal. f_equal. lia. }
    rewrite (flat_map_block (frame_bytes buffer) (2 * nc) (Z.to_nat i) 0
               (Z.to_nat (AudioBuffer.length buffer))); [| |lia].
    - unfold frame_bytes. fold nc.
      rewrite (flat_map_block _ 2 (Z.to_nat ch) 0 nc); [| |lia].
      + cbn [Nat.add]. rewrite !Z2Nat.id by lia. reflexivity.
      + intros j. apply length_le_bytes.
    - intros j. unfold frame_bytes.
      rewrite flat_map_constant_length with (c := 2%nat)
        by (intros; apply length_le_bytes).
      rewrite length_seq. fold nc. lia. }
  unfold getInt16. rewrite Hbytes.
  exact (getInt16_le_bytes s (intSample_range _)).
Qed.

Lemma audioBufferToWav_sample_witness :
  getInt16 50 (audioBufferToWav
                 (AudioBuffer.mk 8000 2 [[Num 1; Num (-1)]; [Num (1 # 2); NaN]]))
  = 0.
Proof.
  exact (audioBufferToWav_sample
           (AudioBuffer.mk 8000 2 [[Num 1; Num (-1)]; [Num (1 # 2); NaN]]) 1 1
           ltac:(split; [discriminate | reflexivity])
           ltac:(split; [discriminate | reflexivity])).
Defined.

(** * Further properties of the trim bars *)

(** X17: hit-testing never selects both bars.  A bar is selected only when
    the pointer is within the radius of 25; the left bar yields to a right
    bar that was selected before, the right bar yields to a left bar that has
    just been selected (so with both in reach and none selected before, the
    left bar wins).  A [startDrag] that follows, from a state in which no bar
    is dragged, drags exactly the selected bar, hence at most one. *)
Theorem hit_test_exclusive (distance : Q -> Q -> Q -> Q -> Q)
    (p : TrimbarsDrawer.MousePos) (d : TrimbarsDrawer.t) :
  let left := TrimbarsDrawer.leftTrimBar in
  let right := TrimbarsDrawer.rightTrimBar in
  let near bar :=
    Qltb (distance (TrimbarsDrawer.pos_x p) (TrimbarsDrawer.pos_y p)
            (TrimbarsDrawer.x bar) 18%Q) 25%Q in
  let h := TrimbarsDrawer.highLightTrimBarsWhenClose distance p d in
  let s := TrimbarsDrawer.startDrag h in
  TrimbarsDrawer.selected (left h) && TrimbarsDrawer.selected (right h) = false /\
  TrimbarsDrawer.selected (left h)
    = near (left d) && negb (TrimbarsDrawer.selected (right d)) /\
  TrimbarsDrawer.selected (right h)
    = near (right d) && negb (TrimbarsDrawer.selected (left h)) /\
  (TrimbarsDrawer.x (left h), TrimbarsDrawer.x (right h))
    = (TrimbarsDrawer.x (left d), TrimbarsDrawer.x (right d)) /\
  (TrimbarsDrawer.dragged (left d) = false ->
   TrimbarsDrawer.dragged (right d) = false ->
   TrimbarsDrawer.dragged (left s) = TrimbarsDrawer.selected (left h) /\
   TrimbarsDrawer.dragged (right s) = TrimbarsDrawer.selected (right h) /\
   TrimbarsDrawer.dragged (left s) && TrimbarsDrawer.dragged (right s) = false).
Proof.
  intros left right near h s.
  pose proof (TrimbarsFacts.highlight_exclusive distance p d) as Hex. fold h in Hex.
  split; [exact Hex|]. split; [reflexivity|]. split; [reflexivity|].
  split; [reflexivity|]. intros Hl Hr.
  assert (TrimbarsDrawer.dragged (left h) = false) as Hl' by exact Hl.
  assert (TrimbarsDrawer.dragged (right h) = false) as Hr' by exact Hr.
  subst s. clearbody h. unfold TrimbarsDrawer.startDrag, left, right in *. cbn.
  destruct (TrimbarsDrawer.selected (TrimbarsDrawer.leftTrimBar h)) eqn:E1,
           (TrimbarsDrawer.selected (TrimbarsDrawer.rightTrimBar h)) eqn:E2;
    cbn; rewrite ?Hl', ?Hr'; try discriminate; repeat split.
Qed.

Lemma hit_test_exclusive_witness :
  let h := TrimbarsDrawer.highLightTrimBarsWhenClose manhattan
             (TrimbarsDrawer.mkPos 105 20) (TrimbarsDrawer.new 1000 100 110) in
  let s := TrimbarsDrawer.startDrag h in
  TrimbarsDrawer.dragged (TrimbarsDrawer.leftTrimBar s) = true /\
  TrimbarsDrawer.dragged (TrimbarsDrawer.rightTrimBar s) = false.
Proof.
  intros h s.
  destruct (hit_test_exclusive manhattan (TrimbarsDrawer.mkPos 105 20)
              (TrimbarsDrawer.new 1000 100 110))
    as (_ & _ & _ & _ & Hdrag).
  destruct (Hdrag eq_refl eq_refl) as (H1 & H2 & _).
  split; [exact (eq_trans H1 eq_refl) | exact (eq_trans H2 eq_refl)].
Defined.

(** X18: the safety net of [stopDrag]: whenever a bar is being dragged,
    releasing leaves [left <= right] and no bar dragged, even if the bars
    were out of order before; the left bar, if dragged, is moved onto the
    right one first. *)
Theorem stopDrag_restores_order (d : TrimbarsDrawer.t) :
  TrimbarsDrawer.dragged (TrimbarsDrawer.leftTrimBar d) = true \/
  TrimbarsDrawer.dragged (TrimbarsDrawer.rightTrimBar d) = true ->
  let d' := TrimbarsDrawer.stopDrag d in
  (TrimbarsDrawer.x (TrimbarsDrawer.leftTrimBar d')
   <= TrimbarsDrawer.x (TrimbarsDrawer.rightTrimBar d'))%Q /\
  TrimbarsDrawer.dragged (TrimbarsDrawer.leftTrimBar d') = false /\
  TrimbarsDrawer.dragged (TrimbarsDrawer.rightTrimBar d') = false /\
  (TrimbarsDrawer.dragged (TrimbarsDrawer.leftTrimBar d) = true ->
   (TrimbarsDrawer.x (TrimbarsDrawer.rightTrimBar d)
    < TrimbarsDrawer.x (TrimbarsDrawer.leftTrimBar d))%Q ->
   TrimbarsDrawer.x (TrimbarsDrawer.leftTrimBar d')
     = TrimbarsDrawer.x (TrimbarsDrawer.rightTrimBar d) /\
   TrimbarsDrawer.x (TrimbarsDrawer.rightTrimBar d')
     = TrimbarsDrawer.x (TrimbarsDrawer.rightTrimBar d)).
Proof.
  intros Hdrag d'. split; [apply TrimbarsFacts.stopDrag_safety_net, Hdrag|].
  subst d'. unfold TrimbarsDrawer.stopDrag.
  split.
  { cbn. destruct (TrimbarsDrawer.dragged (TrimbarsDrawer.leftTrimBar d)) eqn:El;
      [|exact El].
    destruct (Qltb _ _); reflexivity. }
  split.
  { cbn. destruct (TrimbarsDrawer.dragged (TrimbarsDrawer.rightTrimBar d)) eqn:Er;
      [|exact Er].
    destruct (Qltb _ _); reflexivity. }
  intros El Hlt. apply Qltb_true in Hlt. cbn. rewrite El. cbn. rewrite Hlt. cbn.
  split; [reflexivity|].
  destruct (TrimbarsDrawer.dragged (TrimbarsDrawer.rightTrimBar d)); [|reflexivity].
  cbn. rewrite (proj2 (Qltb_false _ _) (Qle_refl _)). reflexivity.
Qed.

Lemma stopDrag_restores_order_witness :
  let d := TrimbarsDrawer.mk 1000
             (TrimbarsDrawer.mkBar 700 "#00ff00" "#ff6b6b" true true)
             (TrimbarsDrawer.mkBar 300 "#00ff00" "#ff6b6b" false false) in
  TrimbarsDrawer.x (TrimbarsDrawer.leftTrimBar (TrimbarsDrawer.stopDrag d)) = 300%Q.
Proof.
  intros d.
  destruct (stopDrag_restores_order d (or_introl eq_refl))
    as (_ & _ & _ & Hsnap).
  apply Hsnap; reflexivity.
Defined.

Lemma clamp_in_canvas (px w : Q) :
  (0 <= w)%Q -> (0 <= Qmax 0 (Qmin px w) /\ Qmax 0 (Qmin px w) <= w)%Q.
Proof.
  intros Hw. split; [apply Q.le_max_l|]. apply Q.max_lub; [exact Hw | apply Q.le_min_r].
Qed.

Lemma move_in_canvas (distance : Q -> Q -> Q -> Q -> Q)
    (p : TrimbarsDrawer.MousePos) (d : TrimbarsDrawer.t) :
  in_canvas d -> in_canvas (TrimbarsDrawer.moveTrimBars distance p d).
Proof.
  intros (H0 & H1 & H2).
  assert (0 <= TrimbarsDrawer.canvas_width d)%Q as Hw
    by (eapply Qle_trans; [exact H0 | eapply Qle_trans; eassumption]).
  destruct (clamp_in_canvas (TrimbarsDrawer.pos_x p) (TrimbarsDrawer.canvas_width d) Hw)
    as [Hc0 Hc1].
  unfold in_canvas, TrimbarsDrawer.moveTrimBars. cbn.
  set (c := Qmax 0 (Qmin (TrimbarsDrawer.pos_x p) (TrimbarsDrawer.canvas_width d))) in *.
  destruct (TrimbarsDrawer.dragged (TrimbarsDrawer.leftTrimBar d)),
           (TrimbarsDrawer.dragged (TrimbarsDrawer.rightTrimBar d)); cbn.
  - destruct (Qltb c (TrimbarsDrawer.x (TrimbarsDrawer.rightTrimBar d))) eqn:E1; cbn.
    + rewrite (proj2 (Qltb_false c c) (Qle_refl c)). cbn. apply Qltb_true in E1.
      repeat split; [exact Hc0 | apply Qlt_le_weak, E1 | exact H2].
    + destruct (Qltb (TrimbarsDrawer.x (TrimbarsDrawer.leftTrimBar d)) c) eqn:E2; cbn.
      * apply Qltb_true in E2. repeat split; [exact H0 | apply Qlt_le_weak, E2 | exact Hc1].
      * repeat split; assumption.
  - destruct (Qltb c (TrimbarsDrawer.x (TrimbarsDrawer.rightTrimBar d))) eqn:E1; cbn.
    + apply Qltb_true in E1. repeat split; [exact Hc0 | apply Qlt_le_weak, E1 | exact H2].
    + repeat split; assumption.
  - destruct (Qltb (TrimbarsDrawer.x (TrimbarsDrawer.leftTrimBar d)) c) eqn:E2; cbn.
    + apply Qltb_true in E2. repeat split; [exact H0 | apply Qlt_le_weak, E2 | exact Hc1].
    + repeat split; assumption.
  - repeat split; assumption.
Qed.

Lemma moves_in_canvas (distance : Q -> Q -> Q -> Q -> Q)
    (path : list TrimbarsDrawer.MousePos) : forall d : TrimbarsDrawer.t,
  in_canvas d ->
  in_canvas (fold_left (fun acc p => TrimbarsDrawer.moveTrimBars distance p acc) path d).
Proof.
  induction path as [|p path IH]; intros d Hd; cbn [fold_left].
  - exact Hd.
  - apply IH, move_in_canvas, Hd.
Qed.

(** X19: bars that lie on the canvas in order ([0 <= left <= right <= width])
    still do so after every pointer move and after the release that ends a
    drag, wherever the pointer goes (also outside the canvas); the canvas
    width itself never changes. *)
Theorem drag_stays_in_canvas (distance : Q -> Q -> Q -> Q -> Q)
    (path : list TrimbarsDrawer.MousePos) (d : TrimbarsDrawer.t) :
  in_canvas d ->
  in_canvas (fold_left (fun acc p => TrimbarsDrawer.moveTrimBars distance p acc) path d) /\
  in_canvas (TrimbarsDrawer.drag distance path d) /\
  TrimbarsDrawer.canvas_width (TrimbarsDrawer.drag distance path d)
    = TrimbarsDrawer.canvas_width d.
Proof.
  intros Hd. pose proof (moves_in_canvas distance path d Hd) as Hmoved.
  split; [exact Hmoved|]. unfold TrimbarsDrawer.drag.
  set (m := fold_left _ path d) in *.
  assert (TrimbarsDrawer.canvas_width m = TrimbarsDrawer.canvas_width d) as Hw.
  { subst m. clear Hd Hmoved. revert d.
    induction path as [|p path IH]; intros d; cbn [fold_left]; [reflexivity|].
    rewrite IH. reflexivity. }
  destruct Hmoved as (H0 & H1 & H2).
  destruct (TrimbarsFacts.stopDrag_frame m H1) as (S1 & S2 & S3 & _).
  split; [|rewrite <- Hw; reflexivity].
  unfold in_canvas. rewrite S2, S3. repeat split; assumption.
Qed.

Lemma drag_stays_in_canvas_witness :
  in_canvas
    (TrimbarsDrawer.drag manhattan
       [TrimbarsDrawer.mkPos (-50) 18; TrimbarsDrawer.mkPos 2000 18]
       (TrimbarsDrawer.startDrag
          (TrimbarsDrawer.highLightTrimBarsWhenClose manhattan
             (TrimbarsDrawer.mkPos 105 20) (TrimbarsDrawer.new 1000 100 800)))).
Proof.
  apply (drag_stays_in_canvas manhattan
           [TrimbarsDrawer.mkPos (-50) 18; TrimbarsDrawer.mkPos 2000 18]).
  repeat split; discriminate.
Defined.

Lemma js_or_nonzero (a b : Q) : ~ (a == 0)%Q -> js_or a b = a.
Proof.
  intros H. unfold js_or. destruct (Qeq_bool a 0) eqn:E; [|reflexivity].
  apply Qeq_bool_iff in E. contradiction.
Qed.

(** X20: [updateTrimBarsFromPad] places the bars on the canvas in order
    whatever trim points the pad stores (also ones that violate the trim
    invariant): for a loaded pad of positive duration and a non-negative
    canvas width, [0 <= left <= right <= width].  Stored points that satisfy
    the invariant are shown at [trim / duration * width], except that a
    stored [trimEnd] of 0 is taken as unset and shown at the full width.
    Nothing moves when no pad is selected or the pad is missing or not
    loaded. *)
Theorem updateTrimBarsFromPad_in_canvas (selectedPadIndex : Z) (p : Pad)
    (b : AudioBuffer.t) (width : Q) (d : TrimbarsDrawer.t) :
  0 <= selectedPadIndex -> loaded p = true -> buffer p = Some b ->
  (0 < AudioBuffer.duration b)%Q -> (0 <= width)%Q ->
  let d' := updateTrimBarsFromPad selectedPadIndex (JsPad p) width d in
  let left := TrimbarsDrawer.x (TrimbarsDrawer.leftTrimBar d') in
  let right := TrimbarsDrawer.x (TrimbarsDrawer.rightTrimBar d') in
  (0 <= left /\ left <= right /\ right <= width)%Q /\
  (trim_invariant p ->
   (left == trimStart p / AudioBuffer.duration b * width)%Q /\
   (~ (trimEnd p == 0)%Q -> (right == trimEnd p / AudioBuffer.duration b * width)%Q) /\
   ((trimEnd p == 0)%Q -> (right == width)%Q)) /\
  (forall other, other = JsNull \/ other = JsUndefined ->
     updateTrimBarsFromPad selectedPadIndex other width d = d) /\
  updateTrimBarsFromPad (-1) (JsPad p) width d = d.
Proof.
  intros Hsel Hl Hb Hdur Hw d' left right.
  assert (d' = TrimbarsDrawer.mk (TrimbarsDrawer.canvas_width d)
            (TrimbarsDrawer.set_x (TrimbarsDrawer.leftTrimBar d)
               (Qmax 0 (Qmin (js_or (trimStart p) 0) (AudioBuffer.duration b))
                  / AudioBuffer.duration b * width))
            (TrimbarsDrawer.set_x (TrimbarsDrawer.rightTrimBar d)
               (Qmax (Qmax 0 (Qmin (js_or (trimStart p) 0) (AudioBuffer.duration b)))
                     (Qmin (js_or (trimEnd p) (AudioBuffer.duration b))
                           (AudioBuffer.duration b))
                  / AudioBuffer.duration b * width))) as Hd'.
  { subst d'. unfold updateTrimBarsFromPad.
    destruct (Z.ltb_spec selectedPadIndex 0); [lia|]. rewrite Hl, Hb. reflexivity. }
  subst left right. rewrite Hd'. cbn [TrimbarsDrawer.leftTrimBar TrimbarsDrawer.rightTrimBar
                                       TrimbarsDrawer.set_x TrimbarsDrawer.x].
  set (dur := AudioBuffer.duration b) in *.
  set (ts := Qmax 0 (Qmin (js_or (trimStart p) 0) dur)).
  set (te := Qmax ts (Qmin (js_or (trimEnd p) dur) dur)).
  assert (0 <= ts /\ ts <= te /\ te <= dur)%Q as (Hts0 & Htste & Htedur).
  { split; [apply Q.le_max_l|]. split; [apply Q.le_max_l|].
    apply Q.max_lub; [|apply Q.le_min_r].
    apply Q.max_lub; [apply Qlt_le_weak, Hdur | apply Q.le_min_r]. }
  assert (forall a c : Q, (a <= c)%Q -> (a / dur * width <= c / dur * width)%Q) as Hmono.
  { intros a c Hac. apply Qmult_le_compat_r; [|exact Hw].
    unfold Qdiv. apply Qmult_le_compat_r; [exact Hac|].
    apply Qlt_le_weak, Qinv_lt_0_compat, Hdur. }
  assert (dur / dur * width == width)%Q as Hfull by (field; lra).
  assert (0 / dur * width == 0)%Q as Hzero by (field; lra).
  split.
  { split; [eapply Qle_trans; [|apply Hmono, Hts0]; rewrite Hzero; apply Qle_refl|].
    split; [apply Hmono, Htste|].
    eapply Qle_trans; [apply Hmono, Htedur|]. rewrite Hfull. apply Qle_refl. }
  split.
  { unfold trim_invariant. rewrite Hb. fold dur. intros (H0 & H1 & H2).
    assert (js_or (trimStart p) 0 == trimStart p)%Q as Hjs.
    { unfold js_or. destruct (Qeq_bool (trimStart p) 0) eqn:E; [|reflexivity].
      apply Qeq_bool_iff in E. symmetry. exact E. }
    assert (ts == trimStart p)%Q as Hts.
    { subst ts. rewrite Hjs. rewrite Q.min_l by (eapply Qle_trans; eassumption).
      apply Q.max_r, H0. }
    split; [rewrite Hts; reflexivity|]. split.
    - intros Hnz.
      assert (te == trimEnd p)%Q as ->; [|reflexivity].
      subst te. rewrite (js_or_nonzero _ _ Hnz), Hts, (Q.min_l _ _ H2).
      apply Q.max_r, H1.
    - intros Hz.
      assert (js_or (trimEnd p) dur = dur) as Hjs'.
      { unfold js_or. apply Qeq_bool_iff in Hz. rewrite Hz. reflexivity. }
      assert (te == dur)%Q as ->; [|exact Hfull].
      subst te. rewrite Hjs'. rewrite Q.min_l by apply Qle_refl.
      apply Q.max_r. eapply Qle_trans; [|exact Htedur]. exact Htste. }
  split.
  - intros other [-> | ->]; unfold updateTrimBarsFromPad;
      destruct (selectedPadIndex <? 0); reflexivity.
  - reflexivity.
Qed.

Lemma updateTrimBarsFromPad_in_canvas_witness :
  let d' := updateTrimBarsFromPad 0
              (JsPad (mkPad 0 (Some two_second_buffer) "snare" true 5 1 1)) 800
              (TrimbarsDrawer.new 800 100 700) in
  (0 <= TrimbarsDrawer.x (TrimbarsDrawer.leftTrimBar d') /\
   TrimbarsDrawer.x (TrimbarsDrawer.leftTrimBar d')
     <= TrimbarsDrawer.x (TrimbarsDrawer.rightTrimBar d') /\
   TrimbarsDrawer.x (TrimbarsDrawer.rightTrimBar d') <= 800)%Q.
Proof.
  exact (proj1 (updateTrimBarsFromPad_in_canvas 0
                  (mkPad 0 (Some two_second_buffer) "snare" true 5 1 1)
                  two_second_buffer 800 (TrimbarsDrawer.new 800 100 700)
                  ltac:(lia) eq_refl eq_refl eq_refl ltac:(discriminate))).
Defined.

(** * Properties of the pad grid *)

(** X21: the grid layout.  For a position in [0, 16) the pad index is again
    in [0, 16), and [getPositionForPadIndex] undoes [getPadIndexForPosition]
    (and the other way round); the rows are flipped and the columns kept, so
    the positions 0..15, read row by row from the top, show the pads
    12 13 14 15 / 8 9 10 11 / 4 5 6 7 / 0 1 2 3. *)
Theorem grid_layout (position : Z) :
  0 <= position < 16 ->
  0 <= getPadIndexForPosition position < 16 /\
  getPositionForPadIndex (getPadIndexForPosition position) = position /\
  getPadIndexForPosition (getPositionForPadIndex position) = position /\
  getPadIndexForPosition position = (3 - position / 4) * 4 + position mod 4 /\
  map getPadIndexForPosition getGridPositions
    = [12; 13; 14; 15; 8; 9; 10; 11; 4; 5; 6; 7; 0; 1; 2; 3].
Proof.
  intros H.
  assert (position = 0 \/ position = 1 \/ position = 2 \/ position = 3 \/
          position = 4 \/ position = 5 \/ position = 6 \/ position = 7 \/
          position = 8 \/ position = 9 \/ position = 10 \/ position = 11 \/
          position = 12 \/ position = 13 \/ position = 14 \/ position = 15)
    as Hcases by lia.
  repeat (destruct Hcases as [-> | Hcases]; [vm_compute; intuition discriminate|]).
  subst position. vm_compute. intuition discriminate.
Qed.

Lemma grid_layout_witness :
  getPadIndexForPosition 12 = 0 /\ getPositionForPadIndex 0 = 12.
Proof.
  destruct (grid_layout 12 ltac:(lia)) as (_ & _ & _ & H & _).
  split; [rewrite H; reflexivity | reflexivity].
Defined.

(** X22: every pad has exactly one key.  For a pad index in [0, 16),
    [getKeyForPad] returns an upper-case key whose lower-case form
    [KEYBOARD_MAP] maps back to that pad; for any other index it returns
    [null]; and two different pads never share a key. *)
Theorem keyboard_round_trip (padIndex : Z) :
  (0 <= padIndex < 16 ->
   exists key,
     getKeyForPad padIndex = Some key /\
     keyboard_lookup (toLowerCase key) KEYBOARD_MAP = Some padIndex /\
     toUpperCase key = key) /\
  (~ (0 <= padIndex < 16) -> getKeyForPad padIndex = None) /\
  (forall other key,
     getKeyForPad padIndex = Some key -> getKeyForPad other = Some key ->
     other = padIndex).
Proof.
  split; [|split].
  - intros H.
    assert (padIndex = 0 \/ padIndex = 1 \/ padIndex = 2 \/ padIndex = 3 \/
            padIndex = 4 \/ padIndex = 5 \/ padIndex = 6 \/ padIndex = 7 \/
            padIndex = 8 \/ padIndex = 9 \/ padIndex = 10 \/ padIndex = 11 \/
            padIndex = 12 \/ padIndex = 13 \/ padIndex = 14 \/ padIndex = 15)
      as Hcases by lia.
    repeat (destruct Hcases as [-> | Hcases];
            [eexists; split; [reflexivity|]; split; reflexivity|]).
    subst padIndex. eexists; split; [reflexivity|]; split; reflexivity.
  - intros H. unfold getKeyForPad, KEYBOARD_MAP. cbn [getKeyForPad_in].
    repeat match goal with
           | |- context [?a =? padIndex] => destruct (Z.eqb_spec a padIndex); [lia|]
           end.
    reflexivity.
  - intros other key H1 H2. unfold getKeyForPad, KEYBOARD_MAP in *.
    cbn [getKeyForPad_in] in *.
    repeat match type of H1 with
           | context [?a =? padIndex] =>
               destruct (Z.eqb_spec a padIndex);
               [injection H1 as <-;
                repeat match type of H2 with
                       | context [?b =? other] =>
                           destruct (Z.eqb_spec b other); [try discriminate; lia|]
                       end; discriminate
               |]
           end.
    discriminate.
Qed.

Lemma keyboard_round_trip_witness :
  getKeyForPad 5 = Some "W"%string /\ getKeyForPad 16 = None.
Proof.
  destruct (keyboard_round_trip 16) as (_ & Hout & _).
  split; [reflexivity | apply Hout; lia].
Defined.

Lemma firstEmptyFrom_spec (allPads : list Pad) : forall i : Z,
  match firstEmptyFrom i allPads with
  | Some r =>
      i <= r /\
      (exists p, allPads !! Z.to_nat (r - i) = Some p /\ loaded p = false) /\
      (forall j p, (j < Z.to_nat (r - i))%nat -> allPads !! j = Some p -> loaded p = true)
  | None => Forall (fun p => loaded p = true) allPads
  end.
Proof.
  induction allPads as [|p rest IH]; intros i; cbn [firstEmptyFrom].
  - constructor.
  - destruct (loaded p) eqn:El; cbn [negb].
    + specialize (IH (i + 1)). destruct (firstEmptyFrom (i + 1) rest) as [r|].
      * destruct IH as (Hle & (q & Hq & Hlq) & Hbefore).
        split; [lia|]. split.
        -- exists q. replace (Z.to_nat (r - i)) with (S (Z.to_nat (r - (i + 1)))) by lia.
           split; assumption.
        -- intros j p' Hj Hp'. destruct j as [|j]; [cbn in Hp'; congruence|].
           apply (Hbefore j); [lia | exact Hp'].
      * constructor; assumption.
    + split; [lia|]. rewrite Z.sub_diag. split; [exists p; split; [reflexivity | exact El]|].
      intros j p' Hj. cbn in Hj. lia.
Qed.

(** X23: [getFirstEmptyPadIndex] returns the index of the first pad that is
    not loaded, every pad before it being loaded.  When every pad is loaded
    it returns 0, which then names a loaded pad (that a caller would
    overwrite). *)
Theorem getFirstEmptyPadIndex_spec (allPads : list Pad) :
  let r := getFirstEmptyPadIndex allPads in
  0 <= r /\
  (Exists (fun p => loaded p = false) allPads ->
   (exists p, allPads !! Z.to_nat r = Some p /\ loaded p = false) /\
   (forall j p, (j < Z.to_nat r)%nat -> allPads !! j = Some p -> loaded p = true)) /\
  (Forall (fun p => loaded p = true) allPads -> r = 0).
Proof.
  intros r. subst r. unfold getFirstEmptyPadIndex.
  pose proof (firstEmptyFrom_spec allPads 0) as H.
  destruct (firstEmptyFrom 0 allPads) as [r|].
  - destruct H as (Hle & Hat & Hbefore). rewrite Z.sub_0_r in *.
    split; [exact Hle|]. split; [intros _; split; assumption|].
    intros Hall. destruct Hat as (p & Hp & Hl).
    rewrite Forall_forall in Hall. apply list_elem_of_lookup_2 in Hp.
    specialize (Hall p Hp). congruence.
  - split; [lia|]. split; [|reflexivity].
    intros Hex. exfalso. apply Exists_exists in Hex as (p & Hin & Hl).
    rewrite Forall_forall in H. specialize (H p Hin). congruence.
Qed.

Lemma getFirstEmptyPadIndex_spec_witness :
  getFirstEmptyPadIndex (pads (engine_with 0 two_second_buffer "snare")) = 1 /\
  getFirstEmptyPadIndex [mkPad 0 (Some two_second_buffer) "snare" true 0 2 1] = 0.
Proof.
  split; [reflexivity|].
  apply (proj2 (proj2 (getFirstEmptyPadIndex_spec
                         [mkPad 0 (Some two_second_buffer) "snare" true 0 2 1]))).
  constructor; [reflexivity | constructor].
Defined.

Lemma collect_slots (l : list Pad) : forall a n : nat,
  flat_map (fun i => match l !! i with Some p => [p] | None => [] end) (seq a n)
  = take n (drop a l).
Proof.
  intros a n. revert a. induction n as [|n IH]; intros a; cbn [seq flat_map].
  - reflexivity.
  - rewrite IH. destruct (l !! a) as [p|] eqn:E.
    + rewrite (drop_S l p a E). reflexivity.
    + apply lookup_ge_None_1 in E.
      rewrite !drop_ge by lia. rewrite !take_nil. reflexivity.
Qed.

(** X24: [updatePadsFromEngine] copies into the component the first 16
    slots of the engine's pad array: all 16 pads of an initialized engine, in
    order, and nothing at all before [initialize]. *)
Theorem updatePadsFromEngine_spec (e : AudioEngine) :
  updatePadsFromEngine e = take 16 (pads e) /\
  (has_pad_store e -> updatePadsFromEngine e = getAllPads e) /\
  (pads e = [] -> updatePadsFromEngine e = []).
Proof.
  assert (updatePadsFromEngine e = take 16 (pads e)) as H.
  { unfold updatePadsFromEngine.
    change (take 16 (pads e)) with (take 16 (drop 0 (pads e))).
    rewrite <- (collect_slots (pads e) 0 16).
    apply flat_map_ext_In. intros i Hi. apply in_seq in Hi.
    unfold getPad. rewrite (proj2 (isValidPadIndex_true (Z.of_nat i))) by lia.
    cbn [negb]. rewrite Nat2Z.id. destruct (pads e !! i); reflexivity. }
  split; [exact H|]. split.
  - intros Hs. rewrite H. unfold getAllPads. apply firstn_all2.
    unfold has_pad_store, AUDIO_CONFIG.MAX_PADS in Hs. lia.
  - intros He. rewrite H, He. reflexivity.
Qed.

Lemma updatePadsFromEngine_spec_witness :
  updatePadsFromEngine (engine_with 0 two_second_buffer "snare")
  = pads (engine_with 0 two_second_buffer "snare").
Proof.
  exact (proj1 (proj2 (updatePadsFromEngine_spec (engine_with 0 two_second_buffer "snare")))
           eq_refl).
Defined.

(** * Properties of URLs and file names *)

Lemma string_app_assoc (a b c : string) : ((a ++ b) ++ c = a ++ (b ++ c))%string.
Proof. induction a as [|x a IH]; cbn; [reflexivity | rewrite IH; reflexivity]. Qed.

Lemma prefix_append (p s : string) : String.prefix p (p ++ s) = true.
Proof.
  induction p as [|c p IH]; cbn.
  - destruct s; reflexivity.
  - destruct (ascii_dec c c); [exact IH | congruence].
Qed.

Lemma prefix_append_l (p a b : string) :
  String.prefix p a = true -> String.prefix p (a ++ b) = true.
Proof.
  revert a. induction p as [|c p IH]; intros a H.
  - cbn. destruct (a ++ b)%string; reflexivity.
  - destruct a as [|c' a]; [discriminate|]. cbn in H |- *.
    destruct (ascii_dec c c'); [apply IH, H | discriminate].
Qed.

Lemma dropDotSlash_id (s : string) : startsWith s "./" = false -> dropDotSlash s = s.
Proof.
  unfold startsWith. intros H. destruct s as [|c1 [|c2 rest]]; [reflexivity| |].
  - destruct c1 as [[] [] [] [] [] [] [] []]; reflexivity.
  - destruct c1 as [[] [] [] [] [] [] [] []]; try reflexivity.
    destruct c2 as [[] [] [] [] [] [] [] []]; try reflexivity.
    destruct rest; vm_compute in H; discriminate.
Qed.

(** X25: [buildSampleUrl] returns an absolute URL ("http://" or "https://")
    unchanged and puts the backend URL in front of everything else; "./x"
    and "x" give the same URL.  When the backend URL is itself absolute the
    result is absolute, so building twice is the same as building once. *)
Theorem buildSampleUrl_spec (BACKEND_URL sampleUrl : string) :
  let absolute s := startsWith s "http://" || startsWith s "https://" in
  (absolute sampleUrl = true -> buildSampleUrl BACKEND_URL sampleUrl = sampleUrl) /\
  (absolute sampleUrl = false ->
   startsWith (buildSampleUrl BACKEND_URL sampleUrl) BACKEND_URL = true) /\
  (absolute sampleUrl = false -> startsWith sampleUrl "/api/" = false ->
   startsWith sampleUrl "/presets/" = false -> startsWith sampleUrl "./" = false ->
   buildSampleUrl BACKEND_URL ("./" ++ sampleUrl) = buildSampleUrl BACKEND_URL sampleUrl /\
   buildSampleUrl BACKEND_URL sampleUrl = (BACKEND_URL ++ "/presets/" ++ sampleUrl)%string) /\
  (absolute BACKEND_URL = true ->
   absolute (buildSampleUrl BACKEND_URL sampleUrl) = true /\
   buildSampleUrl BACKEND_URL (buildSampleUrl BACKEND_URL sampleUrl)
     = buildSampleUrl BACKEND_URL sampleUrl).
Proof.
  intros absolute.
  assert (absolute sampleUrl = true -> buildSampleUrl BACKEND_URL sampleUrl = sampleUrl) as H1.
  { unfold absolute, buildSampleUrl. intros ->. reflexivity. }
  assert (absolute sampleUrl = false ->
          startsWith (buildSampleUrl BACKEND_URL sampleUrl) BACKEND_URL = true) as H2.
  { unfold absolute, buildSampleUrl, baseUrl, startsWith. intros ->.
    destruct (String.prefix "/api/" sampleUrl); [apply prefix_append|].
    destruct (String.prefix "/presets/" sampleUrl); [apply prefix_append|].
    rewrite !string_app_assoc. apply prefix_append. }
  split; [exact H1|]. split; [exact H2|]. split.
  - intros Ha Hapi Hpre Hdot.
    assert (buildSampleUrl BACKEND_URL sampleUrl
            = (BACKEND_URL ++ "/presets/" ++ sampleUrl)%string) as Hplain.
    { unfold buildSampleUrl, baseUrl. unfold absolute in Ha. rewrite Ha, Hapi, Hpre.
      rewrite (dropDotSlash_id sampleUrl Hdot).
      rewrite !string_app_assoc. reflexivity. }
    split; [|exact Hplain]. rewrite Hplain. unfold buildSampleUrl, baseUrl. cbn.
    rewrite !string_app_assoc. reflexivity.
  - intros Hb.
    assert (absolute (buildSampleUrl BACKEND_URL sampleUrl) = true) as Habs.
    { destruct (absolute sampleUrl) eqn:Ha; [rewrite (H1 eq_refl); exact Ha|].
      specialize (H2 eq_refl). unfold absolute, startsWith in *.
      apply orb_true_iff in Hb. apply orb_true_iff.
      assert (exists rest, buildSampleUrl BACKEND_URL sampleUrl
                           = (BACKEND_URL ++ rest)%string) as [rest ->].
      { unfold buildSampleUrl, baseUrl, startsWith. rewrite Ha.
        destruct (String.prefix "/api/" sampleUrl); [eauto|].
        destruct (String.prefix "/presets/" sampleUrl); [eauto|].
        eexists. rewrite !string_app_assoc. reflexivity. }
      destruct Hb as [Hb | Hb]; [left | right]; apply prefix_append_l, Hb. }
    split; [exact Habs|].
    unfold buildSampleUrl at 1. unfold absolute in Habs. rewrite Habs. reflexivity.
Qed.

Lemma buildSampleUrl_spec_witness :
  buildSampleUrl "http://localhost:3000" "./808/kick.wav"
    = buildSampleUrl "http://localhost:3000" "808/kick.wav" /\
  buildSampleUrl "http://localhost:3000" "808/kick.wav"
    = "http://localhost:3000/presets/808/kick.wav"%string.
Proof.
  apply (proj1 (proj2 (proj2 (buildSampleUrl_spec "http://localhost:3000" "808/kick.wav"))));
    reflexivity.
Defined.

(** ** Sanitized file names *)

Lemma ascii_class_facts (c : ascii) :
  (isNameChar c = true -> isSpace c = false) /\
  (isNameChar c = true -> lower_ascii c = c) /\
  (isNameChar c = true -> isLowerOrDigit c || isSpace c || isDash c = true) /\
  (isLowerOrDigit c || isSpace c || isDash c = true -> isSpace c = false ->
   isNameChar c = true) /\
  (isDash c = true -> c = "-"%char).
Proof.
  unfold isNameChar, isSpace, isDash, isLowerOrDigit, lower_ascii.
  pose proof (ascii_nat_embedding c) as Hc.
  set (n := nat_of_ascii c) in *.
  repeat split.
  - destruct (Nat.leb_spec 97 n), (Nat.leb_spec n 122), (Nat.leb_spec 48 n),
      (Nat.leb_spec n 57), (Nat.eqb_spec n 45), (Nat.leb_spec 9 n), (Nat.leb_spec n 13),
      (Nat.eqb_spec n 32), (Nat.eqb_spec n 160); cbn; intros; try reflexivity;
      try discriminate; lia.
  - destruct (Nat.leb_spec 97 n), (Nat.leb_spec n 122), (Nat.leb_spec 48 n),
      (Nat.leb_spec n 57), (Nat.eqb_spec n 45), (Nat.leb_spec 65 n), (Nat.leb_spec n 90);
      cbn; intros; try reflexivity; try discriminate; lia.
  - destruct (Nat.leb_spec 97 n), (Nat.leb_spec n 122), (Nat.leb_spec 48 n),
      (Nat.leb_spec n 57), (Nat.eqb_spec n 45); cbn; intros; try reflexivity;
      try discriminate; rewrite ?orb_true_r; reflexivity.
  - intros H Hs. rewrite Hs in H. rewrite orb_false_r in H. exact H.
  - intros H. apply Nat.eqb_eq in H. rewrite <- Hc, H. reflexivity.
Qed.

Lemma squeeze_space_chars (l : list ascii) : forall b : bool,
  Forall (fun c => isLowerOrDigit c || isSpace c || isDash c = true) l ->
  Forall (fun c => isNameChar c = true) (squeeze isSpace "-" b l).
Proof.
  induction l as [|c l IH]; intros b Hall; cbn [squeeze]; [constructor|].
  apply Forall_cons in Hall as [Hc Hall].
  pose proof (proj1 (proj2 (proj2 (proj2 (ascii_class_facts c)))) Hc) as Hname.
  destruct (isSpace c).
  - destruct b; [apply IH, Hall | constructor; [reflexivity | apply IH, Hall]].
  - constructor; [exact (Hname eq_refl) | apply IH, Hall].
Qed.

Lemma squeeze_dash_chars (l : list ascii) : forall b : bool,
  Forall (fun c => isNameChar c = true) l ->
  Forall (fun c => isNameChar c = true) (squeeze isDash "-" b l).
Proof.
  induction l as [|c l IH]; intros b Hall; cbn [squeeze]; [constructor|].
  apply Forall_cons in Hall as [Hc Hall].
  destruct (isDash c).
  - destruct b; [apply IH, Hall | constructor; [reflexivity | apply IH, Hall]].
  - constructor; [exact Hc | apply IH, Hall].
Qed.

Lemma squeeze_dash_head (l : list ascii) :
  match squeeze isDash "-" true l with
  | [] => True
  | c :: _ => isDash c = false
  end.
Proof.
  induction l as [|c l IH]; cbn [squeeze]; [exact I|].
  destruct (isDash c) eqn:E; [exact IH | exact E].
Qed.

Lemma squeeze_dash_single (l : list ascii) : forall b : bool,
  no_double_dash (squeeze isDash "-" b l).
Proof.
  induction l as [|c l IH]; intros b; cbn [squeeze]; [exact I|].
  destruct (isDash c) eqn:E.
  - destruct b; [apply IH|].
    pose proof (squeeze_dash_head l) as Hh. pose proof (IH true) as Ht.
    cbn [no_double_dash]. destruct (squeeze isDash "-" true l) as [|c2 r]; [exact I|].
    split; [right; exact Hh | exact Ht].
  - pose proof (IH false) as Hf. cbn [no_double_dash].
    destruct (squeeze isDash "-" false l) as [|c2 r]; [exact I|].
    split; [left; exact E | exact Hf].
Qed.

Lemma dropWhileSpace_id (l : list ascii) :
  Forall (fun c => isSpace c = false) l -> dropWhileSpace l = l.
Proof.
  intros H. destruct H as [|c l Hc _]; [reflexivity|]. cbn. rewrite Hc. reflexivity.
Qed.

Lemma trim_chars_id (l : list ascii) :
  Forall (fun c => isSpace c = false) l -> trim_chars l = l.
Proof.
  intros H. unfold trim_chars. rewrite (dropWhileSpace_id l H).
  rewrite dropWhileSpace_id by (apply Forall_rev, H). apply rev_involutive.
Qed.

Lemma squeeze_space_id (l : list ascii) : forall b : bool,
  Forall (fun c => isSpace c = false) l -> squeeze isSpace "-" b l = l.
Proof.
  induction l as [|c l IH]; intros b Hall; cbn [squeeze]; [reflexivity|].
  apply Forall_cons in Hall as [Hc Hall]. rewrite Hc, IH by exact Hall. reflexivity.
Qed.

Lemma squeeze_dash_id (l : list ascii) : forall b : bool,
  no_double_dash l ->
  (b = true -> match l with [] => True | c :: _ => isDash c = false end) ->
  squeeze isDash "-" b l = l.
Proof.
  induction l as [|c l IH]; intros b Hnd Hhead; cbn [squeeze]; [reflexivity|].
  assert (no_double_dash l) as Hnd'
    by (cbn [no_double_dash] in Hnd; destruct l; [exact I | apply Hnd]).
  destruct (isDash c) eqn:E.
  - destruct b; [specialize (Hhead eq_refl); congruence|].
    rewrite (proj2 (proj2 (proj2 (proj2 (ascii_class_facts c)))) E). f_equal.
    apply IH; [exact Hnd'|]. intros _. cbn [no_double_dash] in Hnd.
    destruct l as [|c2 r]; [exact I|]. destruct Hnd as [[H | H] _]; congruence.
  - f_equal. apply IH; [exact Hnd' | discriminate].
Qed.

Lemma sanitize_chars_facts (l : list ascii) :
  Forall (fun c => isNameChar c = true) (sanitize_chars l) /\
  no_double_dash (sanitize_chars l) /\
  sanitize_chars l
  = squeeze isDash "-" false
      (squeeze isSpace "-" false
         (List.filter (fun c => isLowerOrDigit c || isSpace c || isDash c)
                      (map lower_ascii l))).
Proof.
  unfold sanitize_chars.
  set (kept := List.filter _ (map lower_ascii l)).
  assert (Forall (fun c => isLowerOrDigit c || isSpace c || isDash c = true) kept) as Hkept.
  { subst kept. apply Forall_forall. intros c Hc.
    apply list_elem_of_In, filter_In in Hc. apply Hc. }
  pose proof (squeeze_dash_chars _ false (squeeze_space_chars kept false Hkept)) as Hchars.
  assert (trim_chars (squeeze isDash "-" false (squeeze isSpace "-" false kept))
          = squeeze isDash "-" false (squeeze isSpace "-" false kept)) as Htrim.
  { apply trim_chars_id. eapply Forall_impl; [exact Hchars|].
    intros c. apply (proj1 (ascii_class_facts c)). }
  rewrite Htrim. split; [exact Hchars|]. split; [apply squeeze_dash_single | reflexivity].
Qed.

Lemma sanitize_chars_fixed (l : list ascii) :
  Forall (fun c => isNameChar c = true) l -> no_double_dash l -> sanitize_chars l = l.
Proof.
  intros Hchars Hnd.
  assert (Forall (fun c => isSpace c = false) l) as Hns
    by (eapply Forall_impl; [exact Hchars | intros c; apply (proj1 (ascii_class_facts c))]).
  rewrite (proj2 (proj2 (sanitize_chars_facts l))).
  assert (map lower_ascii l = l) as ->.
  { clear Hnd Hns. induction Hchars as [|c l Hc _ IH]; cbn; [reflexivity|].
    rewrite IH, (proj1 (proj2 (ascii_class_facts c)) Hc). reflexivity. }
  assert (List.filter (fun c => isLowerOrDigit c || isSpace c || isDash c) l = l) as ->.
  { clear Hnd Hns. induction Hchars as [|c l Hc _ IH]; cbn; [reflexivity|].
    rewrite IH, (proj1 (proj2 (proj2 (ascii_class_facts c))) Hc). reflexivity. }
  rewrite (squeeze_space_id l false Hns). apply squeeze_dash_id; [exact Hnd | discriminate].
Qed.

(** X26: a sanitized file name consists only of the characters [a-z], [0-9]
    and "-" and never has two "-" in a row; sanitizing it again changes
    nothing.  The final [trim()] never removes anything, because every
    white-space character has already become "-": a name with leading or
    trailing blanks comes out with a leading or trailing "-". *)
Theorem sanitizeFileName_spec (name : string) :
  let out := list_ascii_of_string (sanitizeFileName name) in
  Forall (fun c => isNameChar c = true) out /\
  no_double_dash out /\
  sanitizeFileName (sanitizeFileName name) = sanitizeFileName name /\
  out = squeeze isDash "-" false
          (squeeze isSpace "-" false
             (List.filter (fun c => isLowerOrDigit c || isSpace c || isDash c)
                          (map lower_ascii (list_ascii_of_string name)))).
Proof.
  intros out. subst out. unfold sanitizeFileName.
  rewrite !list_ascii_of_string_of_list_ascii.
  destruct (sanitize_chars_facts (list_ascii_of_string name)) as (Hc & Hnd & Hsteps).
  split; [exact Hc|]. split; [exact Hnd|]. split; [|exact Hsteps].
  rewrite (sanitize_chars_fixed _ Hc Hnd). reflexivity.
Qed.

(** ** File names from URLs *)

Lemma lastSegment_from_slash (d : list ascii) : forall acc seg,
  lastSegment_from acc (d ++ "/"%char :: seg) = lastSegment_from [] seg.
Proof.
  induction d as [|c d IH]; intros acc seg; cbn; [reflexivity|].
  destruct (Ascii.eqb c "/"); apply IH.
Qed.

Lemma lastSegment_from_free (seg : list ascii) : forall acc,
  Forall (fun c => c <> "/"%char) seg -> lastSegment_from acc seg = rev acc ++ seg.
Proof.
  induction seg as [|c seg IH]; intros acc Hall; cbn [lastSegment_from].
  - rewrite app_nil_r. reflexivity.
  - apply Forall_cons in Hall as [Hc Hall].
    destruct (Ascii.eqb_spec c "/") as [E | _]; [contradiction|].
    rewrite IH by exact Hall. cbn [rev]. rewrite <- app_assoc. reflexivity.
Qed.

Lemma lastSegment_from_no_slash (l : list ascii) : forall acc,
  Forall (fun c => c <> "/"%char) acc ->
  Forall (fun c => c <> "/"%char) (lastSegment_from acc l).
Proof.
  induction l as [|c l IH]; intros acc Hacc; cbn [lastSegment_from].
  - apply Forall_rev, Hacc.
  - destruct (Ascii.eqb_spec c "/") as [_ | Hc]; apply IH; constructor; assumption.
Qed.

Lemma lastSegment_split (dir seg : list ascii) :
  dir = [] \/ (exists d, dir = d ++ ["/"%char]) ->
  Forall (fun c => c <> "/"%char) seg ->
  lastSegment (dir ++ seg) = seg.
Proof.
  intros [-> | [d ->]] Hseg; unfold lastSegment.
  - exact (lastSegment_from_free seg [] Hseg).
  - rewrite <- app_assoc. cbn [app]. rewrite lastSegment_from_slash.
    exact (lastSegment_from_free seg [] Hseg).
Qed.

Lemma stripExtension_from_scan (r : list ascii) : forall (t : nat) rest,
  Forall (fun c => c <> "."%char /\ c <> "/"%char) r ->
  stripExtension_from t (r ++ rest) = stripExtension_from (t + length r) rest.
Proof.
  induction r as [|c r IH]; intros t rest Hall; cbn [app length stripExtension_from].
  - rewrite Nat.add_0_r. reflexivity.
  - apply Forall_cons in Hall as [[Hd Hs] Hall].
    destruct (Ascii.eqb_spec c ".") as [E | _]; [contradiction|].
    destruct (Ascii.eqb_spec c "/") as [E | _]; [contradiction|].
    rewrite IH by exact Hall. f_equal. lia.
Qed.

Lemma stripExtension_from_prefix (r : list ascii) : forall (t : nat) base,
  stripExtension_from t r = Some base -> exists suffix, rev r = base ++ suffix.
Proof.
  induction r as [|c r IH]; intros t base H; cbn [stripExtension_from] in H; [discriminate|].
  destruct (Ascii.eqb c ".").
  - destruct (0 <? t)%nat; [|discriminate]. injection H as <-. exists [c]. reflexivity.
  - destruct (Ascii.eqb c "/"); [discriminate|].
    destruct (IH _ _ H) as [suffix Hs]. exists (suffix ++ [c]).
    cbn [rev]. rewrite Hs, <- app_assoc. reflexivity.
Qed.

Lemma stripExtension_no_slash (l : list ascii) :
  Forall (fun c => c <> "/"%char) l -> Forall (fun c => c <> "/"%char) (stripExtension l).
Proof.
  intros Hl. unfold stripExtension.
  destruct (stripExtension_from 0 (rev l)) as [base|] eqn:E; [|exact Hl].
  destruct (stripExtension_from_prefix _ _ _ E) as [suffix Hs].
  rewrite rev_involutive in Hs. rewrite Hs in Hl. apply Forall_app in Hl. apply Hl.
Qed.

Lemma stripExtension_ext (base ext : list ascii) :
  ext <> [] -> Forall (fun c => c <> "."%char /\ c <> "/"%char) ext ->
  stripExtension (base ++ "."%char :: ext) = base.
Proof.
  intros Hne Hext. unfold stripExtension.
  assert (rev (base ++ "."%char :: ext) = rev ext ++ "."%char :: rev base) as ->.
  { rewrite rev_app_distr. cbn [rev]. rewrite <- app_assoc. reflexivity. }
  rewrite stripExtension_from_scan by (apply Forall_rev, Hext).
  cbn [stripExtension_from Ascii.eqb Bool.eqb andb]. rewrite length_rev.
  destruct ext as [|c ext]; [contradiction|]. cbn. rewrite rev_involutive. reflexivity.
Qed.

Lemma stripExtension_none (seg : list ascii) :
  Forall (fun c => c <> "."%char /\ c <> "/"%char) seg ->
  stripExtension seg = seg /\ stripExtension (seg ++ ["."%char]) = seg ++ ["."%char].
Proof.
  intros Hseg. unfold stripExtension. split.
  - rewrite <- (app_nil_r (rev seg)).
    rewrite stripExtension_from_scan by (apply Forall_rev, Hseg). reflexivity.
  - rewrite rev_app_distr. reflexivity.
Qed.

Lemma string_of_list_ascii_cons_ne (c : ascii) (l : list ascii) :
  string_of_list_ascii (c :: l) <> ""%string.
Proof. discriminate. Qed.

(** X27: the name [extractFileNameFromUrl] gives to a sound loaded from a URL
    is never empty and never contains "/".  With the URL cut after its last
    "/" into a directory part and a last segment: a segment [base.ext] gives
    [base] (only the last extension goes, and a segment that is nothing but
    an extension gives "sound"); a segment without "." is returned whole, a
    segment ending in "." too; an empty segment (the URL is empty or ends in
    "/") gives "sound". *)
Theorem extractFileNameFromUrl_spec (url : string) :
  extractFileNameFromUrl url <> ""%string /\
  Forall (fun c => c <> "/"%char) (list_ascii_of_string (extractFileNameFromUrl url)) /\
  forall dir seg : list ascii,
    list_ascii_of_string url = dir ++ seg ->
    dir = [] \/ (exists d, dir = d ++ ["/"%char]) ->
    Forall (fun c => c <> "/"%char) seg ->
    (seg = [] -> extractFileNameFromUrl url = "sound"%string) /\
    (forall base ext, seg = base ++ "."%char :: ext -> ext <> [] ->
       Forall (fun c => c <> "."%char) ext ->
       extractFileNameFromUrl url
       = match base with [] => "sound"%string | _ => string_of_list_ascii base end) /\
    (seg <> [] -> Forall (fun c => c <> "."%char) seg ->
       extractFileNameFromUrl url = string_of_list_ascii seg) /\
    (forall base, seg = base ++ ["."%char] -> Forall (fun c => c <> "."%char) base ->
       extractFileNameFromUrl url = string_of_list_ascii seg).
Proof.
  split; [|split].
  - unfold extractFileNameFromUrl.
    destruct (stripExtension _); [discriminate | apply string_of_list_ascii_cons_ne].
  - unfold extractFileNameFromUrl.
    pose proof (stripExtension_no_slash _
                  (lastSegment_from_no_slash (list_ascii_of_string url) [] (List.Forall_nil _)))
      as Hs.
    fold (lastSegment (list_ascii_of_string url)) in Hs.
    destruct (stripExtension _) as [|c name].
    + cbn. repeat constructor; discriminate.
    + rewrite list_ascii_of_string_of_list_ascii. exact Hs.
  - intros dir seg Hurl Hdir Hseg. unfold extractFileNameFromUrl.
    rewrite Hurl, (lastSegment_split dir seg Hdir Hseg).
    assert (forall l : list ascii, Forall (fun c => c <> "/"%char) l ->
              Forall (fun c => c <> "."%char) l ->
              Forall (fun c => c <> "."%char /\ c <> "/"%char) l) as Hboth.
    { intros l H1 H2. induction l as [|c l IH]; constructor.
      - apply Forall_cons in H1 as [? _]. apply Forall_cons in H2 as [? _]. split; assumption.
      - apply Forall_cons in H1 as [_ ?]. apply Forall_cons in H2 as [_ ?]. apply IH; assumption. }
    split; [|split; [|split]].
    + intros ->. reflexivity.
    + intros base ext -> Hne Hext.
      apply Forall_app in Hseg as [_ Hseg]. apply Forall_cons in Hseg as [_ Hseg].
      rewrite (stripExtension_ext base ext Hne (Hboth _ Hseg Hext)).
      destruct base; reflexivity.
    + intros Hne Hfree. rewrite (proj1 (stripExtension_none seg (Hboth _ Hseg Hfree))).
      destruct seg; [contradiction | reflexivity].
    + intros base -> Hfree. apply Forall_app in Hseg as [Hseg _].
      rewrite (proj2 (stripExtension_none base (Hboth _ Hseg Hfree))).
      destruct base; reflexivity.
Qed.

Lemma extractFileNameFromUrl_spec_witness :
  extractFileNameFromUrl "http://localhost:5000/presets/808/Kick 808X.v2.wav"
  = "Kick 808X.v2"%string.
Proof.
  destruct (extractFileNameFromUrl_spec
              "http://localhost:5000/presets/808/Kick 808X.v2.wav") as (_ & _ & H).
  destruct (H (list_ascii_of_string "http://localhost:5000/presets/808/")
              (list_ascii_of_string "Kick 808X.v2.wav")) as (_ & Hext & _).
  - reflexivity.
  - right. exists (list_ascii_of_string "http://localhost:5000/presets/808"). reflexivity.
  - repeat (constructor; [discriminate|]). constructor.
  - apply (Hext (list_ascii_of_string "Kick 808X.v2") (list_ascii_of_string "wav")).
    + reflexivity.
    + discriminate.
    + repeat (constructor; [discriminate|]). constructor.
Defined.

(** ** The upload filter *)

Lemma allowedMimes_audio (mimetype : string) :
  existsb (String.eqb mimetype) allowedMimes = true -> startsWith mimetype "audio/" = true.
Proof.
  unfold allowedMimes. cbn [existsb]. intros H.
  repeat (apply orb_true_iff in H as [H | H];
          [apply String.eqb_eq in H; subst mimetype; reflexivity|]).
  discriminate.
Qed.

(** X28: the upload filter accepts a file exactly when its MIME type starts
    with "audio/" (as written, case included); the list of allowed types
    never decides, every entry of it starts with "audio/".  Any other type is
    refused with an error that quotes the type. *)
Theorem fileFilter_spec (mimetype : string) :
  (fileFilter mimetype = inr true <-> startsWith mimetype "audio/" = true) /\
  (startsWith mimetype "audio/" = false ->
   fileFilter mimetype
   = inl (Error ("Invalid file type: " ++ mimetype ++ ". Only audio files are allowed."))) /\
  (In mimetype allowedMimes -> startsWith mimetype "audio/" = true).
Proof.
  assert (existsb (String.eqb mimetype) allowedMimes || startsWith mimetype "audio/"
          = startsWith mimetype "audio/") as Hor.
  { destruct (existsb _ allowedMimes) eqn:E; [|reflexivity].
    rewrite (allowedMimes_audio _ E). reflexivity. }
  unfold fileFilter. rewrite Hor. repeat split.
  - destruct (startsWith mimetype "audio/"); [reflexivity | discriminate].
  - intros ->. reflexivity.
  - intros ->. reflexivity.
  - intros Hin. apply allowedMimes_audio. apply existsb_exists.
    exists mimetype. split; [exact Hin | apply String.eqb_refl].
Qed.

Lemma fileFilter_spec_witness :
  fileFilter "video/mp4"
  = inl (Error "Invalid file type: video/mp4. Only audio files are allowed.") /\
  startsWith "audio/x-wav" "audio/" = true.
Proof.
  split.
  - apply (proj1 (proj2 (fileFilter_spec "video/mp4"))). reflexivity.
  - apply (proj2 (proj2 (fileFilter_spec "audio/x-wav"))). cbn. tauto.
Defined.

(** * Doubles: rounding *)

Module DoubleFacts.
Import Double.

(** ** Powers of two *)

Lemma pow2_pos (k : Z) : (0 < pow2 k)%Q.
Proof. apply Qpower_0_lt. reflexivity. Qed.

Lemma pow2_add (a b : Z) : (pow2 (a + b) == pow2 a * pow2 b)%Q.
Proof. apply Qpower_plus. discriminate. Qed.

Lemma pow2_le (a b : Z) : a <= b -> (pow2 a <= pow2 b)%Q.
Proof. intros H. apply Qpower_le_compat_l; [exact H | discriminate]. Qed.

Lemma pow2_lt (a b : Z) : a < b -> (pow2 a < pow2 b)%Q.
Proof. intros H. apply Qpower_lt_compat_l; [exact H | reflexivity]. Qed.

Lemma pow2_inject (k : Z) : 0 <= k -> (inject_Z (2 ^ k) == pow2 k)%Q.
Proof. intros H. apply (Zpower_Qpower 2 k H). Qed.

Lemma pow2_succ (k : Z) : (pow2 (k + 1) == 2 * pow2 k)%Q.
Proof. rewrite pow2_add. change (pow2 1) with 2%Q. ring. Qed.

Lemma pow2_pred (k : Z) : (pow2 k == 2 * pow2 (k - 1))%Q.
Proof. rewrite <- pow2_succ. replace (k - 1 + 1) with k by lia. reflexivity. Qed.

(** ** The binary exponent *)

Lemma ilog2_spec (q : Q) :
  (0 < q)%Q -> (pow2 (ilog2 q) <= q /\ q < pow2 (ilog2 q + 1))%Q.
Proof.
  intros Hq. unfold ilog2.
  destruct q as [n d]. cbn [Qnum Qden].
  assert (0 < n) as Hn by (unfold Qlt in Hq; cbn in Hq; lia).
  pose proof (Z.log2_spec n Hn) as [Hn1 Hn2].
  pose proof (Z.log2_spec (Z.pos d) ltac:(lia)) as [Hd1 Hd2].
  pose proof (Z.log2_nonneg n) as Ha. pose proof (Z.log2_nonneg (Z.pos d)) as Hb.
  set (a := Z.log2 n) in *. set (b := Z.log2 (Z.pos d)) in *.
  assert (inject_Z n == (n # d) * inject_Z (Z.pos d))%Q as Hnd.
  { unfold Qeq. cbn. rewrite Pos.mul_1_r. ring. }
  assert (0 < inject_Z (Z.pos d))%Q as Hdpos by (unfold Qlt; cbn; lia).
  (* bounds in Q *)
  assert (pow2 a <= inject_Z n)%Q as Q1.
  { rewrite <- pow2_inject by lia. rewrite <- Zle_Qle. exact Hn1. }
  assert (inject_Z n < pow2 (a + 1))%Q as Q2.
  { rewrite <- pow2_inject by lia. rewrite <- Zlt_Qlt. replace (a + 1) with (Z.succ a) by lia. exact Hn2. }
  assert (pow2 b <= inject_Z (Z.pos d))%Q as Q3.
  { rewrite <- pow2_inject by lia. rewrite <- Zle_Qle. exact Hd1. }
  assert (inject_Z (Z.pos d) < pow2 (b + 1))%Q as Q4.
  { rewrite <- pow2_inject by lia. rewrite <- Zlt_Qlt. replace (b + 1) with (Z.succ b) by lia. exact Hd2. }
  assert ((n # d) < pow2 (a - b + 1))%Q as Hup.
  { apply (Qmult_lt_r _ _ (pow2 b) (pow2_pos b)).
    rewrite <- pow2_add. replace (a - b + 1 + b) with (a + 1) by lia.
    eapply Qle_lt_trans; [|exact Q2]. rewrite Hnd.
    apply Qmult_le_l; [exact Hq | exact Q3]. }
  assert (pow2 (a - b - 1) <= (n # d))%Q as Hlo.
  { apply (Qmult_le_r _ _ (pow2 (b + 1)) (pow2_pos (b + 1))).
    rewrite <- pow2_add. replace (a - b - 1 + (b + 1)) with a by lia.
    eapply Qle_trans; [exact Q1|]. rewrite Hnd.
    apply Qmult_le_l; [exact Hq | apply Qlt_le_weak, Q4]. }
  destruct (Qle_bool (pow2 (a - b)) (n # d)) eqn:E.
  - apply Qle_bool_iff in E. split; assumption.
  - split; [exact Hlo|]. replace (a - b - 1 + 1) with (a - b) by lia.
    apply Qnot_le_lt. intros H. apply Qle_bool_iff in H. congruence.
Qed.

Lemma ilog2_mono (x y : Q) : (0 < x)%Q -> (x <= y)%Q -> ilog2 x <= ilog2 y.
Proof.
  intros Hx Hxy.
  destruct (ilog2_spec x Hx) as [Hx1 _].
  destruct (ilog2_spec y (Qlt_le_trans _ _ _ Hx Hxy)) as [_ Hy2].
  destruct (Z_lt_le_dec (ilog2 y) (ilog2 x)) as [H|H]; [|exact H].
  exfalso. pose proof (pow2_le (ilog2 y + 1) (ilog2 x) ltac:(lia)). lra.
Qed.

Lemma ilog2_lower (x : Q) (k : Z) : (pow2 k <= x)%Q -> k <= ilog2 x.
Proof.
  intros H. assert (0 < x)%Q as Hx by (pose proof (pow2_pos k); lra).
  destruct (ilog2_spec x Hx) as [_ H2].
  destruct (Z_lt_le_dec (ilog2 x) k) as [Hk|Hk]; [|exact Hk].
  exfalso. pose proof (pow2_le (ilog2 x + 1) k ltac:(lia)). lra.
Qed.

Lemma ilog2_upper (x : Q) (k : Z) : (0 < x)%Q -> (x < pow2 k)%Q -> ilog2 x < k.
Proof.
  intros Hx H. destruct (ilog2_spec x Hx) as [H1 _].
  destruct (Z_lt_le_dec (ilog2 x) k) as [Hk|Hk]; [exact Hk|].
  exfalso. pose proof (pow2_le k (ilog2 x) Hk). lra.
Qed.

(** ** Rounding to the nearest integer *)

Lemma rne_cases (x : Q) :
  let f := Qfloor x in
  (rne x = f /\ (x - inject_Z f <= 1 # 2)%Q) \/
  (rne x = f + 1 /\ (1 # 2 <= x - inject_Z f)%Q).
Proof.
  intros f. unfold rne. fold f.
  destruct (Qcompare_spec (x - inject_Z f) (1 # 2)) as [E|E|E].
  - destruct (Z.even f); [left | right]; split; try reflexivity; rewrite E; apply Qle_refl.
  - left. split; [reflexivity | apply Qlt_le_weak, E].
  - right. split; [reflexivity | apply Qlt_le_weak, E].
Qed.

Lemma floor_bounds (x : Q) : (inject_Z (Qfloor x) <= x /\ x < inject_Z (Qfloor x) + 1)%Q.
Proof.
  split; [apply Qfloor_le|]. pose proof (Qlt_floor x) as H.
  rewrite inject_Z_plus in H. exact H.
Qed.

Lemma rne_err (x : Q) : (Qabs (inject_Z (rne x) - x) <= 1 # 2)%Q.
Proof.
  destruct (floor_bounds x) as [H1 H2].
  apply Qabs_Qle_condition.
  destruct (rne_cases x) as [[-> H] | [-> H]]; rewrite ?inject_Z_plus;
    change (inject_Z 1) with 1%Q; split; lra.
Qed.

Lemma rne_Z (x : Q) (z : Z) : (x == inject_Z z)%Q -> rne x = z.
Proof.
  intros E. unfold rne. rewrite (Qfloor_comp _ _ E), Qfloor_Z.
  assert (x - inject_Z z == 0)%Q as E0 by lra.
  destruct (Qcompare_spec (x - inject_Z z) (1 # 2)) as [H|H|H]; [lra | reflexivity | lra].
Qed.

Lemma rne_mono (x y : Q) : (x <= y)%Q -> rne x <= rne y.
Proof.
  intros Hxy. pose proof (Qfloor_resp_le x y Hxy) as Hf.
  destruct (floor_bounds x) as [X1 X2]. destruct (floor_bounds y) as [Y1 Y2].
  destruct (Z.eq_dec (Qfloor x) (Qfloor y)) as [E|NE].
  - unfold rne. rewrite <- E.
    destruct (Qcompare_spec (x - inject_Z (Qfloor x)) (1 # 2)) as [H|H|H];
    destruct (Qcompare_spec (y - inject_Z (Qfloor x)) (1 # 2)) as [H'|H'|H'];
    try lia; try lra; destruct (Z.even (Qfloor x)); lia.
  - destruct (rne_cases x) as [[-> _] | [-> _]];
    destruct (rne_cases y) as [[-> _] | [-> _]]; lia.
Qed.

Lemma rne_ge (x : Q) (z : Z) : (inject_Z z <= x)%Q -> z <= rne x.
Proof.
  intros H. pose proof (rne_mono _ _ H) as Hm.
  rewrite (rne_Z (inject_Z z) z) in Hm by reflexivity. exact Hm.
Qed.

Lemma rne_le (x : Q) (z : Z) : (x <= inject_Z z)%Q -> rne x <= z.
Proof.
  intros H. pose proof (rne_mono _ _ H) as Hm.
  rewrite (rne_Z (inject_Z z) z) in Hm by reflexivity. exact Hm.
Qed.

Lemma Qabs_pos_eq (q : Q) : (0 < q)%Q -> Qabs q = q.
Proof.
  destruct q as [n d]. unfold Qlt. cbn. intros H. unfold Qabs. f_equal. lia.
Qed.

Lemma ulp_exp_pos (q : Q) : (0 < q)%Q -> ulp_exp q = Z.max (ilog2 q - 52) (-1074).
Proof. intros H. unfold ulp_exp. rewrite (Qabs_pos_eq q H). reflexivity. Qed.

Lemma scaled_back (q : Q) (e : Z) : (q / pow2 e * pow2 e == q)%Q.
Proof. pose proof (pow2_pos e). field. lra. Qed.

Lemma nearest_err (q : Q) :
  (Qabs (nearest q - q) <= (1 # 2) * pow2 (ulp_exp q))%Q.
Proof.
  unfold nearest. set (e := ulp_exp q). set (x := (q / pow2 e)%Q).
  pose proof (pow2_pos e) as He. pose proof (rne_err x) as Hr.
  apply Qabs_Qle_condition in Hr. destruct Hr as [H1 H2].
  pose proof (scaled_back q e) as Hq. fold x in Hq.
  apply Qabs_Qle_condition. split; nra.
Qed.

Lemma nearest_nonneg (q : Q) : (0 <= q)%Q -> (0 <= nearest q)%Q.
Proof.
  intros Hq. unfold nearest. pose proof (pow2_pos (ulp_exp q)) as He.
  apply Qmult_le_0_compat; [|lra].
  change 0%Q with (inject_Z 0). rewrite <- Zle_Qle. apply rne_ge.
  change (inject_Z 0) with 0%Q. apply Qle_shift_div_l; [exact He | lra].
Qed.

Lemma nearest_upper (q : Q) :
  (0 < q)%Q -> (nearest q <= pow2 (ulp_exp q + 53))%Q.
Proof.
  intros Hq. unfold nearest. set (e := ulp_exp q).
  pose proof (pow2_pos e) as He. destruct (ilog2_spec q Hq) as [_ Hup].
  assert (e = Z.max (ilog2 q - 52) (-1074)) as Ee by (apply ulp_exp_pos, Hq).
  pose proof (pow2_le (ilog2 q + 1) (e + 53) ltac:(lia)) as Hle.
  pose proof (pow2_add e 53) as Hadd. pose proof (pow2_inject 53 ltac:(lia)) as H53.
  assert (rne (q / pow2 e) <= 2 ^ 53) as Hr.
  { apply rne_le. apply Qle_shift_div_r; [exact He|]. nra. }
  rewrite Zle_Qle in Hr. nra.
Qed.

Lemma nearest_lower (q : Q) :
  (0 < q)%Q -> ulp_exp q = ilog2 q - 52 -> (pow2 (ilog2 q) <= nearest q)%Q.
Proof.
  intros Hq Ee. unfold nearest. rewrite Ee. set (e := ilog2 q - 52).
  pose proof (pow2_pos e) as He. destruct (ilog2_spec q Hq) as [Hlo _].
  pose proof (pow2_add e 52) as Hadd. replace (e + 52) with (ilog2 q) in Hadd by (unfold e; lia).
  pose proof (pow2_inject 52 ltac:(lia)) as H52.
  assert (2 ^ 52 <= rne (q / pow2 e)) as Hr.
  { apply rne_ge. apply Qle_shift_div_l; [exact He|]. nra. }
  rewrite Zle_Qle in Hr. nra.
Qed.

Lemma nearest_mono (x y : Q) : (0 < x)%Q -> (x <= y)%Q -> (nearest x <= nearest y)%Q.
Proof.
  intros Hx Hxy. assert (0 < y)%Q as Hy by lra.
  pose proof (ilog2_mono x y Hx Hxy) as Hl.
  pose proof (ulp_exp_pos x Hx) as Ex. pose proof (ulp_exp_pos y Hy) as Ey.
  destruct (Z.eq_dec (ulp_exp x) (ulp_exp y)) as [E|NE].
  - unfold nearest. rewrite E. set (e := ulp_exp y). pose proof (pow2_pos e) as He.
    assert (rne (x / pow2 e) <= rne (y / pow2 e)) as Hr.
    { apply rne_mono. unfold Qdiv. apply Qmult_le_compat_r; [exact Hxy|].
      apply Qinv_le_0_compat. lra. }
    rewrite Zle_Qle in Hr. nra.
  - assert (ulp_exp y = ilog2 y - 52) as Ey' by lia.
    pose proof (nearest_upper x Hx) as Hu. pose proof (nearest_lower y Hy Ey') as Hlow.
    pose proof (pow2_le (ulp_exp x + 53) (ilog2 y) ltac:(lia)). lra.
Qed.

Lemma round_pos (q : Q) :
  (0 < q)%Q ->
  round q = if Qle_bool (pow2 1024) (nearest q) then PosInf else Fin (Qred (nearest q)).
Proof.
  intros Hq. unfold round.
  destruct (Qeq_bool q 0) eqn:E; [apply Qeq_bool_iff in E; lra|].
  destruct (Qle_bool (pow2 1024) (nearest q)); [reflexivity|].
  destruct (Qle_bool (nearest q) (- pow2 1024)) eqn:E2; [|reflexivity].
  apply Qle_bool_iff in E2. pose proof (nearest_nonneg q ltac:(lra)).
  pose proof (pow2_pos 1024). lra.
Qed.

Lemma round_zero (q : Q) : (q == 0)%Q -> round q = Fin 0.
Proof. intros H. unfold round. apply Qeq_bool_iff in H. rewrite H. reflexivity. Qed.

(** Rounding is monotone (on the non-negative numbers). *)
Lemma round_mono (x y : Q) : (0 <= x)%Q -> (x <= y)%Q -> leb (round x) (round y) = true.
Proof.
  intros Hx Hxy.
  destruct (Qlt_le_dec 0 x) as [Px|Zx].
  - assert (0 < y)%Q as Py by lra.
    rewrite (round_pos x Px), (round_pos y Py).
    pose proof (nearest_mono x y Px Hxy) as Hm.
    destruct (Qle_bool (pow2 1024) (nearest x)) eqn:Ox.
    + apply Qle_bool_iff in Ox.
      assert (Qle_bool (pow2 1024) (nearest y) = true) as -> by (apply Qle_bool_iff; lra).
      reflexivity.
    + destruct (Qle_bool (pow2 1024) (nearest y)); [reflexivity|].
      cbn [leb]. apply Qle_bool_iff. rewrite !Qred_correct. exact Hm.
  - rewrite (round_zero x) by lra.
    destruct (Qlt_le_dec 0 y) as [Py|Zy].
    + rewrite (round_pos y Py).
      destruct (Qle_bool (pow2 1024) (nearest y)); [reflexivity|].
      cbn [leb]. apply Qle_bool_iff. rewrite Qred_correct. apply nearest_nonneg. lra.
    + rewrite (round_zero y) by lra. reflexivity.
Qed.

(** Integers below 2^53 are doubles. *)
Lemma nearest_int (n : Z) : 0 < n < 2 ^ 53 -> (nearest (inject_Z n) == inject_Z n)%Q.
Proof.
  intros Hn. set (q := inject_Z n).
  assert (0 < q)%Q as Hq by (unfold q, Qlt; cbn; lia).
  assert (ilog2 q < 53) as Hup.
  { apply ilog2_upper; [exact Hq|]. rewrite <- pow2_inject by lia. unfold q.
    rewrite <- Zlt_Qlt. lia. }
  assert (0 <= ilog2 q) as Hlo.
  { apply ilog2_lower. change (pow2 0) with (inject_Z 1). unfold q. rewrite <- Zle_Qle. lia. }
  unfold nearest. rewrite (ulp_exp_pos q Hq).
  replace (Z.max (ilog2 q - 52) (-1074)) with (- (52 - ilog2 q)) by lia.
  set (k := 52 - ilog2 q). assert (0 <= k) as Hk by lia.
  pose proof (pow2_pos (- k)) as He.
  assert (pow2 (- k) * inject_Z (2 ^ k) == 1)%Q as Hinv.
  { rewrite pow2_inject by lia. rewrite <- pow2_add. replace (- k + k) with 0 by lia. reflexivity. }
  rewrite (rne_Z _ (n * 2 ^ k)).
  - rewrite inject_Z_mult. fold q. nra.
  - rewrite inject_Z_mult. fold q. apply Qeq_sym.
    assert (q / pow2 (- k) * pow2 (- k) == q)%Q as Hb by apply scaled_back.
    nra.
Qed.

Lemma of_Z_exact (n : Z) :
  0 <= n < 2 ^ 53 -> exists q, of_Z n = Fin q /\ (q == inject_Z n)%Q.
Proof.
  intros Hn. unfold of_Z. destruct (Z.eq_dec n 0) as [->|NZ].
  - exists 0%Q. split; reflexivity.
  - assert (0 < inject_Z n)%Q as Hq by (unfold Qlt; cbn; lia).
    pose proof (nearest_int n ltac:(lia)) as He.
    rewrite (round_pos _ Hq).
    destruct (Qle_bool (pow2 1024) (nearest (inject_Z n))) eqn:O.
    + exfalso. apply Qle_bool_iff in O. rewrite He in O.
      pose proof (pow2_lt 53 1024 ltac:(lia)) as Hlt.
      rewrite <- (pow2_inject 53) in Hlt by lia.
      assert (inject_Z n < inject_Z (2 ^ 53))%Q by (rewrite <- Zlt_Qlt; lia). lra.
    + eexists. split; [reflexivity|]. rewrite Qred_correct. exact He.
Qed.

(** A quotient of frame counts by a rate: its size and its last place. *)
Lemma quotient_place (q i : Q) :
  (1 <= q)%Q -> (q < pow2 52)%Q -> (pow2 (-53) < i)%Q -> (i <= 1)%Q ->
  let y := (q * i)%Q in
  (0 < y)%Q /\ ulp_exp y = ilog2 y - 52 /\ ilog2 y < 52 /\
  (pow2 (ulp_exp y) < i)%Q.
Proof.
  intros Hq1 Hq2 Hi1 Hi2 y.
  pose proof (pow2_pos (-53)) as P53.
  assert (0 < y)%Q as Hy by (unfold y; nra).
  assert (pow2 (-53) <= y)%Q as Hlow by (unfold y; nra).
  assert (y < pow2 52)%Q as Hhigh by (unfold y; nra).
  pose proof (ilog2_lower y (-53) Hlow) as L1.
  pose proof (ilog2_upper y 52 Hy Hhigh) as L2.
  assert (ulp_exp y = ilog2 y - 52) as Ey by (rewrite (ulp_exp_pos y Hy); lia).
  split; [exact Hy|]. split; [exact Ey|]. split; [exact L2|].
  rewrite Ey. destruct (ilog2_spec y Hy) as [Hl _].
  pose proof (pow2_add (ilog2 y - 52) 52) as Hadd.
  replace (ilog2 y - 52 + 52) with (ilog2 y) in Hadd by lia.
  pose proof (pow2_pos (ilog2 y - 52)) as Hp.
  pose proof (pow2_pos 52) as P52.
  (* pow2 e * pow2 52 <= q * i < pow2 52 * i *)
  assert (pow2 (ilog2 y - 52) * pow2 52 < i * pow2 52)%Q as H.
  { rewrite <- Hadd. eapply Qle_lt_trans; [exact Hl|]. unfold y. nra. }
  apply (Qmult_lt_r _ _ (pow2 52) P52). exact H.
Qed.

Lemma round_quotient (q i : Q) :
  (1 <= q)%Q -> (q < pow2 52)%Q -> (pow2 (-53) < i)%Q -> (i <= 1)%Q ->
  round (q * i) = Fin (Qred (nearest (q * i))) /\
  (Qabs (nearest (q * i) - q * i) < (1 # 2) * i)%Q.
Proof.
  intros Hq1 Hq2 Hi1 Hi2.
  destruct (quotient_place q i Hq1 Hq2 Hi1 Hi2) as (Hy & Ey & L2 & Hu).
  set (y := (q * i)%Q) in *.
  pose proof (nearest_upper y Hy) as Hup. rewrite Ey in Hup.
  pose proof (pow2_le (ilog2 y - 52 + 53) 52 ltac:(lia)) as H1.
  pose proof (pow2_lt 52 1024 ltac:(lia)) as H2.
  split.
  - rewrite (round_pos y Hy).
    destruct (Qle_bool (pow2 1024) (nearest y)) eqn:O; [|reflexivity].
    apply Qle_bool_iff in O. lra.
  - pose proof (nearest_err y) as He. pose proof (pow2_pos (ulp_exp y)). lra.
Qed.

(** Dividing two different frame numbers by the rate gives two different
    doubles, in the same order. *)
Lemma div_frames_lt (a b r : Z) :
  0 <= a < b -> b < 2 ^ 52 -> 0 < r < 2 ^ 53 ->
  ltb (div (of_Z a) (of_Z r)) (div (of_Z b) (of_Z r)) = true.
Proof.
  intros Hab Hb Hr.
  destruct (of_Z_exact a ltac:(lia)) as (qa & -> & Ea).
  destruct (of_Z_exact b ltac:(lia)) as (qb & -> & Eb).
  destruct (of_Z_exact r ltac:(lia)) as (qr & -> & Er).
  assert (1 <= qr)%Q as Hr1.
  { rewrite Er. change 1%Q with (inject_Z 1). rewrite <- Zle_Qle. lia. }
  assert (qr < pow2 53)%Q as Hr2.
  { rewrite Er, <- pow2_inject by lia. rewrite <- Zlt_Qlt. lia. }
  assert (1 <= qb)%Q as Hb1.
  { rewrite Eb. change 1%Q with (inject_Z 1). rewrite <- Zle_Qle. lia. }
  assert (qb < pow2 52)%Q as Hb2.
  { rewrite Eb, <- pow2_inject by lia. rewrite <- Zlt_Qlt. lia. }
  assert (qa + 1 <= qb)%Q as Hgap.
  { rewrite Ea, Eb. change 1%Q with (inject_Z 1). rewrite <- inject_Z_plus, <- Zle_Qle. lia. }
  assert (0 <= qa)%Q as Ha0.
  { rewrite Ea. change 0%Q with (inject_Z 0). rewrite <- Zle_Qle. lia. }
  unfold div.
  destruct (Qeq_bool qr 0) eqn:Z; [apply Qeq_bool_iff in Z; lra|].
  set (i := (/ qr)%Q).
  assert (qr * i == 1)%Q as Hinv by (unfold i; field; lra).
  assert (0 < i)%Q as Hi0 by (unfold i; apply Qinv_lt_0_compat; lra).
  pose proof (pow2_add (-53) 53) as H53. change (pow2 (-53 + 53)) with 1%Q in H53.
  pose proof (pow2_pos (-53)) as P53.
  assert (pow2 (-53) < i)%Q as Hi1 by nra.
  assert (i <= 1)%Q as Hi2 by nra.
  change (qa / qr)%Q with (qa * i)%Q. change (qb / qr)%Q with (qb * i)%Q.
  destruct (round_quotient qb i Hb1 Hb2 Hi1 Hi2) as [-> Herrb].
  apply Qabs_Qlt_condition in Herrb.
  destruct (Z.eq_dec a 0) as [A0|A0].
  - rewrite (round_zero (qa * i)) by (rewrite Ea, A0; ring).
    cbn [ltb]. destruct (Qle_bool _ 0) eqn:L; [|reflexivity].
    apply Qle_bool_iff in L. rewrite Qred_correct in L. nra.
  - assert (1 <= qa)%Q as Ha1.
    { rewrite Ea. change 1%Q with (inject_Z 1). rewrite <- Zle_Qle. lia. }
    destruct (round_quotient qa i Ha1 ltac:(lra) Hi1 Hi2) as [-> Herra].
    apply Qabs_Qlt_condition in Herra.
    cbn [ltb]. destruct (Qle_bool _ _) eqn:L; [|reflexivity].
    apply Qle_bool_iff in L. rewrite !Qred_correct in L. nra.
Qed.

(** A rate of at least 1 is, as a double, at least 1 (or infinite). *)
Lemma of_Z_rate (r : Z) :
  1 <= r -> of_Z r = PosInf \/ exists q, of_Z r = Fin q /\ (1 <= q)%Q.
Proof.
  intros Hr.
  assert (leb (round 1) (of_Z r) = true) as H1.
  { apply round_mono; [lra|]. change 1%Q with (inject_Z 1). rewrite <- Zle_Qle. lia. }
  assert (round 1 = Fin 1) as E1 by (vm_compute; reflexivity).
  rewrite E1 in H1. destruct (of_Z r) as [q| | |]; try discriminate.
  - right. exists q. split; [reflexivity|]. apply Qle_bool_iff. exact H1.
  - left. reflexivity.
Qed.

(** A product of a positive double with a rate of at least 1 is positive. *)
Lemma mul_rate_pos (x : t) (r : Z) :
  is_double x = true -> ltb (Fin 0) x = true -> 1 <= r ->
  ltb (Fin 0) (mul x (of_Z r)) = true.
Proof.
  intros Hd Hx Hr.
  destruct (of_Z_rate r Hr) as [-> | (qr & -> & Hq)]; destruct x as [m| | |]; try discriminate.
  - cbn [ltb] in Hx. apply negb_true_iff in Hx. cbn [mul].
    destruct (Qcompare_spec m 0) as [E|E|E]; try reflexivity;
      exfalso; assert (Qle_bool m 0 = true) by (apply Qle_bool_iff; lra); congruence.
  - reflexivity.
  - cbn [ltb] in Hx. apply negb_true_iff in Hx.
    assert (0 < m)%Q as Hm.
    { apply Qnot_le_lt. intros H. apply Qle_bool_iff in H. congruence. }
    cbn [is_double] in Hd.
    destruct (round m) as [m'| | |] eqn:Rm; try discriminate. apply Qeq_bool_iff in Hd.
    cbn [mul].
    pose proof (round_mono m (m * qr) ltac:(lra) ltac:(nra)) as Hmono.
    rewrite Rm in Hmono. destruct (round (m * qr)) as [p| | |]; try discriminate; [|reflexivity].
    cbn [leb] in Hmono. apply Qle_bool_iff in Hmono. cbn [ltb].
    destruct (Qle_bool p 0) eqn:L; [|reflexivity]. apply Qle_bool_iff in L. lra.
  - cbn [mul]. destruct (Qcompare_spec qr 0) as [E|E|E]; try reflexivity; lra.
Qed.

Lemma nearest_nonpos (q : Q) : (q <= 0)%Q -> (nearest q <= 0)%Q.
Proof.
  intros Hq. unfold nearest. pose proof (pow2_pos (ulp_exp q)) as He.
  assert (rne (q / pow2 (ulp_exp q)) <= 0) as Hr.
  { apply rne_le. change (inject_Z 0) with 0%Q.
    apply Qle_shift_div_r; [exact He | lra]. }
  rewrite Zle_Qle in Hr. change (inject_Z 0) with 0%Q in Hr. nra.
Qed.

Lemma round_nonpos (q : Q) :
  (q <= 0)%Q -> round q = NegInf \/ exists p, round q = Fin p /\ (p <= 0)%Q.
Proof.
  intros Hq. unfold round. pose proof (nearest_nonpos q Hq) as Hn.
  pose proof (pow2_pos 1024) as P.
  destruct (Qeq_bool q 0); [right; exists 0%Q; split; [reflexivity | lra]|].
  destruct (Qle_bool (pow2 1024) (nearest q)) eqn:O.
  { apply Qle_bool_iff in O. lra. }
  destruct (Qle_bool (nearest q) (- pow2 1024)); [left; reflexivity|].
  right. eexists. split; [reflexivity|]. rewrite Qred_correct. exact Hn.
Qed.

(** A count that is at least a positive number of frames is positive. *)
Lemma leb_pos_of_Z (m : t) (n : Z) :
  ltb (Fin 0) m = true -> leb m (of_Z n) = true -> 0 < n.
Proof.
  intros Hm Hle. destruct (Z_lt_le_dec 0 n) as [H|H]; [exact H|]. exfalso.
  assert (inject_Z n <= 0)%Q as Hq.
  { change 0%Q with (inject_Z 0). rewrite <- Zle_Qle. exact H. }
  unfold of_Z in Hle.
  destruct (round_nonpos _ Hq) as [E | (p & E & Hp)]; rewrite E in Hle;
    destruct m as [q| | |]; try discriminate.
  cbn [ltb] in Hm. cbn [leb] in Hle. apply Qle_bool_iff in Hle.
  apply negb_true_iff in Hm.
  assert (Qle_bool q 0 = true) by (apply Qle_bool_iff; lra). congruence.
Qed.

(** ** Rounding depends on the value only *)

Lemma ilog2_comp (x y : Q) : (0 < x)%Q -> (x == y)%Q -> ilog2 x = ilog2 y.
Proof.
  intros Hx E. assert (0 < y)%Q as Hy by lra.
  pose proof (ilog2_mono x y Hx ltac:(lra)). pose proof (ilog2_mono y x Hy ltac:(lra)). lia.
Qed.

Lemma rne_comp (x y : Q) : (x == y)%Q -> rne x = rne y.
Proof.
  intros E. pose proof (rne_mono x y ltac:(lra)). pose proof (rne_mono y x ltac:(lra)). lia.
Qed.

Lemma ulp_exp_comp (x y : Q) : ~ (x == 0)%Q -> (x == y)%Q -> ulp_exp x = ulp_exp y.
Proof.
  intros Hx E. unfold ulp_exp.
  assert (0 < Qabs x)%Q as Hpos.
  { pose proof (Qabs_nonneg x). destruct (Qeq_dec (Qabs x) 0) as [Z|NZ]; [|lra].
    exfalso. apply Hx. revert Z. apply Qabs_case; intros; lra. }
  rewrite (ilog2_comp (Qabs x) (Qabs y) Hpos); [reflexivity|]. rewrite E. reflexivity.
Qed.

Lemma nearest_comp (x y : Q) : ~ (x == 0)%Q -> (x == y)%Q -> (nearest x == nearest y)%Q.
Proof.
  intros Hx E. unfold nearest. rewrite (ulp_exp_comp x y Hx E).
  rewrite (rne_comp (x / pow2 (ulp_exp y)) (y / pow2 (ulp_exp y))); [reflexivity|].
  rewrite E. reflexivity.
Qed.

Lemma round_comp (x y : Q) : (x == y)%Q -> round x = round y.
Proof.
  intros E. unfold round.
  assert (Qeq_bool x 0 = Qeq_bool y 0) as Ez.
  { destruct (Qeq_bool x 0) eqn:A, (Qeq_bool y 0) eqn:B; try reflexivity.
    - apply Qeq_bool_iff in A. apply Qeq_bool_neq in B. exfalso. apply B. lra.
    - apply Qeq_bool_iff in B. apply Qeq_bool_neq in A. exfalso. apply A. lra. }
  rewrite <- Ez. destruct (Qeq_bool x 0) eqn:A; [reflexivity|].
  apply Qeq_bool_neq in A. pose proof (nearest_comp x y A E) as En.
  assert (Qle_bool (pow2 1024) (nearest x) = Qle_bool (pow2 1024) (nearest y)) as ->.
  { destruct (Qle_bool _ (nearest x)) eqn:U, (Qle_bool _ (nearest y)) eqn:V; try reflexivity.
    - apply Qle_bool_iff in U. rewrite En in U. apply Qle_bool_iff in U. congruence.
    - apply Qle_bool_iff in V. rewrite <- En in V. apply Qle_bool_iff in V. congruence. }
  assert (Qle_bool (nearest x) (- pow2 1024) = Qle_bool (nearest y) (- pow2 1024)) as ->.
  { destruct (Qle_bool (nearest x) _) eqn:U, (Qle_bool (nearest y) _) eqn:V; try reflexivity.
    - apply Qle_bool_iff in U. rewrite En in U. apply Qle_bool_iff in U. congruence.
    - apply Qle_bool_iff in V. rewrite <- En in V. apply Qle_bool_iff in V. congruence. }
  rewrite (Qred_complete _ _ En). reflexivity.
Qed.

(** A non-negative integer below 2^53, however it is written. *)
Lemma round_int (q : Q) (n : Z) :
  0 <= n < 2 ^ 53 -> (q == inject_Z n)%Q -> exists p, round q = Fin p /\ (p == inject_Z n)%Q.
Proof.
  intros Hn E. rewrite (round_comp q (inject_Z n) E). apply (of_Z_exact n Hn).
Qed.

(** ** The rounding error *)

Lemma pow2_ulp_bound (q : Q) :
  ~ (q == 0)%Q -> (pow2 (ulp_exp q) <= Qabs q * pow2 (-52) + pow2 (-1074))%Q.
Proof.
  intros Hq. unfold ulp_exp.
  assert (0 < Qabs q)%Q as Hpos.
  { pose proof (Qabs_nonneg q). destruct (Qeq_dec (Qabs q) 0) as [Z|NZ]; [|lra].
    exfalso. apply Hq. revert Z. apply Qabs_case; intros; lra. }
  destruct (ilog2_spec (Qabs q) Hpos) as [Hlo _].
  pose proof (pow2_add (ilog2 (Qabs q)) (-52)) as Hadd.
  pose proof (pow2_pos (-52)). pose proof (pow2_pos (-1074)).
  pose proof (pow2_pos (ilog2 (Qabs q) - 52)).
  destruct (Z.max_spec (ilog2 (Qabs q) - 52) (-1074)) as [[_ ->] | [_ ->]].
  - nra.
  - change (ilog2 (Qabs q) + -52) with (ilog2 (Qabs q) - 52) in Hadd. nra.
Qed.

Lemma round_err (q : Q) :
  (Qabs q <= pow2 52)%Q ->
  exists p, round q = Fin p /\
    (Qabs (p - q) <= Qabs q * pow2 (-53) + pow2 (-1075))%Q.
Proof.
  intros Hb. pose proof (Qabs_nonneg q) as Habs.
  pose proof (pow2_pos (-53)) as P53. pose proof (pow2_pos (-1075)) as P1075.
  destruct (Qeq_dec q 0) as [Z|NZ].
  - exists 0%Q. split; [apply round_zero, Z|].
    assert (Qabs (0 - q) == 0)%Q as -> by (rewrite Z; reflexivity). nra.
  - pose proof (nearest_err q) as He. pose proof (pow2_ulp_bound q NZ) as Hu.
    pose proof (pow2_succ (-53)) as H1. change (-53 + 1) with (-52) in H1.
    pose proof (pow2_succ (-1075)) as H2. change (-1075 + 1) with (-1074) in H2.
    assert (Qabs q * pow2 (-52) == 2 * (Qabs q * pow2 (-53)))%Q as H3 by (rewrite H1; ring).
    assert (Qabs (nearest q - q) <= Qabs q * pow2 (-53) + pow2 (-1075))%Q as Herr.
    { clear - He Hu H2 H3. revert He Hu H2 H3.
      generalize (pow2 (ulp_exp q)) (pow2 (-1074)) (pow2 (-1075)) (Qabs q * pow2 (-52))%Q
                 (Qabs q * pow2 (-53))%Q (Qabs (nearest q - q)).
      intros; lra. }
    exists (Qred (nearest q)). split.
    + unfold round. destruct (Qeq_bool q 0) eqn:A; [apply Qeq_bool_iff in A; contradiction|].
      assert (Qabs (nearest q) <= pow2 53)%Q as Hn.
      { apply Qabs_Qle_condition. apply Qabs_Qle_condition in Herr.
        assert (- Qabs q <= q <= Qabs q)%Q as Hq by (apply Qabs_Qle_condition; lra).
        assert (Qabs q * pow2 (-53) <= Qabs q * (1 # 2))%Q as Hy.
        { rewrite !(Qmult_comm (Qabs q)). apply Qmult_le_compat_r; [|exact Habs].
          vm_compute. discriminate. }
        assert (pow2 (-1075) <= 1)%Q as Ht by (vm_compute; discriminate).
        pose proof (pow2_succ 52) as H4. change (52 + 1) with 53 in H4.
        assert (2 <= pow2 52)%Q as H52 by (vm_compute; discriminate).
        clear - Herr Hq Hy Ht H4 H52 Hb. revert Herr Hq Hy Ht H4 H52 Hb.
        generalize (pow2 53) (pow2 52) (pow2 (-1075)) (Qabs q * pow2 (-53))%Q (Qabs q)
                   (nearest q).
        intros. split; lra. }
      apply Qabs_Qle_condition in Hn.
      pose proof (pow2_lt 53 1024 ltac:(lia)) as Hlt.
      destruct (Qle_bool (pow2 1024) (nearest q)) eqn:O; [apply Qle_bool_iff in O; lra|].
      destruct (Qle_bool (nearest q) (- pow2 1024)) eqn:O2; [apply Qle_bool_iff in O2; lra|].
      reflexivity.
    + rewrite Qred_correct. exact Herr.
Qed.





(** ** Agreement with the Standard Library's binary64

    On the operands below the operations of [Double] return what
    [SpecFloat]'s binary64 operations return: quotients of integers (among
    them the decimal fractions used as durations, a subnormal and an
    underflow to zero), their products with a rate, and their differences. *)

Lemma div_agrees :
  Forall (fun p => of_spec_float (binary64_div (fst p) (snd p))
                   = div (of_Z (fst p)) (of_Z (snd p)))
    [(2, 10); (7, 10); (5, 10); (1, 10); (2, 100); (5, 100); (7, 100); (15, 44100);
     (3, 44100); (1, 3); (2 ^ 53 + 1, 3); (10 ^ 12 + 1, 7); (1, 2 ^ 1000 * 3);
     (1, 2 ^ 1023); (-7, 10); (0, 5); (5, 0); (0, 0); (2 ^ 1024, 1)].
Proof. repeat (constructor; [vm_compute; reflexivity|]). constructor. Qed.

Lemma mul_agrees :
  Forall (fun p => of_spec_float
                     (SpecFloat.SFmul 53 1024 (binary64_div (fst (fst p)) (snd (fst p)))
                        (binary64_of_Z (snd p)))
                   = mul (div (of_Z (fst (fst p))) (of_Z (snd (fst p)))) (of_Z (snd p)))
    [((7, 100), 44100); ((5, 100), 44100); ((15, 44100), 44100); ((3, 44100), 44100);
     ((5, 10), 10); ((1, 10), 10); ((10 ^ 12 + 1, 1), 44100); ((1, 3), 2 ^ 1023);
     ((1, 2 ^ 1023), 3); ((2 ^ 1000, 1), 2 ^ 1000); ((-1, 3), 3)].
Proof. repeat (constructor; [vm_compute; reflexivity|]). constructor. Qed.

Lemma sub_agrees :
  Forall (fun p => of_spec_float
                     (SpecFloat.SFsub 53 1024 (binary64_div (fst (fst p)) (snd (fst p)))
                        (binary64_div (fst (snd p)) (snd (snd p))))
                   = sub (div (of_Z (fst (fst p))) (of_Z (snd (fst p))))
                         (div (of_Z (fst (snd p))) (of_Z (snd (snd p)))))
    [((7, 10), (2, 10)); ((2208, 44100), (3, 44100)); ((12, 10), (5, 10));
     ((1, 3), (1, 3)); ((1, 3), (2 ^ 53, 1)); ((1, 2 ^ 1023), (1, 2 ^ 1022))].
Proof. repeat (constructor; [vm_compute; reflexivity|]). constructor. Qed.
End DoubleFacts.
Import DoubleFacts.

(** * Segmentation in double arithmetic *)

Lemma frame_chain_weaken (pairs : list (Z * Z)) : forall lo hi hi',
  frame_chain lo pairs hi -> hi <= hi' -> frame_chain lo pairs hi'.
Proof.
  induction pairs as [|[a b] rest IH]; intros lo hi hi' H Hle; cbn in *; [lia|].
  destruct H as (H1 & H2 & H3). split; [exact H1|]. split; [exact H2|]. eapply IH; eauto.
Qed.

Lemma frame_chain_snoc (pairs : list (Z * Z)) : forall lo mid first last hi,
  frame_chain lo pairs mid -> mid <= first -> first <= last -> last + 1 <= hi ->
  frame_chain lo (pairs ++ [(first, last)]) hi.
Proof.
  induction pairs as [|[a b] rest IH]; intros lo mid first last hi H H1 H2 H3; cbn in *.
  - repeat split; lia.
  - destruct H as (Ha & Hb & Hrest). split; [exact Ha|]. split; [exact Hb|].
    eapply IH; eauto.
Qed.

(** The pairs of a chain are within its bounds, and sorted. *)
Lemma frame_chain_bounds (pairs : list (Z * Z)) : forall lo hi,
  frame_chain lo pairs hi ->
  Forall (fun p => lo <= fst p /\ fst p <= snd p /\ snd p < hi) pairs.
Proof.
  induction pairs as [|[a b] rest IH]; intros lo hi H; cbn in *; [constructor|].
  destruct H as (Ha & Hb & Hrest).
  assert (b + 1 <= hi) as Hhi.
  { clear IH. revert Hrest. generalize (b + 1). induction rest as [|[c d] rest IH];
      intros lo' H; cbn in H; [exact H|]. destruct H as (? & ? & H). apply IH in H. lia. }
  constructor; [cbn; lia|].
  eapply Forall_impl; [apply (IH _ _ Hrest)|]. cbn. intros p. lia.
Qed.

Lemma frame_chain_sorted (pairs : list (Z * Z)) : forall lo hi,
  frame_chain lo pairs hi ->
  StronglySorted (fun p p' => snd p < fst p') pairs.
Proof.
  induction pairs as [|[a b] rest IH]; intros lo hi H; cbn in *; constructor.
  - destruct H as (_ & _ & H). eapply IH, H.
  - destruct H as (_ & _ & H). apply frame_chain_bounds in H.
    eapply Forall_impl; [exact H|]. cbn. intros p. lia.
Qed.

Section ScanInvariant.
Variables sampleRate silenceThreshold minSilenceSamples minSoundSamples : Double.t.

Lemma scan_invariant_init : IEEESpec.scan_invariant sampleRate minSoundSamples 0 IEEE.scanInit.
Proof.
  split; [discriminate|]. split; [discriminate|]. exists []. cbn. repeat split; [lia | constructor].
Qed.

Lemma scan_step_invariant (st : IEEE.ScanState) (i : Z) (x : sample) :
  0 <= i ->
  IEEESpec.scan_invariant sampleRate minSoundSamples i st ->
  IEEESpec.scan_invariant sampleRate minSoundSamples (i + 1)
    (IEEE.scanStep sampleRate silenceThreshold minSilenceSamples minSoundSamples st i x).
Proof.
  intros Hi (Hin & Hpos & pairs & Hsegs & Hchain & Hlong).
  unfold IEEE.scanStep, IEEESpec.scan_invariant, IEEESpec.scan_frontier in *.
  destruct (IEEE.louder x silenceThreshold).
  - cbn. destruct (IEEE.isInSound st) eqn:E.
    + specialize (Hin eq_refl). specialize (Hpos eq_refl).
      split; [lia|]. split; [lia|]. exists pairs. auto.
    + split; [lia|]. split; [lia|]. exists pairs. auto.
  - destruct (IEEE.isInSound st) eqn:E; cbn [andb].
    + specialize (Hin eq_refl). specialize (Hpos eq_refl).
      destruct (Double.leb minSilenceSamples _).
      * cbn. split; [discriminate|]. split; [discriminate|].
        destruct (Double.leb minSoundSamples _) eqn:L.
        -- exists (pairs ++ [(IEEE.soundStart st, IEEE.silenceStart st)]).
           split; [rewrite map_app, Hsegs; reflexivity|].
           split; [eapply frame_chain_snoc; eauto; lia|].
           apply Forall_app. split; [exact Hlong|]. constructor; [exact L | constructor].
        -- exists pairs. split; [exact Hsegs|]. split; [|exact Hlong].
           eapply frame_chain_weaken; [exact Hchain | lia].
      * rewrite E. split; [lia|]. split; [lia|]. exists pairs. auto.
    + rewrite E. split; [discriminate|]. split; [discriminate|]. exists pairs.
      split; [exact Hsegs|]. split; [|exact Hlong].
      eapply frame_chain_weaken; [exact Hchain | lia].
Qed.

Lemma scanFrom_invariant (data : list sample) : forall (i : Z) (st : IEEE.ScanState),
  0 <= i ->
  IEEESpec.scan_invariant sampleRate minSoundSamples i st ->
  IEEESpec.scan_invariant sampleRate minSoundSamples (i + Z.of_nat (List.length data))
    (IEEE.scanFrom sampleRate silenceThreshold minSilenceSamples minSoundSamples i data st).
Proof.
  induction data as [|x rest IH]; intros i st Hi Hinv.
  - cbn [IEEE.scanFrom]. replace (i + Z.of_nat (List.length (@nil sample))) with i by (cbn; lia).
    exact Hinv.
  - cbn [IEEE.scanFrom List.length].
    replace (i + Z.of_nat (S (List.length rest)))
      with (i + 1 + Z.of_nat (List.length rest)) by lia.
    apply IH; [lia|]. apply scan_step_invariant; assumption.
Qed.

Lemma scanFinish_frames (len : Z) (st : IEEE.ScanState) :
  IEEESpec.scan_invariant sampleRate minSoundSamples len st ->
  exists pairs,
    IEEE.scanFinish sampleRate minSoundSamples len st
    = map (fun p => IEEE.segment_of sampleRate (fst p) (snd p)) pairs /\
    frame_chain 0 pairs (len + 1) /\
    Forall (fun p => Double.leb minSoundSamples (Double.of_Z (snd p - fst p)) = true) pairs.
Proof.
  intros (Hin & Hpos & pairs & Hsegs & Hchain & Hlong).
  unfold IEEE.scanFinish, IEEESpec.scan_frontier in *.
  destruct (IEEE.isInSound st) eqn:E.
  - specialize (Hin eq_refl).
    destruct (Double.leb minSoundSamples _) eqn:L.
    + exists (pairs ++ [(IEEE.soundStart st, len)]).
      split; [rewrite map_app, Hsegs; reflexivity|].
      split; [eapply frame_chain_snoc; eauto; lia|].
      apply Forall_app. split; [exact Hlong|]. constructor; [exact L | constructor].
    + exists pairs. split; [exact Hsegs|]. split; [|exact Hlong].
      eapply frame_chain_weaken; [exact Hchain | lia].
  - exists pairs. split; [exact Hsegs|]. split; [|exact Hlong].
    eapply frame_chain_weaken; [exact Hchain | lia].
Qed.
End ScanInvariant.

(** The segments are the quotients of a chain of frame pairs that passed
    the length test. *)
Lemma detect_frames (buffer : AudioBuffer.t) (thr minSilence minSound : Double.t) :
  let rate := Double.of_Z (AudioBuffer.sampleRate buffer) in
  let len := Z.of_nat (List.length (AudioBuffer.getChannelData buffer 0)) in
  exists pairs,
    IEEE.detectSoundSegments buffer thr minSilence minSound
    = map (fun p => IEEE.segment_of rate (fst p) (snd p)) pairs /\
    frame_chain 0 pairs (len + 1) /\
    Forall (fun p => Double.leb (Double.mul minSound rate) (Double.of_Z (snd p - fst p)) = true)
           pairs.
Proof.
  intros rate len. unfold IEEE.detectSoundSegments. fold rate. fold len.
  apply scanFinish_frames.
  pose proof (scanFrom_invariant rate thr (Double.mul minSilence rate) (Double.mul minSound rate)
                (AudioBuffer.getChannelData buffer 0) 0 IEEE.scanInit ltac:(lia)
                (scan_invariant_init _ _)) as H.
  exact H.
Qed.

Lemma StronglySorted_map {A B} (R : A -> A -> Prop) (S : B -> B -> Prop) (f : A -> B)
    (P : A -> Prop) (l : list A) :
  (forall x y, P x -> P y -> R x y -> S (f x) (f y)) ->
  Forall P l -> StronglySorted R l -> StronglySorted S (map f l).
Proof.
  intros HRS HP Hs. induction Hs as [|x l Hs IH Hx]; cbn; constructor.
  - apply IH. apply Forall_cons in HP. apply HP.
  - apply Forall_cons in HP as [Px Pl]. apply Forall_map.
    apply Forall_forall. intros y Hy. apply HRS; [exact Px| |].
    + eapply Forall_forall in Pl; eauto.
    + eapply Forall_forall in Hx; eauto.
Qed.

(** C3: for every recording of fewer than 2^52 frames at a positive integer
    rate below 2^53, every threshold and minimum silence, and every positive
    double [minSoundDuration], the segments [detectSoundSegments] returns
    are strictly ordered by [start] and pairwise non-overlapping (a segment
    ends before the next starts), each has [start < end], and each spans at
    least [minSoundDuration * sampleRate] frames, the product as the code
    rounds it: it is [{first / sampleRate, last / sampleRate}] for frames
    [0 <= first < last <= data.length] with
    [last - first >= minSoundDuration * sampleRate].  All comparisons are
    those of doubles. *)
Theorem detectSoundSegments_monotone (buffer : AudioBuffer.t)
    (silenceThreshold minSilenceDuration minSoundDuration : Double.t) :
  0 < AudioBuffer.sampleRate buffer < 2 ^ 53 ->
  Z.of_nat (List.length (AudioBuffer.getChannelData buffer 0)) < 2 ^ 52 ->
  Double.is_double minSoundDuration = true ->
  Double.ltb (Double.Fin 0) minSoundDuration = true ->
  let rate := Double.of_Z (AudioBuffer.sampleRate buffer) in
  let len := Z.of_nat (List.length (AudioBuffer.getChannelData buffer 0)) in
  let segs := IEEE.detectSoundSegments buffer silenceThreshold minSilenceDuration
                minSoundDuration in
  StronglySorted IEEESpec.before segs /\
  Forall (fun s =>
            Double.ltb (IEEE.seg_start s) (IEEE.seg_end s) = true /\
            exists first last,
              s = IEEE.segment_of rate first last /\
              0 <= first < last /\ last <= len /\
              Double.leb (Double.mul minSoundDuration rate) (Double.of_Z (last - first))
              = true) segs.
Proof.
  intros Hrate Hlen Hd Hpos. cbv zeta.
  destruct (detect_frames buffer silenceThreshold minSilenceDuration minSoundDuration)
    as (pairs & Hsegs & Hchain & Hlong).
  pose proof (mul_rate_pos minSoundDuration (AudioBuffer.sampleRate buffer) Hd Hpos
                ltac:(lia)) as Hprod.
  set (r := AudioBuffer.sampleRate buffer) in *.
  set (len := Z.of_nat (List.length (AudioBuffer.getChannelData buffer 0))) in *.
  clearbody r len.
  pose proof (frame_chain_bounds _ _ _ Hchain) as Hb.
  pose proof (frame_chain_sorted _ _ _ Hchain) as Hs.
  assert (Forall (fun p => 0 <= fst p < snd p /\ snd p <= len /\
                    Double.leb (Double.mul minSoundDuration (Double.of_Z r))
                      (Double.of_Z (snd p - fst p)) = true) pairs) as Hall.
  { apply Forall_forall. intros p Hp.
    pose proof (proj1 (Forall_forall _ _) Hb p Hp) as (H1 & H2 & H3).
    pose proof (proj1 (Forall_forall _ _) Hlong p Hp) as H4. cbn beta in H4.
    pose proof (leb_pos_of_Z _ _ Hprod H4). repeat split; try lia. exact H4. }
  rewrite Hsegs. split.
  - eapply StronglySorted_map; [|exact Hall|exact Hs].
    intros [a b] [c d] (H1 & H2 & _) (H3 & H4 & _) Hlt.
    cbn [fst snd] in *. split; cbn [IEEE.seg_start IEEE.seg_end IEEE.segment_of];
      apply div_frames_lt; lia.
  - apply Forall_map. eapply Forall_impl; [exact Hall|].
    intros [a b] (H1 & H2 & H3). cbn [fst snd] in *. split.
    + cbn [IEEE.seg_start IEEE.seg_end IEEE.segment_of]. apply div_frames_lt; lia.
    + exists a, b. split; [reflexivity|]. split; [exact H1|]. split; [exact H2 | exact H3].
Qed.

Lemma detectSoundSegments_monotone_witness :
  exists first last,
    IEEE.detectSoundSegments short_burst (Double.round (2 # 100)) (Double.round (1 # 10))
      (Double.round (5 # 10))
    = [IEEE.segment_of (Double.of_Z 10) first last] /\ first < last.
Proof.
  destruct (detectSoundSegments_monotone short_burst (Double.round (2 # 100))
              (Double.round (1 # 10)) (Double.round (5 # 10))
              ltac:(split; reflexivity) ltac:(reflexivity) ltac:(vm_compute; reflexivity)
              ltac:(vm_compute; reflexivity)) as [_ H].
  assert (exists s, IEEE.detectSoundSegments short_burst (Double.round (2 # 100))
                      (Double.round (1 # 10)) (Double.round (5 # 10)) = [s]) as [s Hs]
    by (eexists; vm_compute; reflexivity).
  rewrite Hs in H. apply Forall_cons in H as [(_ & first & last & E & Hfl & _) _].
  exists first, last. rewrite Hs, E. split; [reflexivity | lia].
Defined.

(** C3, as the specification states it, fails: the single segment found in
    [short_burst] with a minimum sound duration of 0.5 s is
    [{start: 0.2, end: 0.7}], and in doubles [0.7 - 0.2 < 0.5]. *)
Lemma detectSoundSegments_monotone_counterexample :
  exists s,
    IEEE.detectSoundSegments short_burst (Double.round (2 # 100)) (Double.round (1 # 10))
      (Double.round (5 # 10)) = [s] /\
    IEEE.seg_start s = Double.round (2 # 10) /\
    IEEE.seg_end s = Double.round (7 # 10) /\
    Double.leb (Double.round (5 # 10)) (Double.sub (IEEE.seg_end s) (IEEE.seg_start s))
    = false /\
    Double.ltb (Double.sub (IEEE.seg_end s) (IEEE.seg_start s)) (Double.round (5 # 10))
    = true.
Proof.
  eexists. split; [vm_compute; reflexivity|]. repeat split; vm_compute; reflexivity.
Qed.

(** ** A recording without silence *)

Lemma scan_loud_run (sampleRate thr minSilence minSound : Double.t) (data : list sample) :
  forall (i : Z) (st : IEEE.ScanState),
  Forall (fun x => IEEE.louder x thr = true) data -> data <> [] ->
  IEEE.scanFrom sampleRate thr minSilence minSound i data st
  = IEEE.mkScan true (if IEEE.isInSound st then IEEE.soundStart st else i)
      (i + Z.of_nat (List.length data) - 1) (IEEE.segments st).
Proof.
  induction data as [|x rest IH]; intros i st Hall Hne; [contradiction|].
  apply Forall_cons in Hall as [Hx Hrest]. cbn [IEEE.scanFrom List.length].
  unfold IEEE.scanStep at 1. rewrite Hx.
  destruct rest as [|y rest'].
  - cbn [IEEE.scanFrom List.length]. f_equal. lia.
  - rewrite IH by (auto; discriminate). cbn [IEEE.isInSound IEEE.soundStart IEEE.segments].
    f_equal. cbn [List.length]. lia.
Qed.

(** X10: when every sample of a non-empty first channel is louder than the
    threshold (no silence at all), the result is the single segment from
    [0 / sampleRate] to [data.length / sampleRate] if the number of frames is
    at least [minSoundDuration * sampleRate], the product as the code rounds
    it to a double, and no segment otherwise.  (So 3087 frames at 44.1 kHz
    are not a sound of 0.07 s: the product is 3087.0000000000005.) *)
Theorem detectSoundSegments_all_loud (buffer : AudioBuffer.t)
    (silenceThreshold minSilenceDuration minSoundDuration : Double.t) :
  let data := AudioBuffer.getChannelData buffer 0 in
  let rate := Double.of_Z (AudioBuffer.sampleRate buffer) in
  let len := Z.of_nat (List.length data) in
  data <> [] ->
  Forall (fun x => IEEE.louder x silenceThreshold = true) data ->
  IEEE.detectSoundSegments buffer silenceThreshold minSilenceDuration minSoundDuration
  = if Double.leb (Double.mul minSoundDuration rate) (Double.of_Z len)
    then [IEEE.segment_of rate 0 len]
    else [].
Proof.
  intros data rate len Hne Hall. unfold IEEE.detectSoundSegments.
  fold data. fold rate. fold len. rewrite scan_loud_run by assumption.
  unfold IEEE.scanFinish. cbn [IEEE.isInSound IEEE.soundStart IEEE.segments IEEE.scanInit].
  replace (len - 0) with len by lia. reflexivity.
Qed.

Lemma detectSoundSegments_all_loud_witness :
  IEEE.detectSoundSegments (loud_buffer 3087) (Double.round (2 # 100)) (Double.round (1 # 10))
    (Double.round (7 # 100)) = [] /\
  IEEE.detectSoundSegments (loud_buffer 2205) (Double.round (2 # 100)) (Double.round (1 # 10))
    (Double.round (5 # 100)) = [IEEE.segment_of (Double.of_Z 44100) 0 2205].
Proof.
  assert (forall n, Forall (fun x => IEEE.louder x (Double.round (2 # 100)) = true)
                      (AudioBuffer.getChannelData (loud_buffer n) 0)) as Hloud.
  { intros n. apply Forall_forall. intros x Hx. apply list_elem_of_In, repeat_spec in Hx.
    subst x. vm_compute. reflexivity. }
  split.
  - rewrite (detectSoundSegments_all_loud (loud_buffer 3087) _ _ _ ltac:(discriminate)
               (Hloud _)).
    vm_compute. reflexivity.
  - rewrite (detectSoundSegments_all_loud (loud_buffer 2205) _ _ _ ltac:(discriminate)
               (Hloud _)).
    vm_compute. reflexivity.
Defined.

(** * Splitting in double arithmetic *)

Lemma Qtrunc_int (q : Q) (n : Z) : (q == inject_Z n)%Q -> Qtrunc q = n.
Proof.
  unfold Qeq, Qtrunc. cbn. intros E. rewrite Z.mul_1_r in E. rewrite E.
  apply Z.quot_mul. discriminate.
Qed.

(** The length the code computes from two frames, and what it does with it. *)
Lemma frames_length (first last : Z) :
  - 2 ^ 53 < last - first < 2 ^ 53 ->
  let length := Double.sub (Double.Fin (inject_Z last)) (Double.Fin (inject_Z first)) in
  (last - first <= 0 -> Double.leb length (Double.Fin 0) = true) /\
  (0 < last - first ->
   Double.leb length (Double.Fin 0) = false /\
   Double.ltb (Double.Fin (inject_Z (2 ^ 53))) length = false /\
   IEEE.ToUint32 length = (last - first) mod 2 ^ 32).
Proof.
  intros Hn length. unfold length. cbn [Double.sub].
  assert (inject_Z last - inject_Z first == inject_Z (last - first))%Q as E.
  { unfold Z.sub. rewrite inject_Z_plus, inject_Z_opp. reflexivity. }
  rewrite (round_comp _ _ E). split.
  - intros Hle.
    assert (inject_Z (last - first) <= 0)%Q as Hq.
    { change 0%Q with (inject_Z 0). rewrite <- Zle_Qle. exact Hle. }
    destruct (round_nonpos _ Hq) as [-> | (p & -> & Hp)]; [reflexivity|].
    cbn [Double.leb]. apply Qle_bool_iff. exact Hp.
  - intros Hpos. destruct (of_Z_exact (last - first) ltac:(lia)) as (p & Hp & Ep).
    unfold Double.of_Z in Hp. rewrite Hp.
    assert (0 < p)%Q as Hp0.
    { rewrite Ep. change 0%Q with (inject_Z 0). rewrite <- Zlt_Qlt. exact Hpos. }
    assert (p <= inject_Z (2 ^ 53))%Q as Hp1.
    { rewrite Ep. rewrite <- Zle_Qle. lia. }
    split; [|split].
    + cbn [Double.leb]. destruct (Qle_bool p 0) eqn:L; [|reflexivity].
      apply Qle_bool_iff in L. lra.
    + cbn [Double.ltb]. apply negb_false_iff, Qle_bool_iff. exact Hp1.
    + cbn [IEEE.ToUint32]. rewrite (Qtrunc_int p _ Ep). reflexivity.
Qed.

(** What [extractBufferSegment] does, from the two frames it computes. *)
Lemma extract_frames (refuses : Z -> Z -> Z -> option Exn) (buffer : AudioBuffer.t)
    (segment : IEEE.SoundSegment) (first last : Z) :
  IEEE.frame_of buffer (IEEE.seg_start segment) = Double.Fin (inject_Z first) ->
  IEEE.frame_of buffer (IEEE.seg_end segment) = Double.Fin (inject_Z last) ->
  - 2 ^ 53 < last - first < 2 ^ 32 ->
  1 <= AudioBuffer.numberOfChannels buffer ->
  IEEE.extractBufferSegment refuses buffer segment
  = if last - first <=? 0 then Returns None
    else match refuses (AudioBuffer.numberOfChannels buffer) (last - first)
                       (AudioBuffer.sampleRate buffer) with
         | Some x => Throws x
         | None => Returns (Some
             {| AudioBuffer.sampleRate := AudioBuffer.sampleRate buffer;
                AudioBuffer.length := last - first;
                AudioBuffer.channels :=
                  map (fun sourceData => copyChannel sourceData first (last - first))
                      (AudioBuffer.channels buffer) |})
         end.
Proof.
  intros Hs He Hn Hch. unfold IEEE.extractBufferSegment. rewrite Hs, He.
  destruct (frames_length first last ltac:(lia)) as [Hneg Hpos].
  destruct (Z.leb_spec (last - first) 0) as [Hle | Hlt].
  - rewrite (Hneg Hle). reflexivity.
  - destruct (Hpos Hlt) as (-> & Hdiv & Hu). unfold IEEE.createBuffer. rewrite Hu.
    rewrite Z.mod_small by lia.
    destruct (Z.eqb_spec (AudioBuffer.numberOfChannels buffer) 0); [lia|].
    destruct (Z.eqb_spec (last - first) 0); [lia|]. cbn [orb].
    destruct (refuses _ _ _); [reflexivity|]. rewrite Hdiv.
    cbn [IEEE.to_Z]. rewrite Qfloor_Z. reflexivity.
Qed.







(** ** What a piece contains *)

(** X13: for a segment whose two frames, [floor(start * rate)] and
    [floor(end * rate)] with the products rounded to doubles, lie inside a
    well-formed buffer of fewer than 2^32 frames, [extractBufferSegment]
    throws what the browser refuses the new buffer with, if it does, and
    otherwise returns a piece that holds, channel by channel, exactly the
    frames [first .. last - 1] of the source (the end frame itself is not
    included) and is again well-formed.  The frames are those of the rounded
    products: [start = 15 / 44100] at 44.1 kHz gives frame 14, not 15. *)
Theorem extractBufferSegment_slice (refuses : Z -> Z -> Z -> option Exn)
    (buffer : AudioBuffer.t) (segment : IEEE.SoundSegment) (first last : Z) :
  IEEE.frame_of buffer (IEEE.seg_start segment) = Double.Fin (inject_Z first) ->
  IEEE.frame_of buffer (IEEE.seg_end segment) = Double.Fin (inject_Z last) ->
  AudioBuffer.wf buffer ->
  1 <= AudioBuffer.numberOfChannels buffer ->
  AudioBuffer.length buffer < 2 ^ 32 ->
  0 <= first -> first < last -> last <= AudioBuffer.length buffer ->
  match refuses (AudioBuffer.numberOfChannels buffer) (last - first)
                (AudioBuffer.sampleRate buffer) with
  | Some x => IEEE.extractBufferSegment refuses buffer segment = Throws x
  | None =>
      exists piece,
        IEEE.extractBufferSegment refuses buffer segment = Returns (Some piece) /\
        AudioBuffer.length piece = last - first /\
        AudioBuffer.sampleRate piece = AudioBuffer.sampleRate buffer /\
        AudioBuffer.channels piece
        = map (slice first (last - first)) (AudioBuffer.channels buffer) /\
        AudioBuffer.wf piece
  end.
Proof.
  intros Hs He (Hrate & Hlen & Hchan) Hch H32 H0 Hlt Hin.
  rewrite (extract_frames refuses buffer segment first last Hs He ltac:(lia) Hch).
  destruct (Z.leb_spec (last - first) 0) as [|_]; [lia|].
  destruct (refuses _ _ _); [reflexivity|].
  assert (map (fun sourceData => copyChannel sourceData first (last - first))
              (AudioBuffer.channels buffer)
          = map (slice first (last - first)) (AudioBuffer.channels buffer)) as Hmap.
  { apply map_ext_in. intros c Hc.
    pose proof (proj1 (Forall_forall _ _) Hchan c (proj2 (list_elem_of_In _ _) Hc)) as Hc'.
    cbv beta in Hc'. apply copyChannel_slice; lia. }
  eexists. split; [reflexivity|]. cbn [AudioBuffer.length AudioBuffer.sampleRate
                                       AudioBuffer.channels].
  split; [reflexivity|]. split; [reflexivity|]. split; [exact Hmap|].
  unfold AudioBuffer.wf. cbn [AudioBuffer.length AudioBuffer.sampleRate AudioBuffer.channels].
  split; [exact Hrate|]. split; [lia|].
  apply Forall_map, Forall_forall. intros c _. apply length_copyChannel. lia.
Qed.

Lemma extractBufferSegment_slice_witness :
  exists piece,
    IEEE.extractBufferSegment generous ramp
      (IEEE.mkSegment (Double.round (15 # 44100)) (Double.round (18 # 44100)))
    = Returns (Some piece) /\
    AudioBuffer.channels piece = [[Num (14 # 32); Num (15 # 32); Num (16 # 32); Num (17 # 32)]].
Proof.
  pose proof (extractBufferSegment_slice generous ramp
                (IEEE.mkSegment (Double.round (15 # 44100)) (Double.round (18 # 44100)))
                14 18 ltac:(vm_compute; reflexivity) ltac:(vm_compute; reflexivity)) as H.
  destruct H as (piece & Hrun & _ & _ & Hch & _).
  - split; [reflexivity|]. split; [discriminate|].
    constructor; [reflexivity | constructor].
  - discriminate.
  - reflexivity.
  - discriminate.
  - reflexivity.
  - discriminate.
  - exists piece. split; [exact Hrun|]. rewrite Hch. reflexivity.
Defined.

(** ** Detect, then split *)

(** A frame turned into seconds and back: the frame itself or the one
    before. *)
Lemma frame_round_trip (buffer : AudioBuffer.t) (a : Z) :
  0 < AudioBuffer.sampleRate buffer < 2 ^ 53 -> 0 <= a < 2 ^ 51 ->
  exists a',
    IEEE.frame_of buffer
      (Double.div (Double.of_Z a) (Double.of_Z (AudioBuffer.sampleRate buffer)))
    = Double.Fin (inject_Z a') /\
    a - 1 <= a' <= a /\ 0 <= a'.
Proof.
  intros Hr Ha. set (r := AudioBuffer.sampleRate buffer) in *.
  destruct (of_Z_exact a ltac:(lia)) as (qa & Hqa & Ea).
  destruct (of_Z_exact r ltac:(lia)) as (qr & Hqr & Er).
  set (A := inject_Z a) in *. set (R := inject_Z r) in *.
  assert (1 <= R)%Q as HR1.
  { unfold R. change 1%Q with (inject_Z 1). rewrite <- Zle_Qle. lia. }
  assert (R <= Double.pow2 53)%Q as HR2.
  { unfold R. rewrite <- pow2_inject by lia. rewrite <- Zle_Qle. lia. }
  assert (0 <= A)%Q as HA0.
  { unfold A. change 0%Q with (inject_Z 0). rewrite <- Zle_Qle. lia. }
  assert (A <= Double.pow2 51)%Q as HA1.
  { unfold A. rewrite <- pow2_inject by lia. rewrite <- Zle_Qle. lia. }
  unfold IEEE.frame_of. fold r. rewrite Hqa, Hqr. cbn [Double.div].
  destruct (Qeq_bool qr 0) eqn:Z; [apply Qeq_bool_iff in Z; lra|].
  rewrite (round_comp (qa / qr) (A / R)) by (rewrite Ea, Er; reflexivity).
  destruct (Z.eq_dec a 0) as [A0 | A0].
  - rewrite (round_zero (A / R)) by (unfold A; rewrite A0; reflexivity).
    cbn [Double.mul]. rewrite (round_zero (0 * qr)) by ring.
    exists 0. cbn [Double.floor]. split; [reflexivity | lia].
  - set (x := (A / R)%Q).
    assert (x * R == A)%Q as HxR by (unfold x; field; lra).
    assert (0 <= x)%Q as Hx0 by (unfold x; apply Qle_shift_div_l; lra).
    assert (x <= A)%Q as HxA by (unfold x; apply Qle_shift_div_r; nra).
    pose proof (pow2_le 51 52 ltac:(lia)) as H5152.
    assert (Qabs x == x)%Q as Ax by (apply Qabs_pos; exact Hx0).
    destruct (round_err x ltac:(lra)) as (p & Hp & Ep). rewrite Hp. cbn [Double.mul].
    rewrite (round_comp (p * qr) (p * R)) by (rewrite Er; reflexivity).
    rewrite Ax in Ep. apply Qabs_Qle_condition in Ep.
    pose proof (pow2_pos (-53)) as P53. pose proof (pow2_pos (-1075)) as P1075.
    assert (Double.pow2 51 * Double.pow2 (-53) == 1 # 4)%Q as C1 by (vm_compute; reflexivity).
    assert (Double.pow2 (-1075) * Double.pow2 53 <= 1 # 1000)%Q as C3
      by (vm_compute; discriminate).
    assert (Double.pow2 (-1075) <= 1 # 1000)%Q as C4 by (vm_compute; discriminate).
    assert (Double.pow2 (-53) <= 1 # 1000)%Q as C5 by (vm_compute; discriminate).
    assert (A * Double.pow2 (-53) <= 1 # 4)%Q as HAe
      by (rewrite <- C1; apply Qmult_le_compat_r; lra).
    assert (Double.pow2 (-1075) * R <= 1 # 1000)%Q as HtR.
    { eapply Qle_trans; [|exact C3]. apply Qmult_le_l; [exact P1075 | exact HR2]. }
    (* the product, against the frame *)
    assert (- ((1 # 4) + (1 # 1000)) <= p * R - A <= (1 # 4) + (1 # 1000))%Q as HpR.
    { assert (p * R - A == (p - x) * R)%Q as -> by (rewrite <- HxR; ring).
      assert (x * Double.pow2 (-53) * R == A * Double.pow2 (-53))%Q as E1
        by (rewrite <- HxR; ring).
      destruct Ep as [Ep1 Ep2].
      assert ((p - x) * R <= (x * Double.pow2 (-53) + Double.pow2 (-1075)) * R)%Q as U
        by (apply Qmult_le_compat_r; lra).
      assert (- (x * Double.pow2 (-53) + Double.pow2 (-1075)) * R <= (p - x) * R)%Q as L
        by (apply Qmult_le_compat_r; lra).
      assert ((x * Double.pow2 (-53) + Double.pow2 (-1075)) * R
              == A * Double.pow2 (-53) + Double.pow2 (-1075) * R)%Q as E2
        by (rewrite <- E1; ring).
      assert (- (x * Double.pow2 (-53) + Double.pow2 (-1075)) * R
              == - (A * Double.pow2 (-53) + Double.pow2 (-1075) * R))%Q as E3
        by (rewrite <- E1; ring).
      rewrite E2 in U. rewrite E3 in L. split; lra. }
    assert (Qabs (p * R) <= Double.pow2 51 + 1)%Q as HpRa
      by (apply Qabs_Qle_condition; split; lra).
    assert (Double.pow2 51 + 1 <= Double.pow2 52)%Q as C6 by (vm_compute; discriminate).
    destruct (round_err (p * R) ltac:(lra)) as (q & Hq & Eq). rewrite Hq.
    cbn [Double.floor]. exists (Qfloor q). split; [reflexivity|].
    assert (Qabs (p * R) * Double.pow2 (-53) <= (Double.pow2 51 + 1) * Double.pow2 (-53))%Q
      as H1 by (apply Qmult_le_compat_r; lra).
    assert ((Double.pow2 51 + 1) * Double.pow2 (-53) == (1 # 4) + Double.pow2 (-53))%Q as H2
      by (rewrite <- C1; ring).
    apply Qabs_Qle_condition in Eq.
    pose proof (Qfloor_le q) as F1. pose proof (Qlt_floor q) as F2.
    rewrite inject_Z_plus in F2. change (inject_Z 1) with 1%Q in F2.
    assert (inject_Z (Qfloor q) < A + 1)%Q as U.
    { clear - Eq HpR H1 H2 C4 C5 F1. revert Eq HpR H1 H2 C4 C5 F1.
      generalize (Qabs (p * R) * Double.pow2 (-53))%Q
                 ((Double.pow2 51 + 1) * Double.pow2 (-53))%Q (Double.pow2 (-53))
                 (Double.pow2 (-1075)) (inject_Z (Qfloor q)) (p * R)%Q.
      intros. lra. }
    assert (A - 2 < inject_Z (Qfloor q))%Q as L.
    { clear - Eq HpR H1 H2 C4 C5 F2. revert Eq HpR H1 H2 C4 C5 F2.
      generalize (Qabs (p * R) * Double.pow2 (-53))%Q
                 ((Double.pow2 51 + 1) * Double.pow2 (-53))%Q (Double.pow2 (-53))
                 (Double.pow2 (-1075)) (inject_Z (Qfloor q)) (p * R)%Q.
      intros. lra. }
    unfold A in U, L. change 1%Q with (inject_Z 1) in U. change 2%Q with (inject_Z 2) in L.
    rewrite <- inject_Z_plus, <- Zlt_Qlt in U.
    assert (inject_Z a - inject_Z 2 == inject_Z (a - 2))%Q as E
      by (unfold Z.sub; rewrite inject_Z_plus, inject_Z_opp; reflexivity).
    rewrite E, <- Zlt_Qlt in L. lia.
Qed.

(** At least two frames. *)
Lemma leb_two_of_Z (m : Double.t) (n : Z) :
  Double.leb (Double.Fin 2) m = true -> Double.leb m (Double.of_Z n) = true -> 2 <= n.
Proof.
  intros H2 Hm. destruct (Z_lt_le_dec n 2) as [Hn | Hn]; [|exact Hn]. exfalso.
  assert (Double.leb (Double.of_Z n) (Double.Fin 1) = true) as H1.
  { destruct (Z_lt_le_dec n 0) as [N | N].
    - assert (inject_Z n <= 0)%Q as Hq
        by (change 0%Q with (inject_Z 0); rewrite <- Zle_Qle; lia).
      unfold Double.of_Z. destruct (round_nonpos _ Hq) as [-> | (p & -> & Hp)]; [reflexivity|].
      cbn [Double.leb]. apply Qle_bool_iff. lra.
    - assert (n = 0 \/ n = 1) as [-> | ->] by lia; vm_compute; reflexivity. }
  destruct m as [q| | |], (Double.of_Z n) as [p| | |]; try discriminate.
  cbn [Double.leb] in *. apply Qle_bool_iff in H2, Hm, H1. lra.
Qed.

Lemma extractAll_pairs (refuses : Z -> Z -> Z -> option Exn) (buffer : AudioBuffer.t)
    (len : Z) (pairs : list (Z * Z)) :
  0 < AudioBuffer.sampleRate buffer < 2 ^ 53 ->
  1 <= AudioBuffer.numberOfChannels buffer ->
  len < 2 ^ 31 ->
  (forall n, 0 < n <= len + 1 ->
     refuses (AudioBuffer.numberOfChannels buffer) n (AudioBuffer.sampleRate buffer) = None) ->
  Forall (fun p => 0 <= fst p /\ fst p + 2 <= snd p /\ snd p <= len) pairs ->
  exists out,
    IEEE.extractAll refuses buffer
      (map (fun p => IEEE.segment_of (Double.of_Z (AudioBuffer.sampleRate buffer))
                       (fst p) (snd p)) pairs)
    = Returns (map Some out) /\
    Forall2 (fun p b =>
               exists first last,
                 fst p - 1 <= first <= fst p /\ 0 <= first /\
                 snd p - 1 <= last <= snd p /\
                 b = {| AudioBuffer.sampleRate := AudioBuffer.sampleRate buffer;
                        AudioBuffer.length := last - first;
                        AudioBuffer.channels :=
                          map (fun sourceData => copyChannel sourceData first (last - first))
                              (AudioBuffer.channels buffer) |})
            pairs out.
Proof.
  intros Hr Hch Hlen Hacc Hall.
  induction Hall as [|[a b] pairs (Ha & Hab & Hb) _ (out & Hrun & IH)].
  - exists []. split; [reflexivity | constructor].
  - cbn [fst snd] in *.
    destruct (frame_round_trip buffer a Hr ltac:(lia)) as (a' & Hfa & Ba & Na).
    destruct (frame_round_trip buffer b Hr ltac:(lia)) as (b' & Hfb & Bb & Nb).
    pose proof (extract_frames refuses buffer
                  (IEEE.segment_of (Double.of_Z (AudioBuffer.sampleRate buffer)) a b)
                  a' b' Hfa Hfb ltac:(lia) Hch) as Hex.
    destruct (Z.leb_spec (b' - a') 0) as [|_]; [lia|].
    rewrite (Hacc (b' - a') ltac:(lia)) in Hex.
    eexists (_ :: out). split.
    + cbn [map IEEE.extractAll fst snd]. rewrite Hex, Hrun. reflexivity.
    + constructor; [|exact IH]. exists a', b'. cbn [fst snd]. repeat split; lia.
Qed.

(** X12: splitting a recording at the segments detected in it.  On an
    initialized engine, for a recording of fewer than 2^31 frames at a
    positive integer rate below 2^53, with a minimum sound of at least two
    frames, and a browser that refuses no buffer of at most that many
    frames, [splitBuffer] returns exactly one buffer per detected segment,
    in order.  The buffer of the segment of frames [first .. last - 1]
    starts at frame [first] or at the frame before it, and ends before frame
    [last] or [last - 1]: turning frames into seconds and back can lose one
    frame at either end, so a piece can begin with the last silent frame and
    can lack the last frame of the sound. *)
Theorem split_detected (refuses : Z -> Z -> Z -> option Exn) (e : AudioEngine)
    (buffer : AudioBuffer.t) (silenceThreshold minSilenceDuration minSoundDuration : Double.t) :
  let rate := Double.of_Z (AudioBuffer.sampleRate buffer) in
  let len := Z.of_nat (List.length (AudioBuffer.getChannelData buffer 0)) in
  ctx e = true ->
  0 < AudioBuffer.sampleRate buffer < 2 ^ 53 ->
  1 <= AudioBuffer.numberOfChannels buffer ->
  len < 2 ^ 31 ->
  Double.leb (Double.Fin 2) (Double.mul minSoundDuration rate) = true ->
  (forall n, 0 < n <= len + 1 ->
     refuses (AudioBuffer.numberOfChannels buffer) n (AudioBuffer.sampleRate buffer) = None) ->
  exists pairs out,
    IEEE.detectSoundSegments buffer silenceThreshold minSilenceDuration minSoundDuration
    = map (fun p => IEEE.segment_of rate (fst p) (snd p)) pairs /\
    IEEE.splitBuffer refuses e buffer
      (IEEE.detectSoundSegments buffer silenceThreshold minSilenceDuration minSoundDuration)
    = Returns out /\
    Forall2 (fun p b =>
               exists first last,
                 fst p - 1 <= first <= fst p /\ 0 <= first /\
                 snd p - 1 <= last <= snd p /\
                 AudioBuffer.length b = last - first /\
                 AudioBuffer.channels b
                 = map (fun sourceData => copyChannel sourceData first (last - first))
                       (AudioBuffer.channels buffer))
            pairs out.
Proof.
  intros rate len Hctx Hr Hch Hlen Hmin Hacc.
  destruct (detect_frames buffer silenceThreshold minSilenceDuration minSoundDuration)
    as (pairs & Hsegs & Hchain & Hlong).
  fold rate in Hsegs, Hlong. fold len in Hchain.
  pose proof (frame_chain_bounds _ _ _ Hchain) as Hb.
  assert (Forall (fun p => 0 <= fst p /\ fst p + 2 <= snd p /\ snd p <= len) pairs) as Hall.
  { apply Forall_forall. intros p Hp.
    pose proof (proj1 (Forall_forall _ _) Hb p Hp) as (H1 & H2 & H3).
    pose proof (proj1 (Forall_forall _ _) Hlong p Hp) as H4. cbn beta in H4.
    pose proof (leb_two_of_Z _ _ Hmin H4). lia. }
  destruct (extractAll_pairs refuses buffer len pairs Hr Hch Hlen Hacc Hall)
    as (out & Hrun & Hout).
  exists pairs, out. split; [exact Hsegs|]. split.
  - rewrite Hsegs. unfold IEEE.splitBuffer, ensureInitialized. rewrite Hctx.
    fold rate in Hrun. rewrite Hrun. f_equal.
    clear. induction out as [|b out IH]; [reflexivity|]. cbn. rewrite IH. reflexivity.
  - eapply Forall2_impl; [exact Hout|]. cbn beta.
    intros p b (first & last & H1 & H2 & H3 & ->). exists first, last.
    repeat split; try lia.
Qed.

Lemma split_detected_witness :
  exists piece,
    IEEE.detectSoundSegments late_burst (Double.round (2 # 100)) (Double.round (2 # 44100))
      (Double.round (3 # 44100))
    = [IEEE.segment_of (Double.of_Z 44100) 15 24] /\
    IEEE.splitBuffer generous (engine_with 0 two_second_buffer "snare") late_burst
      (IEEE.detectSoundSegments late_burst (Double.round (2 # 100)) (Double.round (2 # 44100))
         (Double.round (3 # 44100)))
    = Returns [piece] /\
    AudioBuffer.length piece = 10 /\
    AudioBuffer.channels piece = [slice 14 10 (AudioBuffer.getChannelData late_burst 0)].
Proof.
  destruct (split_detected generous (engine_with 0 two_second_buffer "snare") late_burst
              (Double.round (2 # 100)) (Double.round (2 # 44100)) (Double.round (3 # 44100))
              eq_refl ltac:(split; reflexivity) ltac:(discriminate) ltac:(reflexivity)
              ltac:(vm_compute; reflexivity) ltac:(intros; reflexivity))
    as (pairs & out & _ & Hrun & _).
  assert (exists piece, IEEE.splitBuffer generous (engine_with 0 two_second_buffer "snare")
            late_burst
            (IEEE.detectSoundSegments late_burst (Double.round (2 # 100))
               (Double.round (2 # 44100)) (Double.round (3 # 44100)))
          = Returns [piece] /\
          AudioBuffer.length piece = 10 /\
          AudioBuffer.channels piece = [slice 14 10 (AudioBuffer.getChannelData late_burst 0)])
    as (piece & Hpiece & Hl & Hc)
    by (eexists; split; [vm_compute; reflexivity | split; reflexivity]).
  exists piece. split; [vm_compute; reflexivity|]. split; [exact Hpiece|]. split; assumption.
Defined.
